(** * Workflow engine: event client, tracing wrappers, import graph, World contract

    Shallow embedding of the parts of the workflow repository that its
    specification talks about:

    - [Events]: [packages/world-vercel/src/events.ts]
      ([filterEventData], [eventsNeedingResolve], [getWorkflowRunEvents],
      [createWorkflowRunEvent]);
    - [Telemetry]: [packages/world-local/src/telemetry.ts] ([trace],
      [getSpanKind]) and [packages/world-local/src/instrumentObject.ts];
    - [Discover]: the import graph walk [parentHasChild] of the
      discover-entries esbuild plugin;
    - [World]: the storage contract of the specification (steps, events,
      conditional updates, retry timing);
    - [DiscoverPlugin]: the [onResolve] and [onLoad] handlers of the same
      plugin;
    - [ModuleSpecifier]: [packages/builders/src/module-specifier.ts]
      ([findPackageJson], [resolveExportSubpath], [resolveExportTarget],
      [getProjectDependencies], [isWorkspacePackage],
      [resolveModuleSpecifier], [getImportPath]). *)

From Equations Require Import Equations.
From stdpp Require Import gmap strings list fin_maps pretty.
From Stdlib Require Import Ascii.

Local Open Scope string_scope.
Local Open Scope list_scope.
Local Open Scope nat_scope.

(** ** Outcome of awaiting a promise: a value or a thrown error *)

Inductive Result (E A : Type) : Type :=
| Ok (a : A)
| Throw (e : E).
Arguments Ok {E A} a.
Arguments Throw {E A} e.

(** ** JavaScript values carried by events *)

#[warnings="-register-all"]
Inductive JsValue : Type :=
| JsUndefined
| JsNull
| JsBool (b : bool)
| JsNum (n : Z)
| JsStr (s : string)
| JsDate (t : Z)
| JsArr (items : list JsValue)
| JsObj (fields : list (string * JsValue)).

(** An event as it travels through the client is a plain object: a finite
    map from property names to values. *)
Abbreviation EventObj := (gmap string JsValue).

Module Events.

Inductive ResolveData := RdNone | RdAll.

Inductive RemoteRefBehavior := Lazy | Resolve.

Inductive SortOrder := Asc | Desc.

Inductive Method := GET | POST.

(** The zod schema handed to [makeRequest]. *)
Inductive Schema :=
| EventSchema
| EventWithRefsSchema
| EventResultWireSchema
| PaginatedEventSchema
| PaginatedEventWithRefsSchema.

(** [AnyEventRequest]: the event a caller asks to append. *)
Record AnyEventRequest := {
  eventType : string;
  correlationId : option string;
  eventData : option JsValue;
}.

(** The JSON body of a POST: [data] alone on the v1 route,
    [{ ...data, remoteRefBehavior }] on the v2 route. *)
Record Body := {
  body_data : AnyEventRequest;
  body_remoteRefBehavior : option RemoteRefBehavior;
}.

(** [URLSearchParams], as the ordered list of its entries; the values are
    kept as they are before their conversion to text. *)
Inductive QueryValue :=
| QNum (n : Z)
| QStr (s : string)
| QSort (o : SortOrder)
| QRef (b : RemoteRefBehavior).

(** [searchParams.set(k, v)]: the first entry under [k] takes the value
    and the other entries under [k] go; without one, the entry is
    appended. *)
Fixpoint sp_set (k : string) (v : QueryValue)
    (sp : list (string * QueryValue)) : list (string * QueryValue) :=
  match sp with
  | [] => [(k, v)]
  | kv :: rest =>
      if bool_decide (kv.1 = k)
      then (k, v) :: filter (λ kv', kv'.1 ≠ k) rest
      else kv :: sp_set k v rest
  end.

(** A request as [makeRequest] receives it. The endpoint is kept as its
    path and its query entries. *)
Record Request := {
  req_path : string;
  req_query : list (string * QueryValue);
  req_method : Method;
  req_body : option Body;
  req_schema : Schema;
}.

Record Pagination := {
  limit : option Z;
  cursor : option string;
  sortOrder : option SortOrder;
}.

(** [ListEventsParams | ListEventsByCorrelationIdParams]. [lp_runId] is
    [None] when the object has no [runId] key, [Some None] when the key
    is there with an undefined value. *)
Record ListParams := {
  lp_runId : option (option string);
  lp_correlationId : option string;
  lp_pagination : option Pagination;
  lp_resolveData : option ResolveData;
}.

Record CreateEventParams := {
  cp_resolveData : option ResolveData;
  cp_v1Compat : option bool;
}.

Record PaginatedResponse := {
  data : list EventObj;
  page_cursor : option string;
  hasMore : bool;
}.

(** JavaScript truthiness of an optional string and an optional number. *)
Definition truthy_str (s : option string) : bool :=
  match s with
  | Some s => negb (bool_decide (s = ""))
  | None => false
  end.

Definition truthy_num (n : option Z) : bool :=
  match n with
  | Some n => negb (bool_decide (n = 0%Z))
  | None => false
  end.

(** [filterEventData]: with ['none'] the object is rebuilt from every
    property except [eventData]. *)
Definition filterEventData (event : EventObj) (resolveData : ResolveData)
    : EventObj :=
  match resolveData with
  | RdNone => delete "eventData" event
  | RdAll => event
  end.

Definition eventsNeedingResolve : gset string :=
  {[ "run_created"; "run_started"; "step_started" ]}.

Definition remoteRefBehavior_of_type (ty : string) : RemoteRefBehavior :=
  if bool_decide (ty ∈ eventsNeedingResolve) then Resolve else Lazy.

Section Client.
(** What [events.ts] imports from modules outside this development. *)
Context {Err Run StepWire Step Hook : Type}.
Variable DEFAULT_RESOLVE_DATA_OPTION : ResolveData.
Variable err_of_message : string → Err.
Variable deserializeStep : StepWire → Step.

(** The wire result of [events.create]. *)
Record EventResultWire := {
  wire_event : EventObj;
  wire_run : option Run;
  wire_step : option StepWire;
  wire_hook : option Hook;
}.

Record EventResult := {
  res_event : option EventObj;
  res_run : option Run;
  res_step : option Step;
  res_hook : option Hook;
}.

(** The client's calls: every awaited call either yields a value or
    throws; each storage request is recorded in the order issued. *)
Inductive Call :=
| CallRequest (r : Request)
| CallCancelRunV1 (id : string) (params : option CreateEventParams)
| CallCreateRunV1 (eventData : option JsValue).

Definition M (A : Type) : Type := list Call → list Call * Result Err A.

Definition ret {A} (a : A) : M A := λ log, (log, Ok a).
Definition throw {A} (e : Err) : M A := λ log, (log, Throw e).
Definition bind {A B} (m : M A) (k : A → M B) : M B :=
  λ log,
    match m log with
    | (log', Ok a) => k a log'
    | (log', Throw e) => (log', Throw e)
    end.
Definition call {A} (c : Call) (answer : Call → Result Err A) : M A :=
  λ log, (log ++ [c], answer c).

(** The server behind [makeRequest], by the schema of the answer, and
    the two v1 helpers of [runs.ts]. *)
Variable serverPage : Call → Result Err PaginatedResponse.
Variable serverEvent : Call → Result Err EventObj.
Variable serverResult : Call → Result Err EventResultWire.
Variable cancelWorkflowRunV1 : Call → Result Err Run.
Variable createWorkflowRunV1 : Call → Result Err Run.

Definition getWorkflowRunEvents (params : ListParams)
    : M PaginatedResponse :=
  let searchParams : list (string * QueryValue) := [] in
  let pagination := lp_pagination params in
  let resolveData :=
    default DEFAULT_RESOLVE_DATA_OPTION (lp_resolveData params) in
  let '(runId, correlationId) :=
    match lp_runId params with
    | Some r => (r, None)
    | None => (None, lp_correlationId params)
    end in
  if negb (truthy_str runId) && negb (truthy_str correlationId)
  then throw (err_of_message "Either runId or correlationId must be provided")
  else
    let searchParams :=
      match pagination ≫= limit with
      | Some n =>
          if truthy_num (Some n) then sp_set "limit" (QNum n) searchParams
          else searchParams
      | None => searchParams
      end in
    let searchParams :=
      match pagination ≫= cursor with
      | Some c =>
          if truthy_str (Some c) then sp_set "cursor" (QStr c) searchParams
          else searchParams
      | None => searchParams
      end in
    let searchParams :=
      match pagination ≫= sortOrder with
      | Some o => sp_set "sortOrder" (QSort o) searchParams
      | None => searchParams
      end in
    let searchParams :=
      match correlationId with
      | Some c =>
          if truthy_str (Some c)
          then sp_set "correlationId" (QStr c) searchParams
          else searchParams
      | None => searchParams
      end in
    let remoteRefBehavior :=
      match resolveData with RdNone => Lazy | RdAll => Resolve end in
    let searchParams :=
      sp_set "remoteRefBehavior" (QRef remoteRefBehavior) searchParams in
    let endpoint :=
      if truthy_str correlationId then "/v2/events"
      else "/v2/runs/" +:+ default "undefined" runId +:+ "/events" in
    bind
      (call
         (CallRequest
            {| req_path := endpoint;
               req_query := searchParams;
               req_method := GET;
               req_body := None;
               req_schema :=
                 match remoteRefBehavior with
                 | Lazy => PaginatedEventWithRefsSchema
                 | Resolve => PaginatedEventSchema
                 end |})
         serverPage)
      (λ response,
         ret {| data := (λ event, filterEventData event resolveData)
                          <$> data response;
                page_cursor := page_cursor response;
                hasMore := hasMore response |}).

Definition createWorkflowRunEvent (id : option string)
    (data : AnyEventRequest) (params : option CreateEventParams)
    : M EventResult :=
  let resolveData :=
    default DEFAULT_RESOLVE_DATA_OPTION (params ≫= cp_resolveData) in
  let v1Compat := default false (params ≫= cp_v1Compat) in
  if v1Compat then
    if bool_decide (eventType data = "run_cancelled") && truthy_str id
    then
      bind (call (CallCancelRunV1 (default "" id) params)
              cancelWorkflowRunV1)
        (λ run, ret {| res_event := None; res_run := Some run;
                       res_step := None; res_hook := None |})
    else if bool_decide (eventType data = "run_created")
    then
      bind (call (CallCreateRunV1 (eventData data)) createWorkflowRunV1)
        (λ run, ret {| res_event := None; res_run := Some run;
                       res_step := None; res_hook := None |})
    else
      bind
        (call
           (CallRequest
              {| req_path := "/v1/runs/" +:+ default "null" id +:+ "/events";
                 req_query := [];
                 req_method := POST;
                 req_body :=
                   Some {| body_data := data;
                           body_remoteRefBehavior := None |};
                 req_schema := EventSchema |})
           serverEvent)
        (λ wireResult,
           ret {| res_event := Some wireResult; res_run := None;
                  res_step := None; res_hook := None |})
  else
    let runIdPath := default "null" id in
    let remoteRefBehavior := remoteRefBehavior_of_type (eventType data) in
    bind
      (call
         (CallRequest
            {| req_path := "/v2/runs/" +:+ runIdPath +:+ "/events";
               req_query := [];
               req_method := POST;
               req_body :=
                 Some {| body_data := data;
                         body_remoteRefBehavior :=
                           Some remoteRefBehavior |};
               req_schema := EventResultWireSchema |})
         serverResult)
      (λ wireResult,
         ret {| res_event :=
                  Some (filterEventData (wire_event wireResult)
                          resolveData);
                res_run := wire_run wireResult;
                res_step := deserializeStep <$> wire_step wireResult;
                res_hook := wire_hook wireResult |}).

End Client.

(** What a recorded call asked the server about remote references:
    [None] when the call carries no [remoteRefBehavior] at all. *)
Definition requested_behavior (c : Call) : option RemoteRefBehavior :=
  match c with
  | CallRequest r => req_body r ≫= body_remoteRefBehavior
  | CallCancelRunV1 _ _ | CallCreateRunV1 _ => None
  end.

(** A server that cannot be reached. *)
Definition offline {A : Type} : Call → Result string A :=
  λ _, Throw "offline".

(** An event as storage holds it, payload and reference both present. *)
Definition stored_event : EventObj :=
  {[ "eventId" := JsStr "evnt_1"; "runId" := JsStr "wrun_1";
     "eventType" := JsStr "step_completed";
     "eventData" := JsObj [("result", JsNum 7)];
     "eventDataRef" := JsStr "0"; "createdAt" := JsDate 0 ]}.

Definition answer_stored
    : Call → Result string (@EventResultWire unit unit unit) :=
  λ _, Ok {| wire_event := stored_event; wire_run := None;
             wire_step := None; wire_hook := None |}.

Definition answer_page : Call → Result string PaginatedResponse :=
  λ _, Ok {| data := [stored_event]; page_cursor := None;
             hasMore := false |}.

(** A [step_started] event sent in v1 compatibility mode, and the calls
    it leads to. *)
Definition step_started_request : AnyEventRequest :=
  {| eventType := "step_started"; correlationId := Some "step_1";
     eventData := None |}.

Definition step_completed_request : AnyEventRequest :=
  {| eventType := "step_completed"; correlationId := Some "step_1";
     eventData := Some (JsNum 7) |}.

Definition v1Compat_calls : list Call :=
  (createWorkflowRunEvent (Step := unit) RdAll id offline answer_stored
     offline offline (Some "wrun_1") step_started_request
     (Some {| cp_resolveData := None; cp_v1Compat := Some true |}) []).1.

(** A lazy-mode creation under [resolveData = 'none'], against a server
    that answers with [stored_event]. *)
Definition none_params : option CreateEventParams :=
  Some {| cp_resolveData := Some RdNone; cp_v1Compat := None |}.

Definition lazy_created
    : list Call * Result string (@EventResult unit unit unit) :=
  createWorkflowRunEvent RdAll id offline answer_stored offline offline
    (Some "wrun_1") step_completed_request none_params [].

Definition lazy_result : @EventResult unit unit unit :=
  match lazy_created.2 with
  | Ok result => result
  | Throw _ =>
      {| res_event := None; res_run := None; res_step := None;
         res_hook := None |}
  end.

(** A listing of the same run under [resolveData = 'none']. *)
Definition none_listing : ListParams :=
  {| lp_runId := Some (Some "wrun_1"); lp_correlationId := None;
     lp_pagination := None; lp_resolveData := Some RdNone |}.

Definition lazy_listed : list Call * Result string PaginatedResponse :=
  getWorkflowRunEvents RdAll id answer_page none_listing [].

Definition lazy_page : PaginatedResponse :=
  match lazy_listed.2 with
  | Ok page => page
  | Throw _ => {| data := []; page_cursor := None; hasMore := false |}
  end.

(** A listing that names neither a run nor a correlation id. *)
Definition anonymous_listing : ListParams :=
  {| lp_runId := Some (Some ""); lp_correlationId := None;
     lp_pagination := None; lp_resolveData := None |}.

End Events.

(** ** Tracing: [telemetry.ts] and [instrumentObject.ts] of world-local *)

Module Telemetry.

Inductive SpanKindName := INTERNAL | SERVER | CLIENT | PRODUCER | CONSUMER.

(** The part of [@opentelemetry/api] the module reads: the [SpanKind]
    enumeration (the status codes are the two constructors of
    [SpanStatus] below). *)
Record OtelApi := {
  otel_SpanKind : SpanKindName → Z;
}.

Record Tracer := { tracer_name : string }.

Record SpanOptions := { kind : option Z }.

Inductive SpanStatus :=
| StatusOK
| StatusERROR (message : string).

(** A span is known by the name it was started with. *)
Definition Span := string.

(** What the tracer is asked to do, in order. *)
Inductive SpanOp :=
| StartActiveSpan (name : string) (opts : SpanOptions)
| SetAttributes (span : Span) (attrs : list (string * string))
| SetStatus (span : Span) (st : SpanStatus)
| EndSpan (span : Span).

(** [SemanticConvention(...names)(value)]. *)
Definition SemanticConvention (names : list string) (value : string)
    : list (string * string) :=
  (λ name, (name, value)) <$> names.

Definition PeerService := SemanticConvention ["peer.service"].
Definition RpcSystem := SemanticConvention ["rpc.system"].
Definition RpcService := SemanticConvention ["rpc.service"].
Definition RpcMethod := SemanticConvention ["rpc.method"].

Definition WORLD_LOCAL_peerService : string := "world-local".
Definition WORLD_LOCAL_rpcSystem : string := "local".
Definition WORLD_LOCAL_rpcService : string := "world-local".

(** Property lookup on an object literal. *)
Fixpoint js_get (k : string) (fields : list (string * JsValue))
    : option JsValue :=
  match fields with
  | [] => None
  | (k', v) :: rest => if bool_decide (k' = k) then Some v else js_get k rest
  end.

(** [extractEventType]: the [eventType] of the second argument, when that
    argument is a non-null object and the property is a string. *)
Definition extractEventType (args : list JsValue) : option string :=
  match args !! 1%nat with
  | Some (JsObj fields) =>
      match js_get "eventType" fields with
      | Some (JsStr s) => Some s
      | _ => None
      end
  | _ => None
  end.

Section Tracing.
(** [Err]: what a JavaScript [throw] carries. [This]: what a method
    sees as its receiver. *)
Context {Err This : Type}.
Variable err_of_message : string → Err.
Variable message_of_err : Err → string.

(** The outcome of [import('@opentelemetry/api').catch(() => null)]:
    [None] when the package cannot be loaded. *)
Variable otel : option OtelApi.

(** An awaited computation that may talk to the tracer. *)
Definition Traced (A : Type) : Type :=
  list SpanOp → list SpanOp * Result Err A.

Definition emit (op : SpanOp) : Traced unit :=
  λ log, (log ++ [op], Ok tt).

Definition tbind {A B} (m : Traced A) (k : A → Traced B) : Traced B :=
  λ log,
    match m log with
    | (log', Ok a) => k a log'
    | (log', Throw e) => (log', Throw e)
    end.

Definition tret {A} (a : A) : Traced A := λ log, (log, Ok a).
Definition tthrow {A} (e : Err) : Traced A := λ log, (log, Throw e).

Definition getOtelApi : option OtelApi := otel.

Definition getTracer : option Tracer :=
  match getOtelApi with
  | Some _ => Some {| tracer_name := "workflow" |}
  | None => None
  end.

Definition getSpanKind (field : SpanKindName) : option Z :=
  match getOtelApi with
  | None => None
  | Some api => Some (otel_SpanKind api field)
  end.

(** The rest arguments of [trace]: [[fn]] or [[opts, fn]]; in the
    second form nothing but the type checker makes [fn] present. *)
Inductive TraceArgs (T : Type) :=
| ArgsFn (fn : option Span → Traced T)
| ArgsOptsFn (opts : SpanOptions) (fn : option (option Span → Traced T)).
Arguments ArgsFn {T} fn.
Arguments ArgsOptsFn {T} opts fn.

(** [tracer.startActiveSpan(spanName, opts, callback)] with the
    callback of [trace]: status OK after a result, status ERROR and a
    rethrow after an exception, [span.end()] in both cases. *)
Definition startActiveSpan {T} (spanName : string) (opts : SpanOptions)
    (fn : option Span → Traced T) : Traced T :=
  λ log,
    let span : Span := spanName in
    match fn (Some span) (log ++ [StartActiveSpan spanName opts]) with
    | (log', Ok result) =>
        (log' ++ [SetStatus span StatusOK; EndSpan span], Ok result)
    | (log', Throw e) =>
        (log' ++ [SetStatus span (StatusERROR (message_of_err e));
                  EndSpan span], Throw e)
    end.

Definition trace {T} (spanName : string) (args : TraceArgs T)
    : Traced T :=
  let tracer := getTracer in
  let otel := getOtelApi in
  let '(fn, opts) :=
    match args with
    | ArgsFn fn => (Some fn, {| kind := None |})
    | ArgsOptsFn opts fn => (fn, opts)
    end in
  match fn with
  | None => tthrow (err_of_message "Function to trace must be provided")
  | Some fn =>
      match tracer, otel with
      | Some _, Some _ => startActiveSpan spanName opts fn
      | _, _ => fn None
      end
  end.

(** A function value: what it computes from its receiver ([None] when
    it is called without one) and its arguments. *)
Definition Method : Type := option This → list JsValue → Traced JsValue.

Inductive Property :=
| PValue (v : JsValue)
| PMethod (f : Method).

(** An object is the finite map of its own enumerable properties.
    [as_this o] is the receiver a method of [o] sees in a call
    [o.key(...args)]. *)
Variable as_this : gmap string Property → This.

(** The call [o.key(...args)]; [None] when [o.key] is not a function. *)
Definition call_method (o : gmap string Property) (key : string) (args : list JsValue)
    : option (Traced JsValue) :=
  match o !! key with
  | Some (PMethod f) => Some (f (Some (as_this o)) args)
  | _ => None
  end.

(** The wrapper [instrumentObject] installs for the method [f] found
    under [key]: an arrow function, so its own receiver is not seen,
    and [f(...args)] is a call without receiver. *)
Definition instrumented (prefix methodName : string) (f : Method)
    : Method :=
  λ _this args,
    let spanName := prefix +:+ "." +:+ methodName in
    let spanName :=
      if bool_decide (prefix = "world.events")
         && bool_decide (methodName = "create")
      then
        match extractEventType args with
        | Some eventType =>
            if bool_decide (eventType = "") then spanName
            else prefix +:+ "." +:+ methodName +:+ " " +:+ eventType
        | None => spanName
        end
      else spanName in
    trace spanName
      (ArgsOptsFn {| kind := getSpanKind INTERNAL |}
         (Some (λ span,
            tbind
              match span with
              | Some sp =>
                  emit (SetAttributes sp
                          (PeerService WORLD_LOCAL_peerService
                           ++ RpcSystem WORLD_LOCAL_rpcSystem
                           ++ RpcService WORLD_LOCAL_rpcService
                           ++ RpcMethod spanName))
              | None => tret tt
              end
              (λ _, f None args)))).

Definition instrumentObject (prefix : string) (o : gmap string Property)
    : gmap string Property :=
  map_imap
    (λ key p,
       Some match p with
            | PValue v => PValue v
            | PMethod f => PMethod (instrumented prefix key f)
            end)
    o.

End Tracing.

Arguments ArgsFn {Err T} fn.
Arguments ArgsOptsFn {Err T} opts fn.
Arguments PValue {Err This} v.
Arguments PMethod {Err This} f.

(** A receiver as its methods read it: the data properties of the
    object. *)
Definition data_view
    (o : gmap string (@Property string (gmap string JsValue)))
    : gmap string JsValue :=
  omap (λ p, match p with PValue v => Some v | PMethod _ => None end) o.

(** [{ count: 1, get() { return this.count } }]: reading a property of
    an undefined [this] is a [TypeError]. *)
Definition counter : gmap string (@Property string (gmap string JsValue)) :=
  {[ "count" := PValue (JsNum 1);
     "get" := PMethod (λ this _,
                match this with
                | Some self => tret (default JsUndefined (self !! "count"))
                | None => tthrow "TypeError"
                end) ]}.

(** A call awaited with nothing traced so far. *)
Definition await_call
    (o : gmap string (@Property string (gmap string JsValue)))
    (key : string) (args : list JsValue)
    : option (list SpanOp * Result string JsValue) :=
  (λ m, m []) <$> call_method data_view o key args.

(** The [SpanKind] enumeration of the OpenTelemetry API. *)
Definition otel_api : OtelApi :=
  {| otel_SpanKind := λ field,
       match field with
       | INTERNAL => 0 | SERVER => 1 | CLIENT => 2
       | PRODUCER => 3 | CONSUMER => 4
       end%Z |}.

(** An object whose only method ignores its receiver. *)
Definition constant_one : gmap string (@Property string (gmap string JsValue)) :=
  {[ "one" := PMethod (λ _ _, tret (JsNum 1)) ]}.

End Telemetry.

(** ** The import graph of the discover-entries plugin *)

Module Discover.

(** [importParents]: parent -> children. A JavaScript [Set] iterates in
    insertion order, so the children are kept as a list. *)
Abbreviation ImportGraph := (gmap string (list string)).

(** The [for (const child of children)] loop: [None] when it returns
    [true] from inside, otherwise the queue after all the pushes. *)
Fixpoint push_children (childToFind : string) (children queue : list string)
    : option (list string) :=
  match children with
  | [] => Some queue
  | child :: rest =>
      if bool_decide (child = childToFind) then None
      else push_children childToFind rest (queue ++ [child])
  end.

(** Work still ahead of the [while] loop: every key of the graph not yet
    visited may push all its children once. *)
Definition entry_weight (visited : gset string) (kc : string * list string) : nat :=
  if bool_decide (kc.1 ∈ visited) then 0 else S (length kc.2).

Definition pending_work (importParents : ImportGraph) (visited : gset string) : nat :=
  sum_list_with (entry_weight visited) (map_to_list importParents).

Lemma push_children_length childToFind children queue queue' :
  push_children childToFind children queue = Some queue' →
  length queue' = length queue + length children.
Proof.
  revert queue. induction children as [|c cs IH]; intros queue; simpl.
  - intros [= <-]. lia.
  - case_bool_decide; [done|]. intros Hp. apply IH in Hp.
    rewrite length_app in Hp. simpl in Hp. lia.
Qed.

Lemma entry_weight_mono visited current kc :
  entry_weight ({[current]} ∪ visited) kc ≤ entry_weight visited kc.
Proof.
  unfold entry_weight. repeat case_bool_decide; try lia.
  exfalso. rewrite elem_of_union in *. auto.
Qed.

Lemma sum_weight_mono visited current (l : list (string * list string)) :
  sum_list_with (entry_weight ({[current]} ∪ visited)) l
  ≤ sum_list_with (entry_weight visited) l.
Proof.
  induction l as [|kc l IH]; [done|]. cbn [sum_list_with].
  pose proof (entry_weight_mono visited current kc). lia.
Qed.

Lemma pending_work_mono importParents visited current :
  pending_work importParents ({[current]} ∪ visited)
  ≤ pending_work importParents visited.
Proof. apply sum_weight_mono. Qed.

Lemma pending_work_visit importParents visited current children :
  importParents !! current = Some children →
  current ∉ visited →
  pending_work importParents ({[current]} ∪ visited) + S (length children)
  ≤ pending_work importParents visited.
Proof.
  intros Hc Hv. unfold pending_work.
  rewrite <- !(map_to_list_delete importParents current children Hc).
  simpl. unfold entry_weight at 1 3. simpl.
  rewrite bool_decide_eq_true_2
    by (apply elem_of_union; left; by apply elem_of_singleton).
  rewrite bool_decide_eq_false_2 by done.
  fold (pending_work (delete current importParents) ({[current]} ∪ visited)).
  fold (pending_work (delete current importParents) visited).
  pose proof (pending_work_mono (delete current importParents) visited current).
  lia.
Qed.

(** Case analysis that keeps the equation. *)
Definition inspect {A : Type} (x : A) : {y : A | x = y} := exist _ x eq_refl.

(** The [while (queue.length > 0)] loop. *)
Equations? parentHasChild_loop (importParents : ImportGraph)
    (childToFind : string) (visited : gset string) (queue : list string)
    : bool by wf (pending_work importParents visited + length queue) lt :=
  parentHasChild_loop importParents childToFind visited [] := false;
  parentHasChild_loop importParents childToFind visited (current :: queue)
    with inspect (bool_decide (current ∈ visited)) => {
    | exist _ true Hseen := parentHasChild_loop importParents childToFind visited queue;
    | exist _ false Hfresh with inspect (importParents !! current) => {
      | exist _ None Hleaf :=
          parentHasChild_loop importParents childToFind
            ({[current]} ∪ visited) queue;
      | exist _ (Some children) Hchildren
          with inspect (push_children childToFind children queue) => {
          | exist _ None Hfound := true;
          | exist _ (Some queue') Hpush :=
              parentHasChild_loop importParents childToFind
                ({[current]} ∪ visited) queue' } } }.
Proof.
  all: cbn [length].
  - lia.
  - apply push_children_length in Hpush.
    apply bool_decide_eq_false_1 in Hfresh.
    pose proof (pending_work_visit _ _ _ _ Hchildren Hfresh). lia.
  - pose proof (pending_work_mono importParents visited current). lia.
Qed.

Definition parentHasChild (importParents : ImportGraph)
    (parent childToFind : string) : bool :=
  parentHasChild_loop importParents childToFind ∅ [parent].

(** An import edge: [v] is among the children recorded for [u]. *)
Definition edge (importParents : ImportGraph) (u v : string) : Prop :=
  ∃ children, importParents !! u = Some children ∧ v ∈ children.

(** What the loop has established about the nodes it has taken off the
    queue: none of their children is the node looked for, and each child is
    visited or still queued. *)
Definition explored (importParents : ImportGraph) (childToFind : string)
    (visited : gset string) (queue : list string) : Prop :=
  ∀ v child, v ∈ visited → edge importParents v child →
    child ≠ childToFind ∧ (child ∈ visited ∨ child ∈ queue).

(** A graph with a cycle between [a] and [b]. *)
Definition cyclic_graph : ImportGraph :=
  {[ "a" := ["b"; "c"]; "b" := ["a"]; "c" := ["d"] ]}.

End Discover.

(** ** The World contract: runs, steps, hooks and the event log *)

Module World.

(** Modelled from the spec: the failure modes of the storage contract
    (section 4.1) with their HTTP equivalents (sections 4.1 and 6). The
    storage backends are not part of the sources at hand. *)
Inductive WorldError := NotFound | Conflict | TooEarly | Invalid.

Definition http_equivalent (e : WorldError) : option Z :=
  match e with
  | NotFound => Some 404%Z
  | Conflict => Some 409%Z
  | TooEarly => Some 425%Z
  | Invalid => None
  end.

Inductive RunStatus :=
| RunPending | RunRunning | RunSuspended
| RunCompleted | RunFailed | RunCancelled.

Inductive StepStatus :=
| pending | running | succeeded | failed | retry_scheduled | skipped.

Global Instance StepStatus_eq_dec : EqDecision StepStatus.
Proof. solve_decision. Defined.

Inductive ErrorClass := Fatal | Retryable | Transient.

(** Modelled from the spec: the entities of section 3. A step is known by
    its run and its [stepId]; its [attempt] counts the attempts started so
    far, so a step that was created and never started has none. *)
Record WorkflowRun := {
  run_name : string;
  run_status : RunStatus;
  startedAt : option Z;
  completedAt : option Z;
  run_result : option JsValue;
  run_error : option JsValue;
}.

Record Step := {
  attempt : nat;
  maxRetries : nat;
  status : StepStatus;
  retryAfter : option Z;
  arguments : JsValue;
  result : option JsValue;
}.

Record Hook := {
  token : string;
  hook_resolved : bool;
}.

Record Wait := {
  fireAt : Z;
  wait_resolved : bool;
}.

(** Modelled from the spec: the event types of section 3. The spec's list
    is open-ended; creation of a step and the two remaining terminal run
    events are events too, since every entity is a function of the log. *)
Inductive EventData :=
| run_created (name : string)
| run_started
| run_completed (result : JsValue)
| run_failed (error : JsValue)
| run_cancelled
| step_created (maxRetries : nat) (args : JsValue)
| step_started
| step_completed (result : JsValue)
| step_failed (class : ErrorClass) (retryAfter : option Z)
| step_skipped
| hook_created (token : string)
| hook_resolved_ev (data : JsValue)
| wait_created (fireAt : Z)
| wait_resolved_ev.

Record Event := {
  eventId : nat;
  runId : string;
  correlationId : option string;
  eventData : EventData;
  createdAt : Z;
}.

(** Modelled from the spec: the run, step, hook and wait state derived
    from the log (sections 3 and 4.4). Steps, hooks and waits are keyed by
    run and correlation id. An event's [specVersion], a constant of the
    writer, is left out. *)
Record Derived := {
  runs : gmap string WorkflowRun;
  steps : gmap (string * string) Step;
  hooks : gmap (string * string) Hook;
  waits : gmap (string * string) Wait;
}.

Definition no_entities : Derived :=
  {| runs := ∅; steps := ∅; hooks := ∅; waits := ∅ |}.

Definition with_runs (f : gmap string WorkflowRun → gmap string WorkflowRun)
    (d : Derived) : Derived :=
  {| runs := f (runs d); steps := steps d; hooks := hooks d;
     waits := waits d |}.

Definition with_steps
    (f : gmap (string * string) Step → gmap (string * string) Step)
    (d : Derived) : Derived :=
  {| runs := runs d; steps := f (steps d); hooks := hooks d;
     waits := waits d |}.

Definition with_hooks
    (f : gmap (string * string) Hook → gmap (string * string) Hook)
    (d : Derived) : Derived :=
  {| runs := runs d; steps := steps d; hooks := f (hooks d);
     waits := waits d |}.

Definition with_waits
    (f : gmap (string * string) Wait → gmap (string * string) Wait)
    (d : Derived) : Derived :=
  {| runs := runs d; steps := steps d; hooks := hooks d;
     waits := f (waits d) |}.

(** *** Step transitions *)

(** Modelled from the spec: the step state machine of section 4.3,
    [pending → running → succeeded | failed], [retry_scheduled] after a
    failure with attempts remaining, [skipped] on cancellation. *)

Definition step_terminal (s : StepStatus) : bool :=
  match s with
  | succeeded | failed | skipped => true
  | pending | running | retry_scheduled => false
  end.

Definition new_step (maxRetries : nat) (args : JsValue) : Step :=
  {| attempt := 0; maxRetries := maxRetries; status := pending;
     retryAfter := None; arguments := args; result := None |}.

Definition started (st : Step) : Step :=
  {| attempt := S (attempt st); maxRetries := maxRetries st;
     status := running; retryAfter := None; arguments := arguments st;
     result := result st |}.

(** Modelled from the spec: a patch of [steps.update] (section 4.1). The
    attempt is not among the fields it may overwrite: only an accepted
    [step_started] advances it (section 3). *)
Record StepPatch := {
  patch_status : option StepStatus;
  patch_retryAfter : option (option Z);
  patch_result : option JsValue;
}.

Definition apply_patch (p : StepPatch) (st : Step) : Step :=
  {| attempt := attempt st; maxRetries := maxRetries st;
     status := default (status st) (patch_status p);
     retryAfter := default (retryAfter st) (patch_retryAfter p);
     arguments := arguments st;
     result := match patch_result p with
               | Some r => Some r
               | None => result st
               end |}.

Definition completed_patch (res : JsValue) : StepPatch :=
  {| patch_status := Some succeeded; patch_retryAfter := Some None;
     patch_result := Some res |}.

(** Modelled from the spec: a failure is final when the error is fatal
    or no retry is left; otherwise a retry is scheduled, at once for a
    transient error (section 4.3, step 4). With [maxRetries = 2] the first
    and the second failed attempt are retried. *)
Definition retries_exhausted (st : Step) : bool :=
  bool_decide (maxRetries st < attempt st).

Definition failed_patch (st : Step) (class : ErrorClass)
    (after : option Z) : StepPatch :=
  match class with
  | Fatal =>
      {| patch_status := Some failed; patch_retryAfter := Some None;
         patch_result := None |}
  | Retryable =>
      if retries_exhausted st
      then {| patch_status := Some failed; patch_retryAfter := Some None;
              patch_result := None |}
      else {| patch_status := Some retry_scheduled;
              patch_retryAfter := Some after; patch_result := None |}
  | Transient =>
      if retries_exhausted st
      then {| patch_status := Some failed; patch_retryAfter := Some None;
              patch_result := None |}
      else {| patch_status := Some retry_scheduled;
              patch_retryAfter := Some None; patch_result := None |}
  end.

Definition skipped_patch : StepPatch :=
  {| patch_status := Some skipped; patch_retryAfter := Some None;
     patch_result := None |}.

(** *** Run transitions *)

(** Modelled from the spec: the run state machine of section 4.4,
    [pending → running → completed | failed | cancelled]. The [suspended]
    sub-state is a view over outstanding work and is never stored. *)

Definition run_terminal (s : RunStatus) : bool :=
  match s with
  | RunCompleted | RunFailed | RunCancelled => true
  | RunPending | RunRunning | RunSuspended => false
  end.

Definition new_run (name : string) : WorkflowRun :=
  {| run_name := name; run_status := RunPending; startedAt := None;
     completedAt := None; run_result := None; run_error := None |}.

Definition run_start (at_ : Z) (r : WorkflowRun) : WorkflowRun :=
  {| run_name := run_name r; run_status := RunRunning;
     startedAt := Some at_; completedAt := completedAt r;
     run_result := run_result r; run_error := run_error r |}.

Definition run_finish (s : RunStatus) (at_ : Z) (res err : option JsValue)
    (r : WorkflowRun) : WorkflowRun :=
  {| run_name := run_name r; run_status := s; startedAt := startedAt r;
     completedAt := Some at_; run_result := res; run_error := err |}.

(** *** The transition function of each event type *)

(** Modelled from the spec: section 4.4, each event type has a pure
    transition function, and replay folds the ordered events of the log
    with them. *)

Definition on_step (e : Event) (f : Step → Step) (d : Derived) : Derived :=
  match correlationId e with
  | Some sid => with_steps (alter f (runId e, sid)) d
  | None => d
  end.

(** Modelled from the spec: cancellation (section 4.4), "steps still in
    flight transition to skipped rather than being forcibly stopped", and
    a step that has not started yet is skipped too (section 4.3): every
    step of the cancelled run that is not in a terminal state becomes
    [skipped]; the steps of other runs are left alone. *)
Definition skip_in_flight (run : string)
    (known : gmap (string * string) Step) : gmap (string * string) Step :=
  map_imap
    (λ key st,
       Some (if bool_decide (key.1 = run)
                && negb (step_terminal (status st))
             then apply_patch skipped_patch st
             else st))
    known.

Definition apply_event (d : Derived) (e : Event) : Derived :=
  match eventData e with
  | run_created name => with_runs <[runId e := new_run name]> d
  | run_started => with_runs (alter (run_start (createdAt e)) (runId e)) d
  | run_completed res =>
      with_runs
        (alter (run_finish RunCompleted (createdAt e) (Some res) None)
           (runId e)) d
  | run_failed err =>
      with_runs
        (alter (run_finish RunFailed (createdAt e) None (Some err))
           (runId e)) d
  | run_cancelled =>
      with_steps (skip_in_flight (runId e))
        (with_runs
           (alter (run_finish RunCancelled (createdAt e) None None)
              (runId e)) d)
  | step_created maxRetries args =>
      match correlationId e with
      | Some sid =>
          with_steps <[(runId e, sid) := new_step maxRetries args]> d
      | None => d
      end
  | step_started => on_step e started d
  | step_completed res => on_step e (apply_patch (completed_patch res)) d
  | step_failed class after =>
      on_step e (λ st, apply_patch (failed_patch st class after) st) d
  | step_skipped => on_step e (apply_patch skipped_patch) d
  | hook_created tok =>
      match correlationId e with
      | Some hid =>
          with_hooks
            <[(runId e, hid) := {| token := tok; hook_resolved := false |}]> d
      | None => d
      end
  | hook_resolved_ev _ =>
      match correlationId e with
      | Some hid =>
          with_hooks
            (alter (λ h, {| token := token h; hook_resolved := true |})
               (runId e, hid)) d
      | None => d
      end
  | wait_created at_ =>
      match correlationId e with
      | Some wid =>
          with_waits
            <[(runId e, wid) := {| fireAt := at_; wait_resolved := false |}]> d
      | None => d
      end
  | wait_resolved_ev =>
      match correlationId e with
      | Some wid =>
          with_waits
            (alter (λ w, {| fireAt := fireAt w; wait_resolved := true |})
               (runId e, wid)) d
      | None => d
      end
  end.

(** Modelled from the spec: replay, the fold of the ordered events from
    no entities at all (section 4.4). *)
Definition replay (events : list Event) : Derived :=
  fold_left apply_event events no_entities.


(** *** The World: the append-only log and the entities it maintains *)

(** Modelled from the spec: the Event Log of section 4.1, the only shared
    mutable resource (section 5), with the denormalized entities that
    [events.create] returns. *)

Record World := {
  log : list Event;
  entities : Derived;
}.

Definition empty_world : World := {| log := []; entities := no_entities |}.

(** [events.create] returns the event and the entities it affected. *)
Record EventResult := {
  res_event : Event;
  res_run : option WorkflowRun;
  res_step : option Step;
  res_hook : option Hook;
}.

(** Modelled from the spec: [steps.get] of section 4.1. *)
Definition steps_get (w : World) (run stepId : string)
    : Result WorldError Step :=
  match steps (entities w) !! (run, stepId) with
  | Some st => Ok st
  | None => Throw NotFound
  end.

(** Modelled from the spec: the conditional [steps.update] of section 4.1,
    which fails with [Conflict] when the step's current status is not
    [expectedStatus]. *)
Definition steps_update (d : Derived) (run stepId : string)
    (expectedStatus : StepStatus) (patch : StepPatch)
    : Result WorldError (Derived * Step) :=
  match steps d !! (run, stepId) with
  | None => Throw NotFound
  | Some st =>
      if bool_decide (status st = expectedStatus)
      then
        let st' := apply_patch patch st in
        Ok (with_steps <[(run, stepId) := st']> d, st')
      else Throw Conflict
  end.

(** Modelled from the spec: section 3, "a run's terminal status is
    reached at most once; further event appends for a terminal run are
    rejected, not silently applied". The rejection is a [Conflict], the
    error of a duplicate terminal action (section 7). It comes after the
    checks of the event's own entity, so that a start before [retryAfter]
    is told [TooEarly] and a start of a finished step [Conflict] in every
    run, as section 4.3 has it. *)
Definition run_is_terminal (d : Derived) (run : string) : bool :=
  match runs d !! run with
  | Some r => run_terminal (run_status r)
  | None => false
  end.

(** Modelled from the spec: the same sentence of section 3, as the last
    check of an admission: what the event's own entity refuses stays
    refused with its error, and what it would let through is refused
    with [Conflict] when the run is terminal. *)
Definition in_live_run {A : Type} (d : Derived) (run : string)
    (admitted : Result WorldError A) : Result WorldError A :=
  match admitted with
  | Throw err => Throw err
  | Ok a => if run_is_terminal d run then Throw Conflict else Ok a
  end.

(** Modelled from the spec: what the server checks of the step itself
    before a step event is appended (section 4.3), and the entities
    afterwards. A start is refused with [Conflict] on a terminal step and
    with [TooEarly] before [retryAfter]; it passes from every other
    state, a redelivered invocation included. A completion or a failure
    is the conditional update expecting [running]. *)
Definition step_transition (now : Z) (run stepId : string) (data : EventData)
    (d : Derived) : Result WorldError (Derived * Step) :=
  match data with
  | step_created maxRetries args =>
      match steps d !! (run, stepId) with
      | Some _ => Throw Conflict
      | None =>
          let st := new_step maxRetries args in
          Ok (with_steps <[(run, stepId) := st]> d, st)
      end
  | step_started =>
      match steps d !! (run, stepId) with
      | None => Throw NotFound
      | Some st =>
          if step_terminal (status st) then Throw Conflict
          else
            match retryAfter st with
            | Some t =>
                if bool_decide (now < t)%Z then Throw TooEarly
                else Ok (with_steps <[(run, stepId) := started st]> d,
                         started st)
            | None =>
                Ok (with_steps <[(run, stepId) := started st]> d, started st)
            end
      end
  | step_completed res =>
      steps_update d run stepId running (completed_patch res)
  | step_failed class after =>
      match steps d !! (run, stepId) with
      | None => Throw NotFound
      | Some st =>
          steps_update d run stepId running (failed_patch st class after)
      end
  | step_skipped =>
      match steps d !! (run, stepId) with
      | None => Throw NotFound
      | Some st =>
          if step_terminal (status st) then Throw Conflict
          else steps_update d run stepId (status st) skipped_patch
      end
  | _ => Throw Invalid
  end.

(** Modelled from the spec: admission of a step event (sections 3 and
    4.3): the checks of the step, and no append to a run that has reached
    a terminal status. *)
Definition admit_step (now : Z) (run stepId : string) (data : EventData)
    (d : Derived) : Result WorldError (Derived * Step) :=
  in_live_run d run (step_transition now run stepId data d).

(** Modelled from the spec: what the server checks of the run, hook or
    wait itself before its event is appended (sections 3 and 4.4). The
    entity must exist, or be new for a creation, and a run that reached a
    terminal status keeps it. *)
Definition other_transition (e : Event) (d : Derived)
    : Result WorldError Derived :=
  match eventData e with
  | run_created _ =>
      match runs d !! runId e with
      | Some _ => Throw Conflict
      | None => Ok (apply_event d e)
      end
  | run_started =>
      match runs d !! runId e with
      | None => Throw NotFound
      | Some r =>
          match run_status r with
          | RunPending => Ok (apply_event d e)
          | _ => Throw Conflict
          end
      end
  | run_completed _ | run_failed _ | run_cancelled =>
      match runs d !! runId e with
      | None => Throw NotFound
      | Some r =>
          if run_terminal (run_status r) then Throw Conflict
          else Ok (apply_event d e)
      end
  | hook_created _ =>
      match correlationId e with
      | None => Throw Invalid
      | Some hid =>
          match hooks d !! (runId e, hid) with
          | Some _ => Throw Conflict
          | None => Ok (apply_event d e)
          end
      end
  | hook_resolved_ev _ =>
      match correlationId e with
      | None => Throw Invalid
      | Some hid =>
          match hooks d !! (runId e, hid) with
          | None => Throw NotFound
          | Some _ => Ok (apply_event d e)
          end
      end
  | wait_created _ =>
      match correlationId e with
      | None => Throw Invalid
      | Some wid =>
          match waits d !! (runId e, wid) with
          | Some _ => Throw Conflict
          | None => Ok (apply_event d e)
          end
      end
  | wait_resolved_ev =>
      match correlationId e with
      | None => Throw Invalid
      | Some wid =>
          match waits d !! (runId e, wid) with
          | None => Throw NotFound
          | Some _ => Ok (apply_event d e)
          end
      end
  | _ => Throw Invalid
  end.

(** Modelled from the spec: admission of a run, hook or wait event
    (sections 3 and 4.4): the checks of the entity, and no append to a
    run that has reached a terminal status, so that a hook or a wait
    cannot be created or resolved there either. *)
Definition admit_other (e : Event) (d : Derived) : Result WorldError Derived :=
  in_live_run d (runId e) (other_transition e d).

Definition is_step_event (data : EventData) : bool :=
  match data with
  | step_created _ _ | step_started | step_completed _ | step_failed _ _
  | step_skipped => true
  | _ => false
  end.

(** Modelled from the spec: [events.create(runId | null, eventData, params)]
    of section 4.1. [runId = null] is only valid for [run_created], for
    which the server picks the id of the new run. An accepted event is
    appended with the next [eventId] and the server's clock. *)
Definition events_create (now : Z) (run : option string)
    (correlation : option string) (data : EventData) (w : World)
    : Result WorldError (World * EventResult) :=
  let d := entities w in
  let target : Result WorldError string :=
    match run, data with
    | None, run_created _ => Ok (fresh (dom (runs d)))
    | None, _ => Throw Invalid
    | Some r, run_created _ => Throw Invalid
    | Some r, _ =>
        match runs d !! r with
        | Some _ => Ok r
        | None => Throw NotFound
        end
    end in
  match target with
  | Throw err => Throw err
  | Ok r =>
      let e := {| eventId := length (log w); runId := r;
                  correlationId := correlation; eventData := data;
                  createdAt := now |} in
      if is_step_event data then
        match correlation with
        | None => Throw Invalid
        | Some stepId =>
            match admit_step now r stepId data d with
            | Throw err => Throw err
            | Ok (d', st) =>
                Ok ({| log := log w ++ [e]; entities := d' |},
                    {| res_event := e; res_run := runs d' !! r;
                       res_step := Some st; res_hook := None |})
            end
        end
      else
        match admit_other e d with
        | Throw err => Throw err
        | Ok d' =>
            Ok ({| log := log w ++ [e]; entities := d' |},
                {| res_event := e; res_run := runs d' !! r;
                   res_step := None;
                   res_hook := correlation ≫= λ hid, hooks d' !! (r, hid) |})
        end
  end.

(** The states the World can be observed in: what any sequence of
    [events.create] calls, by any callers at any times, leads to. Every
    change of an entity goes through an appended event (section 3). *)
Inductive reachable : World → Prop :=
| reachable_empty : reachable empty_world
| reachable_append w now run correlation data w' res :
    reachable w →
    events_create now run correlation data w = Ok (w', res) →
    reachable w'.

(** The number of [step_started] events appended for a step. *)
Definition is_step_started (run stepId : string) (e : Event) : bool :=
  bool_decide (runId e = run)
  && bool_decide (correlationId e = Some stepId)
  && match eventData e with step_started => true | _ => false end.

Definition started_count (run stepId : string) (events : list Event) : nat :=
  length (filter (λ e, is_step_started run stepId e = true) events).


(** One more [events.create] by some caller: the World after it, which is
    the World before it when the event is refused. *)
Definition then_create (now : Z) (run : option string) (cid : option string)
    (data : EventData) (w : World) : World :=
  match events_create now run cid data w with
  | Ok (w', _) => w'
  | Throw _ => w
  end.

(** What other writers append while a worker is busy. *)
Record Append := {
  app_now : Z;
  app_run : option string;
  app_correlation : option string;
  app_data : EventData;
}.

Definition others_append (ops : list Append) (w : World) : World :=
  fold_left
    (λ w op,
       then_create (app_now op) (app_run op) (app_correlation op)
         (app_data op) w)
    ops w.

(** *** The worker's side of the invocation protocol (section 4.3) *)

(** Modelled from the spec: the step-invocation message and the worker's
    handling of it, steps 1 to 4 of the invocation protocol. The worker
    does not fetch the step; it appends [step_started], waits for the
    answer, and only then hydrates and runs the step with the attempt the
    answer carries. Other writers may append in the meantime. *)
Record Invocation := {
  inv_runId : string;
  inv_stepId : string;
  inv_attempt : nat;
  inv_arguments : JsValue;
}.

Inductive WorkerAction :=
| AppendStepStarted
| Acknowledged (attempt : nat)
| Hydrate (attempt : nat) (args : JsValue)
| AppendOutcome (data : EventData)
| Rejected (err : WorldError).

Section Worker.
(** The registered handler of the step and the backoff function. *)
Variable body : JsValue → Result ErrorClass JsValue.
Variable backoff : nat → Z.

Definition outcome_of (finished : Z) (st : Step) (args : JsValue)
    : EventData :=
  match body args with
  | Ok value => step_completed value
  | Throw Fatal => step_failed Fatal None
  | Throw Retryable =>
      step_failed Retryable (Some (finished + backoff (attempt st))%Z)
  | Throw Transient => step_failed Transient None
  end.

Definition step_handler (now finished : Z) (msg : Invocation)
    (meanwhile : list Append) (w : World) : World * list WorkerAction :=
  let run := inv_runId msg in
  let stepId := inv_stepId msg in
  match events_create now (Some run) (Some stepId) step_started w with
  | Throw err => (w, [AppendStepStarted; Rejected err])
  | Ok (w1, res) =>
      match res_step res with
      | None => (w1, [AppendStepStarted])
      | Some st =>
          let args := inv_arguments msg in
          let outcome := outcome_of finished st args in
          let before :=
            [AppendStepStarted; Acknowledged (attempt st);
             Hydrate (attempt st) args; AppendOutcome outcome] in
          let w1' := others_append meanwhile w1 in
          match events_create finished (Some run) (Some stepId) outcome w1'
          with
          | Ok (w2, _) => (w2, before)
          | Throw err => (w1', before ++ [Rejected err])
          end
      end
  end.

End Worker.

(** *** Notions used to state the properties of the World *)

Definition event_of (now : Z) (r : string) (cid : option string)
    (data : EventData) (w : World) : Event :=
  {| eventId := length (log w); runId := r; correlationId := cid;
     eventData := data; createdAt := now |}.

Definition events_of (r : string) (events : list Event) : list Event :=
  filter (λ e, runId e = r) events.

Definition same_run (r : string) (d d' : Derived) : Prop :=
  runs d !! r = runs d' !! r
  ∧ (∀ k, steps d !! (r, k) = steps d' !! (r, k))
  ∧ (∀ k, hooks d !! (r, k) = hooks d' !! (r, k))
  ∧ (∀ k, waits d !! (r, k) = waits d' !! (r, k)).

(** The attempt of a step is the number of its [step_started] events; a
    step that does not exist has none. *)
Definition attempts_counted (w : World) : Prop :=
  ∀ r sid,
    match steps (entities w) !! (r, sid) with
    | Some st => attempt st = started_count r sid (log w)
    | None => started_count r sid (log w) = 0
    end.

(** Every step belongs to a run that exists, and only a step waiting for
    its retry carries a [retryAfter]. *)
Definition steps_consistent (w : World) : Prop :=
  ∀ r sid st, steps (entities w) !! (r, sid) = Some st →
    is_Some (runs (entities w) !! r)
    ∧ (∀ t, retryAfter st = Some t → status st = retry_scheduled).





Definition demo_run : string := fresh (dom (runs no_entities)).

Definition demo_world : World :=
  then_create 12 (Some demo_run) (Some "s1") (step_failed Retryable (Some 22%Z))
    (then_create 3 (Some demo_run) (Some "s1") step_started
       (then_create 2 (Some demo_run) (Some "s1") (step_created 2 JsNull)
          (then_create 1 (Some demo_run) None run_started
             (then_create 0 None None (run_created "wf") empty_world)))).

(** The same run after the retry went through and the step completed. *)
Definition demo_done : World :=
  then_create 30 (Some demo_run) (Some "s1") (step_completed (JsNum 7))
    (then_create 22 (Some demo_run) (Some "s1") step_started demo_world).

Definition demo_step : Step :=
  {| attempt := 1; maxRetries := 2; status := retry_scheduled;
     retryAfter := Some 22%Z; arguments := JsNull; result := None |}.

(** The retry of [demo_world] under way: attempt 2 is running. *)
Definition demo_running : World :=
  then_create 22 (Some demo_run) (Some "s1") step_started demo_world.

Definition demo_running_step : Step :=
  {| attempt := 2; maxRetries := 2; status := running; retryAfter := None;
     arguments := JsNull; result := None |}.

Definition demo_done_step : Step :=
  {| attempt := 2; maxRetries := 2; status := succeeded; retryAfter := None;
     arguments := JsNull; result := Some (JsNum 7) |}.

(** Two workers on one invocation: while the first runs the step, the
    second, handed the same message again, starts and completes it. *)
Definition demo_created : World :=
  then_create 2 (Some demo_run) (Some "s1") (step_created 2 JsNull)
    (then_create 1 (Some demo_run) None run_started
       (then_create 0 None None (run_created "wf") empty_world)).

Definition demo_invocation : Invocation :=
  {| inv_runId := demo_run; inv_stepId := "s1"; inv_attempt := 1;
     inv_arguments := JsNull |}.

Definition second_worker : list Append :=
  [ {| app_now := 4; app_run := Some demo_run;
       app_correlation := Some "s1"; app_data := step_started |};
    {| app_now := 5; app_run := Some demo_run;
       app_correlation := Some "s1";
       app_data := step_completed (JsNum 1) |} ].



(** The run of [demo_running] cancelled while attempt 2 is running, and
    the step as the cancellation leaves it. *)
Definition demo_cancelled : World :=
  then_create 25 (Some demo_run) None run_cancelled demo_running.

Definition demo_skipped_step : Step :=
  {| attempt := 2; maxRetries := 2; status := skipped; retryAfter := None;
     arguments := JsNull; result := None |}.

(** [demo_world] with a second run created next to the first. *)
Definition demo_two_runs : World :=
  then_create 13 None None (run_created "other") demo_world.

End World.

(** ** Hydration and dehydration *)

Module Codec.

Section Codec.
(** The serializer is the codec's own business; the bytes it produces
    are all the store sees. *)
Context {Bytes : Type}.
Variable serialize : JsValue → Bytes.
Variable deserialize : Bytes → option JsValue.
Variable size : Bytes → nat.
Variable threshold : nat.

(** Modelled from the spec: the storable form of a value (section 4.2),
    inline or a reference into the blob store, and the blob interface of
    section 6, [put(bytes) → ref] and [get(ref) → bytes]. The codec is not
    part of the sources at hand. *)
Inductive Stored :=
| Inline (b : Bytes)
| RemoteRef (ref : string).

Definition put (store : gmap string Bytes) (b : Bytes)
    : gmap string Bytes * string :=
  let ref := fresh (dom store) in (<[ref := b]> store, ref).

Definition get (store : gmap string Bytes) (ref : string) : option Bytes :=
  store !! ref.

(** Modelled from the spec: dehydrate serializes the value and moves it to
    the blob store when it is larger than the threshold; hydrate
    reconstructs the value and changes nothing. *)
Definition dehydrate (store : gmap string Bytes) (v : JsValue)
    : gmap string Bytes * Stored :=
  let b := serialize v in
  if bool_decide (threshold < size b)
  then let '(store', ref) := put store b in (store', RemoteRef ref)
  else (store, Inline b).

Definition hydrate (store : gmap string Bytes) (s : Stored)
    : option JsValue :=
  match s with
  | Inline b => deserialize b
  | RemoteRef ref => get store ref ≫= deserialize
  end.

(** The reference as an event carries it in [eventDataRef]. *)
Definition ref_value (ref : string) : JsValue := JsStr ref.

Definition hydrate_ref (store : gmap string Bytes) (v : JsValue)
    : option JsValue :=
  match v with
  | JsStr ref => hydrate store (RemoteRef ref)
  | _ => None
  end.

End Codec.

End Codec.

(** What it means for a returned event to keep the payload of the stored
    event [wireEvent] as an unresolved reference: no [eventData], every
    other property as stored, and the reference still leads to the value
    that was dehydrated into the blob store. *)
Definition kept_reference (wireEvent returned : EventObj) : Prop :=
  returned !! "eventData" = None
  ∧ (∀ k, k ≠ "eventData" → returned !! k = wireEvent !! k)
  ∧ ∀ (Bytes : Type) (serialize : JsValue → Bytes)
      (deserialize : Bytes → option JsValue) (store : gmap string Bytes)
      (v : JsValue),
      deserialize (serialize v) = Some v →
      wireEvent !! "eventDataRef"
      = Some (Codec.ref_value (Codec.put store (serialize v)).2) →
      returned !! "eventDataRef"
        ≫= Codec.hydrate_ref deserialize (Codec.put store (serialize v)).1
      = Some v.

(** ** String operations of JavaScript used by the build plugins *)

Module JsString.

(** [s.replace(/\\/g, '/')]. *)
Fixpoint slashes (s : string) : string :=
  match s with
  | EmptyString => EmptyString
  | String c rest =>
      String (if bool_decide (c = "\"%char) then "/"%char else c)
        (slashes rest)
  end.

(** [s.startsWith(prefix)]. *)
Definition startsWith (s prefix : string) : bool := String.prefix prefix s.

(** [s.substring(n)], for [n] within the string or at its end. *)
Fixpoint substring_from (n : nat) (s : string) : string :=
  match n, s with
  | 0, _ => s
  | S n, String _ rest => substring_from n rest
  | S _, EmptyString => EmptyString
  end.

(** [s.split(sep).join('/')] for a separator of one character. *)
Fixpoint split_join (sep : ascii) (s : string) : string :=
  match s with
  | EmptyString => EmptyString
  | String c rest =>
      String (if bool_decide (c = sep) then "/"%char else c)
        (split_join sep rest)
  end.

(** [s.endsWith(suffix)]. *)
Definition endsWith (s suffix : string) : bool :=
  bool_decide
    (String.list_ascii_of_string suffix
       `suffix_of` String.list_ascii_of_string s).

(** [s.includes(needle)]. *)
Fixpoint includes (s needle : string) : bool :=
  String.prefix needle s
  || match s with
     | EmptyString => false
     | String _ rest => includes rest needle
     end.

End JsString.

(** A [Set] of strings in insertion order. *)
Module JsSet.

(** [set.add(x)]. *)
Definition add (x : string) (set : list string) : list string :=
  if bool_decide (x ∈ set) then set else set ++ [x].

End JsSet.

(** ** The discover-entries plugin: what [onResolve] and [onLoad] record *)

Module DiscoverPlugin.
Import Discover.

(** The body of the [if (resolved)] of [onResolve]: the set of the
    importer is created when missing, and the resolved file added. *)
Definition record_import (importer resolved : string)
    (importParents : ImportGraph) : ImportGraph :=
  let normalizedImporter := JsString.slashes importer in
  let normalizedResolved := JsString.slashes resolved in
  match importParents !! normalizedImporter with
  | Some children =>
      <[normalizedImporter := JsSet.add normalizedResolved children]>
        importParents
  | None =>
      <[normalizedImporter := JsSet.add normalizedResolved []]> importParents
  end.

(** [build.onResolve]: [resolved] is what [enhancedResolve] answered, an
    exception, or a path, or nothing; an exception is swallowed and an
    empty answer skipped. The handler itself always returns [null]. *)
Definition onResolve {Err : Type} (resolved : Result Err (option string))
    (importer : string) (importParents : ImportGraph) : ImportGraph :=
  match resolved with
  | Ok (Some file) =>
      if bool_decide (file = "") then importParents
      else record_import importer file importParents
  | Ok None | Throw _ => importParents
  end.

(** Every set of children holds each file once. *)
Definition children_are_sets (importParents : ImportGraph) : Prop :=
  ∀ parent children,
    importParents !! parent = Some children → NoDup children.

(** A path without a backslash, and a graph that holds only such paths. *)
Definition forward_slashes (path : string) : Prop :=
  "\"%char ∉ String.list_ascii_of_string path.

Definition normalized (importParents : ImportGraph) : Prop :=
  ∀ parent children,
    importParents !! parent = Some children →
    forward_slashes parent ∧ Forall forward_slashes children.

(** The three lists the plugin fills. *)
Record DiscoverState := {
  discoveredSteps : list string;
  discoveredWorkflows : list string;
  discoveredSerdeFiles : list string;
}.

(** What [detectWorkflowPatterns] reports about a source text. *)
Record Patterns := {
  hasUseWorkflow : bool;
  hasUseStep : bool;
  hasSerde : bool;
}.

Inductive Loader := js | jsx.

Record LoadResult := {
  contents : string;
  loader : Loader;
}.

Section OnLoad.
(** What the handler imports from [transform-utils], [apply-swc-transform]
    and [node:fs]. *)
Context {Err : Type}.
Variable isGeneratedWorkflowFile : string → bool.
Variable isWorkflowSdkFile : string → bool.
Variable detectWorkflowPatterns : string → Patterns.
Variable readFile : string → Result Err string.
Variable applySwcTransform : string → string → bool → Result Err string.

(** The three [push]es of [onLoad]. *)
Definition discover (normalizedPath : string) (patterns : Patterns)
    (isSdkFile : bool) (state : DiscoverState) : DiscoverState :=
  let steps :=
    if hasUseStep patterns then discoveredSteps state ++ [normalizedPath]
    else discoveredSteps state in
  let workflows :=
    if hasUseWorkflow patterns
    then discoveredWorkflows state ++ [normalizedPath]
    else discoveredWorkflows state in
  let serde :=
    if hasSerde patterns && negb isSdkFile
    then
      if bool_decide (normalizedPath ∈ discoveredSerdeFiles state)
      then discoveredSerdeFiles state
      else discoveredSerdeFiles state ++ [normalizedPath]
    else discoveredSerdeFiles state in
  {| discoveredSteps := steps; discoveredWorkflows := workflows;
     discoveredSerdeFiles := serde |}.

(** [build.onLoad]: the state afterwards and the result handed to
    esbuild. Whatever is thrown inside ends in the [catch], with what was
    pushed before it kept. *)
Definition onLoad (path : string) (state : DiscoverState)
    : DiscoverState * LoadResult :=
  let failed := {| contents := ""; loader := js |} in
  if isGeneratedWorkflowFile path then
    match readFile path with
    | Ok source =>
        (state,
         {| contents := source;
            loader := if JsString.endsWith path ".jsx" then jsx else js |})
    | Throw _ => (state, failed)
    end
  else
    let isTypeScript :=
      JsString.endsWith path ".ts" || JsString.endsWith path ".tsx"
      || JsString.endsWith path ".mts" || JsString.endsWith path ".cts" in
    let loader :=
      if negb isTypeScript && JsString.endsWith path ".jsx" then jsx
      else js in
    match readFile path with
    | Throw _ => (state, failed)
    | Ok source =>
        let patterns := detectWorkflowPatterns source in
        let normalizedPath := JsString.slashes path in
        let isSdkFile := isWorkflowSdkFile path in
        let state' := discover normalizedPath patterns isSdkFile state in
        match applySwcTransform path source false with
        | Ok transformedCode =>
            (state', {| contents := transformedCode; loader := loader |})
        | Throw _ => (state', failed)
        end
    end.

End OnLoad.

End DiscoverPlugin.

(** ** Module specifiers: [packages/builders/src/module-specifier.ts] *)

Module ModuleSpecifier.

(** JavaScript truthiness. *)
Definition truthy (v : JsValue) : bool :=
  match v with
  | JsUndefined | JsNull => false
  | JsBool b => b
  | JsNum n => negb (bool_decide (n = 0%Z))
  | JsStr s => negb (bool_decide (s = ""))
  | JsDate _ | JsArr _ | JsObj _ => true
  end.

(** [typeof v === 'object'] for a truthy [v]. *)
Definition is_object (v : JsValue) : bool :=
  match v with
  | JsDate _ | JsArr _ | JsObj _ => true
  | _ => false
  end.

(** The first binding of a key. *)
Fixpoint assoc {A : Type} (k : string) (l : list (string * A)) : option A :=
  match l with
  | [] => None
  | (k', a) :: rest => if bool_decide (k' = k) then Some a else assoc k rest
  end.

(** [v[k]] on a value that is neither [null] nor [undefined]; the keys
    read here are never those of an array or of a string. *)
Definition prop (v : JsValue) (k : string) : JsValue :=
  match v with
  | JsObj fields => default JsUndefined (assoc k fields)
  | _ => JsUndefined
  end.

(** [Object.entries(v)], the fields of an object literal in their
    enumeration order; an array enumerates its indices. *)
Definition object_entries (v : JsValue) : list (string * JsValue) :=
  match v with
  | JsObj fields => fields
  | JsArr items => imap (λ i item, (pretty i, item)) items
  | _ => []
  end.

Definition object_keys (v : JsValue) : list string := (object_entries v).*1.

(** [PackageInfo]. [name] and [version] are whatever truthy values the
    package.json holds; [exports] is [undefined] when it has none. *)
Record PackageInfo := {
  name : JsValue;
  version : JsValue;
  dir : string;
  exports : JsValue;
}.

(** [normalizeExportPath]. *)
Definition normalizeExportPath (path : string) : string :=
  if negb (JsString.startsWith path "./") then "./" +:+ path else path.

Definition conditions : list string :=
  ["workflow"; "default"; "require"; "import"; "node"].

(** The [for (const condition of conditions)] loop of
    [resolveExportTarget], over the fields of the target, each with what
    the function resolves it to. *)
Fixpoint first_condition (conds : list string)
    (fields : list (string * (JsValue * option string))) : option string :=
  match conds with
  | [] => None
  | condition :: rest =>
      match assoc condition fields with
      | Some (JsStr value, _) => Some value
      | Some ((JsDate _ | JsArr _ | JsObj _), Some nested) =>
          if bool_decide (nested = "") then first_condition rest fields
          else Some nested
      | _ => first_condition rest fields
      end
  end.

(** [resolveExportTarget]: a string is its own target, an array yields
    its first item with a non-empty target, a conditional export the first
    of the known conditions that has one. *)
Fixpoint resolveExportTarget (target : JsValue) : option string :=
  match target with
  | JsStr s => Some s
  | JsArr items =>
      (fix first (items : list JsValue) : option string :=
         match items with
         | [] => None
         | item :: rest =>
             match resolveExportTarget item with
             | Some resolved =>
                 if bool_decide (resolved = "") then first rest
                 else Some resolved
             | None => first rest
             end
         end) items
  | JsObj fields =>
      first_condition conditions
        ((fix each (fields : list (string * JsValue)) :=
            match fields with
            | [] => []
            | (k, v) :: rest => (k, (v, resolveExportTarget v)) :: each rest
            end) fields)
  | _ => None
  end.

(** A string the target holds where [resolveExportTarget] looks: the
    target itself, an item of an array, or the value of a known
    condition. *)
Inductive picks (s : string) : JsValue → Prop :=
| picks_string : picks s (JsStr s)
| picks_item items item :
    item ∈ items → picks s item → picks s (JsArr items)
| picks_condition fields condition value :
    condition ∈ conditions → assoc condition fields = Some value →
    picks s value → picks s (JsObj fields).

(** The [for (const [subpath, target] of Object.entries(pkg.exports))]
    loop of [resolveExportSubpath]. *)
Fixpoint match_export (relativePath : string)
    (entries : list (string * JsValue)) : string :=
  match entries with
  | [] => ""
  | (subpath, target) :: rest =>
      match resolveExportTarget target with
      | Some resolvedTarget =>
          if negb (bool_decide (resolvedTarget = ""))
             && bool_decide (normalizeExportPath resolvedTarget = relativePath)
          then
            if bool_decide (subpath = ".") then ""
            else JsString.substring_from 1 subpath
          else match_export relativePath rest
      | None => match_export relativePath rest
      end
  end.

(** [resolveExportSubpath]. *)
Definition resolveExportSubpath (filePath : string) (pkg : PackageInfo)
    : string :=
  if negb (truthy (exports pkg)) || negb (is_object (exports pkg)) then ""
  else
    let normalizedFilePath := JsString.slashes filePath in
    let normalizedPkgDir := JsString.slashes (dir pkg) in
    if JsString.startsWith normalizedFilePath (normalizedPkgDir +:+ "/")
    then
      let relativePath :=
        "./" +:+ JsString.substring_from (String.length normalizedPkgDir + 1)
                   normalizedFilePath in
      match_export relativePath (object_entries (exports pkg))
    else "".

Section FileSystem.
(** [node:path], [node:fs] and [JSON.parse]. [depth] bounds how many
    times [dirname] can be taken before the root is reached. *)
Context {Err : Type}.
Variable dirname : string → string.
Variable join : string → string → string.
Variable resolve : string → string.
Variable relative : string → string → string.
Variable sep : ascii.
Variable depth : string → nat.
Variable existsSync : string → bool.
Variable readFileSync : string → Result Err string.
Variable JSON_parse : string → Result Err JsValue.
(** [String(v)] for a value that is not a string. *)
Variable js_to_string : JsValue → string.

(** The two module-level caches. A directory is in [packageJsonCache]
    with [None] when the search from it found no package. *)
Record Caches := {
  packageJsonCache : gmap string (option PackageInfo);
  projectDepsCache : gmap string (list string);
}.

(** The body of the [if (existsSync(packageJsonPath))] of
    [findPackageJson]: the package the directory holds, if its
    package.json can be read and names a package and a version. *)
Definition read_package (dir : string) : option PackageInfo :=
  let packageJsonPath := join dir "package.json" in
  if existsSync packageJsonPath then
    match readFileSync packageJsonPath with
    | Throw _ => None
    | Ok content =>
        match JSON_parse content with
        | Throw _ => None
        | Ok (JsNull | JsUndefined) => None
        | Ok parsed =>
            if truthy (prop parsed "name") && truthy (prop parsed "version")
            then Some {| name := prop parsed "name";
                         version := prop parsed "version";
                         dir := dir;
                         exports := prop parsed "exports" |}
            else None
        end
    end
  else None.

(** [for (const visitedDir of visitedDirs) packageJsonCache.set(...)]. *)
Definition backfill (visitedDirs : list string) (result : option PackageInfo)
    (cache : gmap string (option PackageInfo))
    : gmap string (option PackageInfo) :=
  fold_left (λ cache visitedDir, <[visitedDir := result]> cache)
    visitedDirs cache.

(** The [while (dir !== dirname(dir))] loop of [findPackageJson]; [None]
    when [fuel] iterations were not enough. *)
Fixpoint findPackageJson_loop (fuel : nat) (dir : string)
    (visitedDirs : list string) (cache : gmap string (option PackageInfo))
    : option (option PackageInfo * gmap string (option PackageInfo)) :=
  match fuel with
  | 0 => None
  | S fuel =>
      if bool_decide (dir = dirname dir)
      then Some (None, backfill visitedDirs None cache)
      else
        match cache !! dir with
        | Some cached => Some (cached, backfill visitedDirs cached cache)
        | None =>
            let visitedDirs := visitedDirs ++ [dir] in
            match read_package dir with
            | Some result =>
                Some (Some result,
                      backfill visitedDirs (Some result)
                        (<[dir := Some result]> cache))
            | None => findPackageJson_loop fuel (dirname dir) visitedDirs cache
            end
        end
  end.

Definition findPackageJson (filePath : string)
    (cache : gmap string (option PackageInfo))
    : option (option PackageInfo * gmap string (option PackageInfo)) :=
  findPackageJson_loop (S (depth (dirname filePath))) (dirname filePath) []
    cache.

(** The package the walk up from [dir] is looking for: that of the first
    directory, from [dir] up to but not including the root, whose
    package.json names a package and a version. *)
Inductive nearest : string → option PackageInfo → Prop :=
| nearest_root dir : dir = dirname dir → nearest dir None
| nearest_here dir pkg :
    dir ≠ dirname dir → read_package dir = Some pkg → nearest dir (Some pkg)
| nearest_up dir result :
    dir ≠ dirname dir → read_package dir = None →
    nearest (dirname dir) result → nearest dir result.

(** A cache that holds, for each directory in it, what the walk up from
    that directory finds. *)
Definition coherent (cache : gmap string (option PackageInfo)) : Prop :=
  ∀ dir result, cache !! dir = Some result → nearest dir result.

(** [isInNodeModules]. *)
Definition isInNodeModules (filePath : string) : bool :=
  JsString.includes (JsString.split_join sep filePath) "/node_modules/".

Definition dependency_types : list string :=
  ["dependencies"; "devDependencies"; "peerDependencies";
   "optionalDependencies"].

(** The names [getProjectDependencies] collects from a parsed
    package.json. *)
Definition collect_dependencies (parsed : JsValue) : list string :=
  fold_left
    (λ deps depType,
       let depObj := prop parsed depType in
       if truthy depObj && is_object depObj
       then fold_left (λ deps name, JsSet.add name deps)
              (object_keys depObj) deps
       else deps)
    dependency_types [].

(** [getProjectDependencies]: the cached set if there is one, else the
    set read from the project's package.json, empty when that cannot be
    read, which is cached. *)
Definition getProjectDependencies (projectRoot : string)
    (cache : gmap string (list string))
    : list string * gmap string (list string) :=
  match cache !! projectRoot with
  | Some cached => (cached, cache)
  | None =>
      let pkgPath := join projectRoot "package.json" in
      let deps :=
        if existsSync pkgPath then
          match readFileSync pkgPath with
          | Throw _ => []
          | Ok content =>
              match JSON_parse content with
              | Throw _ | Ok (JsNull | JsUndefined) => []
              | Ok parsed => collect_dependencies parsed
              end
          end
        else [] in
      (deps, <[projectRoot := deps]> cache)
  end.

(** [projectDeps.has(pkg.name)]. *)
Definition has_name (deps : list string) (name : JsValue) : bool :=
  match name with
  | JsStr s => bool_decide (s ∈ deps)
  | _ => false
  end.

(** A computation over the two caches; [None] when the walk up the
    directories ran out of fuel. *)
Definition Cached (A : Type) : Type := Caches → option (A * Caches).

Definition find_package (filePath : string) : Cached (option PackageInfo) :=
  λ caches,
    match findPackageJson filePath (packageJsonCache caches) with
    | None => None
    | Some (pkg, cache) =>
        Some (pkg, {| packageJsonCache := cache;
                      projectDepsCache := projectDepsCache caches |})
    end.

Definition project_dependencies (projectRoot : string) : Cached (list string) :=
  λ caches,
    let '(deps, cache) :=
      getProjectDependencies projectRoot (projectDepsCache caches) in
    Some (deps, {| packageJsonCache := packageJsonCache caches;
                   projectDepsCache := cache |}).

(** [isWorkspacePackage]. *)
Definition isWorkspacePackage (filePath projectRoot : string) : Cached bool :=
  λ caches,
    if isInNodeModules filePath then Some (false, caches)
    else
      match find_package filePath caches with
      | None => None
      | Some (None, caches) => Some (false, caches)
      | Some (Some pkg, caches) =>
          let rootPkgDir := resolve projectRoot in
          let pkgDir := resolve (dir pkg) in
          if bool_decide (pkgDir = rootPkgDir) then Some (false, caches)
          else
            match project_dependencies projectRoot caches with
            | None => None
            | Some (projectDeps, caches) =>
                Some (has_name projectDeps (name pkg), caches)
            end
      end.

(** A value inside a template literal. *)
Definition template (v : JsValue) : string :=
  match v with
  | JsStr s => s
  | _ => js_to_string v
  end.

(** [resolveModuleSpecifier]: the [moduleSpecifier] of its result. *)
Definition resolveModuleSpecifier (filePath projectRoot : string)
    : Cached (option string) :=
  λ caches,
    let inNodeModules := isInNodeModules filePath in
    match
      (if negb inNodeModules then isWorkspacePackage filePath projectRoot caches
       else Some (false, caches))
    with
    | None => None
    | Some (inWorkspace, caches) =>
        if negb inNodeModules && negb inWorkspace then Some (None, caches)
        else
          match find_package filePath caches with
          | None => None
          | Some (None, caches) => Some (None, caches)
          | Some (Some pkg, caches) =>
              let subpath := resolveExportSubpath filePath pkg in
              let specifier :=
                if negb (bool_decide (subpath = ""))
                then template (name pkg) +:+ subpath +:+ "@"
                       +:+ template (version pkg)
                else template (name pkg) +:+ "@" +:+ template (version pkg) in
              Some (Some specifier, caches)
          end
    end.

(** [clearModuleSpecifierCache]. *)
Definition clearModuleSpecifierCache (caches : Caches) : Caches :=
  {| packageJsonCache := ∅; projectDepsCache := ∅ |}.

Record ImportPathResult := {
  importPath : JsValue;
  isPackage : bool;
}.

(** The [// Local app file] part of [getImportPath]: the path of the file
    from the project root. *)
Definition local_path (filePath projectRoot : string) : string :=
  let normalizedProjectRoot := JsString.slashes projectRoot in
  let normalizedFilePath := JsString.slashes filePath in
  let relativePath :=
    if JsString.startsWith normalizedFilePath (normalizedProjectRoot +:+ "/")
    then JsString.substring_from (String.length normalizedProjectRoot + 1)
           normalizedFilePath
    else JsString.slashes (relative projectRoot filePath) in
  if negb (JsString.startsWith relativePath ".")
  then "./" +:+ relativePath else relativePath.

(** [getImportPath]. *)
Definition getImportPath (filePath projectRoot : string)
    : Cached ImportPathResult :=
  λ caches,
    let inNodeModules := isInNodeModules filePath in
    match
      (if negb inNodeModules then isWorkspacePackage filePath projectRoot caches
       else Some (false, caches))
    with
    | None => None
    | Some (inWorkspace, caches) =>
        let local caches :=
          Some ({| importPath := JsStr (local_path filePath projectRoot);
                   isPackage := false |},
                caches) in
        if inNodeModules || inWorkspace then
          match find_package filePath caches with
          | None => None
          | Some (Some pkg, caches) =>
              Some ({| importPath := name pkg; isPackage := true |}, caches)
          | Some (None, caches) => local caches
          end
        else local caches
    end.

End FileSystem.

(** A project on disk: an application that depends on the package
    [flow], installed under node_modules, and on the workspace package
    [shared]; the application has a neighbour [docs] that it does not
    depend on. *)
Definition project_tree : list (string * string) :=
  [("/app/node_modules/flow/dist/runtime.js", "/app/node_modules/flow/dist");
   ("/app/node_modules/flow/dist", "/app/node_modules/flow");
   ("/app/node_modules/flow", "/app/node_modules");
   ("/app/node_modules", "/app");
   ("/app/packages/shared/index.ts", "/app/packages/shared");
   ("/app/packages/shared", "/app/packages");
   ("/app/packages/docs/page.ts", "/app/packages/docs");
   ("/app/packages/docs", "/app/packages");
   ("/app/packages", "/app");
   ("/app/src/order.ts", "/app/src");
   ("/app/src", "/app")].

Definition project_dirname (path : string) : string :=
  default "/" (assoc path project_tree).

(** The steps from a path up to the root, counted for at most as many
    steps as the tree is deep. *)
Fixpoint steps_up (fuel : nat) (path : string) : nat :=
  match fuel with
  | 0 => 0
  | S fuel =>
      if bool_decide (path = project_dirname path) then 0
      else S (steps_up fuel (project_dirname path))
  end.

Definition project_depth (path : string) : nat := steps_up 6 path.

Definition project_join (dir file : string) : string := dir +:+ "/" +:+ file.

Definition project_files : list (string * JsValue) :=
  [("/app/package.json",
    JsObj [("name", JsStr "app"); ("version", JsStr "1.0.0");
           ("dependencies", JsObj [("flow", JsStr "^4.0.0")]);
           ("devDependencies", JsObj [("shared", JsStr "workspace:*")])]);
   ("/app/node_modules/flow/package.json",
    JsObj [("name", JsStr "flow"); ("version", JsStr "4.0.0");
           ("exports",
            JsObj [(".", JsStr "./dist/index.js");
                   ("./runtime",
                    JsObj [("workflow", JsStr "./dist/runtime.js");
                           ("default", JsStr "./dist/runtime.cjs")])])]);
   ("/app/packages/shared/package.json",
    JsObj [("name", JsStr "shared"); ("version", JsStr "0.0.0")]);
   ("/app/packages/docs/package.json",
    JsObj [("name", JsStr "docs"); ("version", JsStr "0.0.0")])].

Definition project_exists (path : string) : bool :=
  bool_decide (is_Some (assoc path project_files)).

(** The text of a file stands for itself by its path. *)
Definition project_read (path : string) : Result unit string :=
  if project_exists path then Ok path else Throw tt.

Definition project_parse (content : string) : Result unit JsValue :=
  match assoc content project_files with
  | Some parsed => Ok parsed
  | None => Throw tt
  end.

(** A disk from which every file is gone. *)
Definition wiped_exists (path : string) : bool := false.
Definition wiped_read (path : string) : Result unit string := Throw tt.
Definition wiped_parse (content : string) : Result unit JsValue := Throw tt.

Definition posix_resolve (path : string) : string := path.
Definition posix_relative (from to : string) : string := to.
Definition to_string (v : JsValue) : string :=
  match v with
  | JsStr s => s
  | _ => "[object]"
  end.

Definition no_caches : Caches :=
  {| packageJsonCache := ∅; projectDepsCache := ∅ |}.

Definition flow_pkg : PackageInfo :=
  {| name := JsStr "flow"; version := JsStr "4.0.0";
     dir := "/app/node_modules/flow";
     exports :=
       JsObj [(".", JsStr "./dist/index.js");
              ("./runtime",
               JsObj [("workflow", JsStr "./dist/runtime.js");
                      ("default", JsStr "./dist/runtime.cjs")])] |}.

Definition shared_pkg : PackageInfo :=
  {| name := JsStr "shared"; version := JsStr "0.0.0";
     dir := "/app/packages/shared"; exports := JsUndefined |}.

(** The caches after the specifier of [flow]'s runtime was resolved. *)
Definition flow_caches : Caches :=
  {| packageJsonCache :=
       {[ "/app/node_modules/flow/dist" := Some flow_pkg;
          "/app/node_modules/flow" := Some flow_pkg ]};
     projectDepsCache := ∅ |}.

(** The caches after [shared]'s index was recognised as a workspace
    package. *)
Definition shared_caches : Caches :=
  {| packageJsonCache := {[ "/app/packages/shared" := Some shared_pkg ]};
     projectDepsCache := {[ "/app" := ["flow"; "shared"] ]} |}.

End ModuleSpecifier.

(** ** Calls of the event client used as examples *)

Module EventsExamples.
Import Events.

(** A listing of a run, newest first, that asks for no payloads; its limit
    of zero and its empty cursor are not sent. *)
Definition zero_limit_listing : ListParams :=
  {| lp_runId := Some (Some "wrun_1"); lp_correlationId := Some "step_1";
     lp_pagination :=
       Some {| limit := Some 0%Z; cursor := Some ""; sortOrder := Some Desc |};
     lp_resolveData := Some RdNone |}.

(** A v1 server that answers every request with [stored_event]. *)
Definition answer_event : Call → Result string EventObj :=
  λ _, Ok stored_event.

(** A cancellation that names no run, sent in v1 compatibility mode by a
    caller that wants no payloads. *)
Definition run_cancelled_request : AnyEventRequest :=
  {| eventType := "run_cancelled"; correlationId := None;
     eventData := None |}.

Definition v1_none_params : option CreateEventParams :=
  Some {| cp_resolveData := Some RdNone; cp_v1Compat := Some true |}.

End EventsExamples.

(** * Properties *)

(** ** The event client *)

Section EventsFacts.
Import Events.
Context {Err Run StepWire Step Hook : Type}.
Variable DEFAULT_RESOLVE_DATA_OPTION : ResolveData.
Variable err_of_message : string → Err.
Variable deserializeStep : StepWire → Step.
Variable serverPage : Call → Result Err PaginatedResponse.
Variable serverEvent : Call → Result Err EventObj.
Variable serverResult : Call → Result Err (@EventResultWire Run StepWire Hook).
Variable cancelWorkflowRunV1 : Call → Result Err Run.
Variable createWorkflowRunV1 : Call → Result Err Run.

Let create :=
  createWorkflowRunEvent DEFAULT_RESOLVE_DATA_OPTION deserializeStep
    serverEvent serverResult cancelWorkflowRunV1 createWorkflowRunV1.

Let list_events :=
  getWorkflowRunEvents DEFAULT_RESOLVE_DATA_OPTION err_of_message serverPage.

Lemma filterEventData_none_eventData event :
  filterEventData event RdNone !! "eventData" = None.
Proof. apply lookup_delete_eq. Qed.

Lemma filterEventData_none_other event k :
  k ≠ "eventData" → filterEventData event RdNone !! k = event !! k.
Proof. intros Hk. by apply lookup_delete_ne. Qed.

Lemma remoteRefBehavior_allow_list ty :
  remoteRefBehavior_of_type ty
  = if bool_decide (ty = "run_created" ∨ ty = "run_started"
                    ∨ ty = "step_started")
    then Resolve else Lazy.
Proof.
  unfold remoteRefBehavior_of_type, eventsNeedingResolve.
  repeat case_bool_decide; try done; exfalso;
    rewrite !elem_of_union, !elem_of_singleton in *; tauto.
Qed.


(** C6 (as amended). Outside v1 compatibility mode, creating an event
    issues exactly one request, and that request asks for ['resolve'] when
    the event type is [run_created], [run_started] or [step_started] and
    for ['lazy'] otherwise, whatever [resolveData] the caller prefers. *)
Theorem create_requests_by_allow_list id data params log :
  default false (params ≫= cp_v1Compat) = false →
  ∃ req,
    (create id data params log).1 = log ++ [CallRequest req]
    ∧ requested_behavior (CallRequest req)
      = Some (if bool_decide (eventType data ∈ eventsNeedingResolve)
              then Resolve else Lazy)
    ∧ ∀ params',
        default false (params' ≫= cp_v1Compat) = false →
        (create id data params' log).1 = (create id data params log).1.
Proof.
  intros Hv2. unfold create, createWorkflowRunEvent. rewrite Hv2.
  unfold bind, call, ret. eexists. split_and!.
  - by destruct (serverResult _).
  - done.
  - intros params' ->. by repeat destruct (serverResult _).
Qed.

(** C9. Without a non-empty [runId] and without a non-empty
    [correlationId], [getWorkflowRunEvents] throws its error and no request
    has been issued. *)
Theorem getWorkflowRunEvents_requires_id params log :
  truthy_str (mjoin (lp_runId params)) = false →
  truthy_str (lp_correlationId params) = false →
  list_events params log
  = (log,
     Throw (err_of_message "Either runId or correlationId must be provided")).
Proof.
  intros Hrun Hcorr. unfold list_events, getWorkflowRunEvents.
  destruct (lp_runId params) as [runId|]; cbn in Hrun.
  - by rewrite Hrun.
  - by rewrite Hcorr.
Qed.

(** What a creation outside v1 compatibility mode and a listing return:
    the stored events, each passed through [filterEventData]. *)
Lemma create_returns_filtered id data params log log' result :
  default false (params ≫= cp_v1Compat) = false →
  create id data params log = (log', Ok result) →
  ∃ wire req,
    log' = log ++ [CallRequest req]
    ∧ serverResult (CallRequest req) = Ok wire
    ∧ requested_behavior (CallRequest req)
      = Some (remoteRefBehavior_of_type (eventType data))
    ∧ res_event result
      = Some (filterEventData (wire_event wire)
                (default DEFAULT_RESOLVE_DATA_OPTION
                   (params ≫= cp_resolveData))).
Proof.
  intros Hv2. unfold create, createWorkflowRunEvent. rewrite Hv2.
  unfold bind, call, ret.
  destruct (serverResult _) as [wire|] eqn:Hserver; [|done].
  intros [= <- <-]. by eexists _, _.
Qed.

Lemma list_returns_filtered params log log' result :
  list_events params log = (log', Ok result) →
  ∃ page req,
    log' = log ++ [CallRequest req]
    ∧ serverPage (CallRequest req) = Ok page
    ∧ data result
      = (λ event,
           filterEventData event
             (default DEFAULT_RESOLVE_DATA_OPTION (lp_resolveData params)))
        <$> data page.
Proof.
  unfold list_events, getWorkflowRunEvents.
  destruct (lp_runId params) as [runId|];
    (destruct (negb _ && negb _); [done|]);
    unfold bind, call, ret;
    (destruct (serverPage _) as [page|] eqn:Hserver; [|done]);
    intros [= <- <-]; by eexists _, _.
Qed.


Lemma sp_set_elem k v sp : (k, v) ∈ sp_set k v sp.
Proof.
  induction sp as [|kv rest IH]; cbn.
  - apply list_elem_of_here.
  - case_bool_decide.
    + apply list_elem_of_here.
    + by apply list_elem_of_further.
Qed.

Lemma hydrate_put {Bytes : Type} (serialize : JsValue → Bytes)
    (deserialize : Bytes → option JsValue) (store : gmap string Bytes) v :
  deserialize (serialize v) = Some v →
  Codec.hydrate deserialize (Codec.put store (serialize v)).1
    (Codec.RemoteRef (Codec.put store (serialize v)).2)
  = Some v.
Proof.
  intros Hround. unfold Codec.hydrate, Codec.get, Codec.put. cbn.
  by rewrite lookup_insert_eq.
Qed.

Lemma hydrate_dehydrate {Bytes : Type} (serialize : JsValue → Bytes)
    (deserialize : Bytes → option JsValue) (size : Bytes → nat)
    (threshold : nat) (store : gmap string Bytes) v :
  deserialize (serialize v) = Some v →
  Codec.hydrate deserialize
    (Codec.dehydrate serialize size threshold store v).1
    (Codec.dehydrate serialize size threshold store v).2
  = Some v.
Proof.
  intros Hround. unfold Codec.dehydrate, Codec.put.
  case_bool_decide; cbn; [|done].
  unfold Codec.get. by rewrite lookup_insert_eq.
Qed.

Lemma put_keeps_older {Bytes : Type} (store : gmap string Bytes) b ref b' :
  Codec.get store ref = Some b' →
  Codec.get (Codec.put store b).1 ref = Some b'.
Proof.
  unfold Codec.get, Codec.put. cbn. intros Hold.
  rewrite lookup_insert_ne; [done|]. intros <-.
  pose proof (is_fresh (dom store)) as Hfresh.
  apply Hfresh, elem_of_dom. by eexists.
Qed.

Lemma filterEventData_kept_reference wireEvent :
  kept_reference wireEvent (filterEventData wireEvent RdNone).
Proof.
  split_and!.
  - apply filterEventData_none_eventData.
  - apply filterEventData_none_other.
  - intros Bytes serialize deserialize store v Hround Href.
    rewrite filterEventData_none_other, Href by done. cbn.
    by apply hydrate_put.
Qed.

(** C7. Under [resolveData = 'none'], a lazy-mode creation and a listing
    return each stored event without [eventData] and otherwise unchanged;
    the reference the event carries still hydrates to the original
    value. *)
Theorem lazy_event_keeps_reference :
  (∀ id data params log log' result,
     default false (params ≫= cp_v1Compat) = false →
     eventType data ∉ eventsNeedingResolve →
     default DEFAULT_RESOLVE_DATA_OPTION (params ≫= cp_resolveData)
     = RdNone →
     create id data params log = (log', Ok result) →
     ∃ wire req returned,
       log' = log ++ [CallRequest req]
       ∧ serverResult (CallRequest req) = Ok wire
       ∧ requested_behavior (CallRequest req) = Some Lazy
       ∧ res_event result = Some returned
       ∧ kept_reference (wire_event wire) returned)
  ∧ (∀ params log log' result,
       default DEFAULT_RESOLVE_DATA_OPTION (lp_resolveData params)
       = RdNone →
       list_events params log = (log', Ok result) →
       ∃ page req,
         log' = log ++ [CallRequest req]
         ∧ serverPage (CallRequest req) = Ok page
         ∧ ("remoteRefBehavior", QRef Lazy) ∈ req_query req
         ∧ Forall2 kept_reference (data page) (data result)).
Proof.
  split.
  - intros id data params log log' result Hv2 Hlazy Hnone Hrun.
    destruct (create_returns_filtered _ _ _ _ _ _ Hv2 Hrun)
      as (wire & req & Hlog & Hserver & Hreq & Hres).
    rewrite Hnone in Hres.
    exists wire, req, (filterEventData (wire_event wire) RdNone).
    split_and!; try done.
    + rewrite Hreq. unfold remoteRefBehavior_of_type.
      by rewrite bool_decide_eq_false_2.
    + apply filterEventData_kept_reference.
  - intros params log log' result Hnone.
    unfold list_events, getWorkflowRunEvents. rewrite Hnone.
    destruct (lp_runId params) as [runId|];
      (destruct (negb _ && negb _); [done|]);
      unfold bind, call, ret;
      (destruct (serverPage _) as [page|] eqn:Hserver; [|done]);
      intros [= <- <-]; eexists _, _;
      (split_and!; [done | exact Hserver | apply sp_set_elem |]);
      cbn; apply Forall2_fmap_r, Forall_Forall2_diag, Forall_forall;
      intros; apply filterEventData_kept_reference.
Qed.

End EventsFacts.

Lemma create_requests_by_allow_list_witness :
  ∃ req,
    (Events.createWorkflowRunEvent (Step := unit) Events.RdAll id
       Events.offline Events.answer_stored Events.offline Events.offline
       (Some "wrun_1") Events.step_started_request None []).1
    = [] ++ [Events.CallRequest req]
    ∧ Events.requested_behavior (Events.CallRequest req)
      = Some Events.Resolve.
Proof.
  destruct (create_requests_by_allow_list (Step := unit) Events.RdAll id
              Events.offline Events.answer_stored Events.offline
              Events.offline (Some "wrun_1") Events.step_started_request
              None [] eq_refl) as (req & Hlog & Hreq & _).
  exists req. split; [exact Hlog | exact Hreq].
Defined.

(** In v1 compatibility mode a [step_started] event, although on the
    allow-list, is sent without any [remoteRefBehavior]. *)
Lemma v1Compat_requests_no_resolution :
  Events.eventType Events.step_started_request ∈ Events.eventsNeedingResolve
  ∧ ¬ ∃ c, c ∈ Events.v1Compat_calls
           ∧ Events.requested_behavior c = Some Events.Resolve.
Proof.
  split; [compute_done|].
  intros (c & Hc & Hresolve). vm_compute in Hc.
  apply list_elem_of_singleton in Hc as ->. discriminate.
Qed.

Lemma getWorkflowRunEvents_requires_id_witness :
  Events.getWorkflowRunEvents Events.RdAll id Events.offline
    Events.anonymous_listing []
  = ([], Throw "Either runId or correlationId must be provided").
Proof.
  exact (getWorkflowRunEvents_requires_id Events.RdAll id Events.offline
           Events.anonymous_listing [] eq_refl eq_refl).
Defined.

Lemma lazy_event_keeps_reference_witness :
  (∃ wire req returned,
     Events.lazy_created.1 = [] ++ [Events.CallRequest req]
     ∧ Events.answer_stored (Events.CallRequest req) = Ok wire
     ∧ Events.requested_behavior (Events.CallRequest req) = Some Events.Lazy
     ∧ Events.res_event Events.lazy_result = Some returned
     ∧ kept_reference (Events.wire_event wire) returned)
  ∧ (∃ page req,
       Events.lazy_listed.1 = [] ++ [Events.CallRequest req]
       ∧ Events.answer_page (Events.CallRequest req) = Ok page
       ∧ ("remoteRefBehavior", Events.QRef Events.Lazy)
         ∈ Events.req_query req
       ∧ Forall2 kept_reference (Events.data page)
           (Events.data Events.lazy_page)).
Proof.
  pose proof (lazy_event_keeps_reference (Step := unit) Events.RdAll id id
                Events.answer_page Events.offline Events.answer_stored
                Events.offline Events.offline) as [Hcreate Hlist].
  split.
  - apply (Hcreate (Some "wrun_1") Events.step_completed_request
             Events.none_params).
    + reflexivity.
    + compute_done.
    + reflexivity.
    + reflexivity.
  - apply (Hlist Events.none_listing).
    + reflexivity.
    + reflexivity.
Defined.

(** ** Tracing *)

Section TelemetryFacts.
Import Telemetry.
Context {Err This : Type}.
Variable err_of_message : string → Err.
Variable message_of_err : Err → string.
Variable as_this : gmap string (@Property Err This) → This.

(** The module with [@opentelemetry/api] missing. *)
Let trace_off {T} := @trace Err err_of_message message_of_err None T.
Let instrument_off :=
  @instrumentObject Err This err_of_message message_of_err None.

Lemma instrumentObject_lookup otel prefix (o : gmap string (@Property Err This)) key :
  instrumentObject err_of_message message_of_err otel prefix o !! key
  = (λ p, match p with
          | PValue v => PValue v
          | PMethod f =>
              PMethod (instrumented err_of_message message_of_err otel
                         prefix key f)
          end) <$> o !! key.
Proof.
  unfold instrumentObject. rewrite map_lookup_imap.
  by destruct (o !! key).
Qed.

Lemma instrumented_off prefix key (f : @Method Err This) this args :
  instrumented err_of_message message_of_err None prefix key f this args
  = f None args.
Proof. reflexivity. Qed.

(** C8 (as amended). With the OpenTelemetry API unavailable, [trace] is
    the traced function called without a span; [instrumentObject] copies
    every property that is not a function, and each method it installs
    returns what the method of [o] returns for the same arguments when
    called without a receiver, which is what [o.key(...args)] returns
    whenever the method does not depend on its receiver. Nothing is sent
    to a tracer. *)
Theorem tracing_disabled_is_noop :
  (∀ T spanName (fn : option Span → Traced T),
     trace_off spanName (ArgsFn fn) = fn None)
  ∧ (∀ T spanName opts (fn : option Span → Traced T),
       trace_off spanName (ArgsOptsFn opts (Some fn)) = fn None)
  ∧ (∀ prefix (o : gmap string (@Property Err This)) key,
       match o !! key with
       | None => instrument_off prefix o !! key = None
       | Some (PValue v) => instrument_off prefix o !! key = Some (PValue v)
       | Some (PMethod f) =>
           ∀ args,
             call_method as_this (instrument_off prefix o) key args
             = Some (f None args)
             ∧ ((∀ this, f this args = f None args) →
                call_method as_this (instrument_off prefix o) key args
                = call_method as_this o key args)
       end).
Proof.
  split_and!; [done | done |].
  intros prefix o key. unfold instrument_off, call_method.
  rewrite instrumentObject_lookup.
  destruct (o !! key) as [[v|f]|] eqn:Hkey; cbn; try done.
  intros args. split; [done|]. intros Hfree. by rewrite (Hfree (Some (as_this o))).
Qed.

End TelemetryFacts.

(** A method that reads [this] gives a different answer once wrapped. *)
Lemma instrumented_method_loses_receiver :
  Telemetry.await_call
    (Telemetry.instrumentObject id id None "world.runs" Telemetry.counter)
    "get" []
  ≠ Telemetry.await_call Telemetry.counter "get" [].
Proof. vm_compute. discriminate. Qed.

Example counter_get :
  Telemetry.await_call Telemetry.counter "get" [] = Some ([], Ok (JsNum 1)).
Proof. vm_compute. reflexivity. Qed.

Example counter_get_instrumented :
  Telemetry.await_call
    (Telemetry.instrumentObject id id None "world.runs" Telemetry.counter)
    "get" []
  = Some ([], Throw "TypeError").
Proof. vm_compute. reflexivity. Qed.

(** With the API present the same call is wrapped in a span. *)
Example constant_one_traced :
  (λ m, m []) <$>
    Telemetry.call_method Telemetry.data_view
      (Telemetry.instrumentObject id id (Some Telemetry.otel_api)
         "world.runs" Telemetry.constant_one) "one" []
  = Some
      ([Telemetry.StartActiveSpan "world.runs.one"
          {| Telemetry.kind := Some 0%Z |};
        Telemetry.SetAttributes "world.runs.one"
          [("peer.service", "world-local"); ("rpc.system", "local");
           ("rpc.service", "world-local");
           ("rpc.method", "world.runs.one")];
        Telemetry.SetStatus "world.runs.one" Telemetry.StatusOK;
        Telemetry.EndSpan "world.runs.one"],
       Ok (JsNum 1)).
Proof. vm_compute. reflexivity. Qed.

Lemma tracing_disabled_is_noop_witness :
  Telemetry.await_call
    (Telemetry.instrumentObject id id None "world.runs"
       Telemetry.constant_one) "one" []
  = Telemetry.await_call Telemetry.constant_one "one" [].
Proof.
  pose proof (proj2 (proj2 (tracing_disabled_is_noop id id
                              Telemetry.data_view))
                "world.runs" Telemetry.constant_one "one") as Hone.
  set (found := Telemetry.constant_one !! "one") in Hone.
  vm_compute in found. subst found. cbv beta iota in Hone.
  unfold Telemetry.await_call.
  rewrite (proj2 (Hone []) (λ _, eq_refl)). reflexivity.
Defined.

(** ** The import graph walk *)

Section DiscoverFacts.
Import Discover.

Lemma push_children_Some childToFind children queue queue' :
  push_children childToFind children queue = Some queue' →
  queue' = queue ++ children ∧ childToFind ∉ children.
Proof.
  revert queue. induction children as [|c cs IH]; intros queue; simpl.
  - intros [= <-]. rewrite app_nil_r. split; [done|]. apply not_elem_of_nil.
  - case_bool_decide as Hc; [done|]. intros Hp. apply IH in Hp as [-> Hnot].
    rewrite <- app_assoc. split; [done|].
    rewrite not_elem_of_cons. split; [congruence | done].
Qed.

Lemma push_children_None childToFind children queue :
  push_children childToFind children queue = None → childToFind ∈ children.
Proof.
  revert queue. induction children as [|c cs IH]; intros queue; simpl; [done|].
  case_bool_decide as Hc.
  - intros _. subst. apply list_elem_of_here.
  - intros Hp. apply list_elem_of_further. by eapply IH.
Qed.

(** After [funelim], drop the bookkeeping equations of the case analysis. *)
Ltac loop_cases :=
  repeat match goal with
         | H : sigmaI _ _ _ = sigmaI _ _ _ |- _ => clear H
         | H : _ = parentHasChild_loop _ _ _ _ |- _ => clear H
         end.

Lemma loop_true importParents childToFind visited queue :
  parentHasChild_loop importParents childToFind visited queue = true →
  ∃ q, q ∈ queue ∧ tc (edge importParents) q childToFind.
Proof.
  funelim (parentHasChild_loop importParents childToFind visited queue);
    loop_cases; intros Hrun;
    try match goal with
        | IH : _ = true → ∃ _, _ |- _ =>
            destruct (IH Hrun) as (q & Hq & Hreach)
        end.
  - done.
  - exists q. split; [by apply list_elem_of_further | done].
  - exists q. split; [by apply list_elem_of_further | done].
  - destruct (push_children_Some _ _ _ _ Hpush) as [Hqueue _].
    rewrite Hqueue in Hq. apply elem_of_app in Hq as [Hq | Hq].
    + exists q. split; [by apply list_elem_of_further | done].
    + exists current. split; [apply list_elem_of_here |].
      eapply tc_l; [| exact Hreach]. by exists children.
  - exists current. split; [apply list_elem_of_here |].
    apply tc_once. exists children. split; [done |].
    exact (push_children_None _ _ _ Hfound).
Qed.

Lemma explored_closed importParents childToFind visited v :
  explored importParents childToFind visited [] →
  v ∈ visited → ¬ tc (edge importParents) v childToFind.
Proof.
  intros Hex Hv Hreach. induction Hreach as [v w Hedge | v w z Hedge _ IH].
  - by destruct (Hex v w Hv Hedge) as [Hne _].
  - destruct (Hex v w Hv Hedge) as [_ [Hw | Hw]]; [by apply IH|].
    by apply elem_of_nil in Hw.
Qed.

Lemma loop_false importParents childToFind visited queue :
  parentHasChild_loop importParents childToFind visited queue = false →
  explored importParents childToFind visited queue →
  ∀ q, q ∈ queue ∨ q ∈ visited → ¬ tc (edge importParents) q childToFind.
Proof.
  funelim (parentHasChild_loop importParents childToFind visited queue);
    loop_cases; intros Hrun Hex q Hq;
    try match goal with
        | IH : _ = false → _ |- _ => apply (IH Hrun); clear IH
        end.
  - destruct Hq as [Hq | Hq]; [by apply elem_of_nil in Hq|].
    by eapply explored_closed.
  - apply bool_decide_eq_true_1 in Hseen.
    intros v child Hv Hedge. destruct (Hex v child Hv Hedge) as [Hne Hin].
    split; [done|]. rewrite elem_of_cons in Hin.
    destruct Hin as [Hin | [-> | Hin]]; auto.
  - apply bool_decide_eq_true_1 in Hseen. rewrite elem_of_cons in Hq.
    destruct Hq as [[-> | Hq] | Hq]; auto.
  - intros v child Hv Hedge. apply elem_of_union in Hv as [Hv | Hv].
    + apply elem_of_singleton in Hv as ->.
      destruct Hedge as (cs & Hcs & _). congruence.
    + destruct (Hex v child Hv Hedge) as [Hne Hin].
      split; [done|]. rewrite elem_of_cons in Hin. rewrite elem_of_union.
      rewrite elem_of_singleton. destruct Hin as [Hin | [-> | Hin]]; auto.
  - rewrite elem_of_cons in Hq. rewrite elem_of_union, elem_of_singleton.
    destruct Hq as [[-> | Hq] | Hq]; auto.
  - destruct (push_children_Some _ _ _ _ Hpush) as [Hqueue Hnot].
    rewrite Hqueue.
    intros v child Hv Hedge. apply elem_of_union in Hv as [Hv | Hv].
    + apply elem_of_singleton in Hv as ->.
      destruct Hedge as (cs & Hcs & Hchild).
      assert (cs = children) as -> by congruence.
      split; [by intros -> |]. right. apply elem_of_app. by right.
    + destruct (Hex v child Hv Hedge) as [Hne Hin].
      split; [done|]. rewrite elem_of_cons in Hin.
      rewrite elem_of_app, elem_of_union, elem_of_singleton.
      destruct Hin as [Hin | [-> | Hin]]; auto.
  - destruct (push_children_Some _ _ _ _ Hpush) as [Hqueue _].
    rewrite Hqueue. rewrite elem_of_cons in Hq.
    rewrite elem_of_app, elem_of_union, elem_of_singleton.
    destruct Hq as [[-> | Hq] | Hq]; auto.
  - done.
Qed.

(** C10. On every import graph, cyclic or not, [parentHasChild] returns,
    and it returns [true] exactly when [childToFind] can be reached from
    [parent] along one or more import edges. *)
Theorem parentHasChild_reachable importParents parent childToFind :
  parentHasChild importParents parent childToFind = true
  ↔ tc (edge importParents) parent childToFind.
Proof.
  unfold parentHasChild. split.
  - intros Hrun. apply loop_true in Hrun as (q & Hq & Hreach).
    by apply list_elem_of_singleton in Hq as ->.
  - intros Hreach.
    destruct (parentHasChild_loop importParents childToFind ∅ [parent])
      eqn:Hrun; [done|].
    exfalso. eapply (loop_false _ _ _ _ Hrun); [| | exact Hreach].
    + intros v child Hv. by apply elem_of_empty in Hv.
    + left. apply list_elem_of_here.
Qed.

Example cyclic_graph_reaches :
  parentHasChild cyclic_graph "a" "d" = true
  ∧ parentHasChild cyclic_graph "a" "a" = true
  ∧ parentHasChild cyclic_graph "c" "a" = false
  ∧ parentHasChild cyclic_graph "d" "d" = false.
Proof. by vm_compute. Qed.

End DiscoverFacts.

(** ** The World contract *)

Section WorldFacts.
Import World.

(** What an accepted [events.create] did. *)
Lemma events_create_Ok now run cid data w w' res :
  events_create now run cid data w = Ok (w', res) →
  ∃ r, let e := event_of now r cid data w in
    log w' = log w ++ [e] ∧ res_event res = e ∧
    ((∃ sid st, cid = Some sid ∧ is_step_event data = true ∧
        run = Some r ∧ is_Some (runs (entities w) !! r) ∧
        admit_step now r sid data (entities w) = Ok (entities w', st) ∧
        res_step res = Some st)
     ∨ (is_step_event data = false ∧
        admit_other e (entities w) = Ok (entities w'))).
Proof.
  unfold events_create. intros Hc.
  destruct (match run with
            | Some r => _ | None => _ end) as [r|err] eqn:Htarget in Hc;
    [|done].
  exists r. cbn zeta.
  destruct (is_step_event data) eqn:Hstep.
  - destruct cid as [sid|]; [|done].
    destruct (admit_step now r sid data (entities w)) as [[d' st]|] eqn:Hadm;
      [|done].
    injection Hc as <- <-. cbn. split_and!; [done..|].
    left. exists sid, st. split_and!; try done.
    + destruct run as [r'|]; [|by destruct data].
      destruct data; try done;
        destruct (runs (entities w) !! r'); by simplify_eq.
    + destruct run as [r'|]; [|by destruct data].
      destruct data; try done;
        destruct (runs (entities w) !! r') eqn:Hr; simplify_eq;
        by rewrite Hr.
  - match type of Hc with
    | match ?a with _ => _ end = _ => destruct a as [d'|] eqn:Hadm; [|done]
    end.
    injection Hc as <- <-. cbn. split_and!; [done..|]. by right.
Qed.

Lemma steps_update_Ok d r sid expected patch d' st' :
  steps_update d r sid expected patch = Ok (d', st') →
  ∃ st, steps d !! (r, sid) = Some st ∧ status st = expected ∧
    st' = apply_patch patch st ∧ d' = with_steps <[(r, sid) := st']> d.
Proof.
  unfold steps_update. destruct (steps d !! (r, sid)) as [st|]; [|done].
  case_bool_decide; [|done]. intros [= <- <-]. by exists st.
Qed.

Lemma in_live_run_Ok {A} d r (admitted : Result WorldError A) a :
  in_live_run d r admitted = Ok a →
  admitted = Ok a ∧ run_is_terminal d r = false.
Proof.
  unfold in_live_run. destruct admitted as [a'|]; [|done].
  destruct (run_is_terminal d r); [done|]. by intros [= ->].
Qed.


Lemma in_live_run_terminal {A} d r (admitted : Result WorldError A) :
  run_is_terminal d r = true →
  in_live_run d r admitted
  = match admitted with Ok _ => Throw Conflict | Throw err => Throw err end.
Proof. intros Hterm. unfold in_live_run. by rewrite Hterm. Qed.

Lemma step_transition_Ok now r sid data d d' st' :
  step_transition now r sid data d = Ok (d', st') →
  d' = with_steps <[(r, sid) := st']> d ∧
  match data with
  | step_created m a => steps d !! (r, sid) = None ∧ st' = new_step m a
  | step_started =>
      ∃ st, steps d !! (r, sid) = Some st ∧
        step_terminal (status st) = false ∧
        (∀ t, retryAfter st = Some t → (t ≤ now)%Z) ∧ st' = started st
  | step_completed res =>
      ∃ st, steps d !! (r, sid) = Some st ∧ status st = running ∧
        st' = apply_patch (completed_patch res) st
  | step_failed c a =>
      ∃ st, steps d !! (r, sid) = Some st ∧ status st = running ∧
        st' = apply_patch (failed_patch st c a) st
  | step_skipped =>
      ∃ st, steps d !! (r, sid) = Some st ∧
        step_terminal (status st) = false ∧
        st' = apply_patch skipped_patch st
  | _ => False
  end.
Proof.
  destruct data; cbn [step_transition]; try done.
  - destruct (steps d !! (r, sid)) eqn:Hl; [done|]. by intros [= <- <-].
  - destruct (steps d !! (r, sid)) as [st|] eqn:Hl; [|done].
    destruct (step_terminal (status st)) eqn:Hterm; [done|].
    destruct (retryAfter st) as [t|] eqn:Hafter.
    + case_bool_decide; [done|]. intros [= <- <-]. split; [done|].
      exists st. split_and!; try done. intros t' Ht. assert (t' = t) as -> by congruence. lia.
    + intros [= <- <-]. split; [done|]. exists st. split_and!; try done.
      intros t Ht. congruence.
  - intros Hu. apply steps_update_Ok in Hu as (st & Hl & Hst & -> & ->).
    split; [done|]. by exists st.
  - destruct (steps d !! (r, sid)) as [st|] eqn:Hl; [|done].
    intros Hu. apply steps_update_Ok in Hu as (st0 & Hl0 & Hst & -> & ->).
    assert (st0 = st) as -> by congruence.
    split; [done|]. by exists st.
  - destruct (steps d !! (r, sid)) as [st|] eqn:Hl; [|done].
    destruct (step_terminal (status st)) eqn:Hterm; [done|].
    intros Hu. apply steps_update_Ok in Hu as (st0 & Hl0 & Hst & -> & ->).
    assert (st0 = st) as -> by congruence.
    split; [done|]. by exists st.
Qed.

Lemma admit_step_Ok now r sid data d d' st' :
  admit_step now r sid data d = Ok (d', st') →
  d' = with_steps <[(r, sid) := st']> d ∧
  match data with
  | step_created m a => steps d !! (r, sid) = None ∧ st' = new_step m a
  | step_started =>
      ∃ st, steps d !! (r, sid) = Some st ∧
        step_terminal (status st) = false ∧
        (∀ t, retryAfter st = Some t → (t ≤ now)%Z) ∧ st' = started st
  | step_completed res =>
      ∃ st, steps d !! (r, sid) = Some st ∧ status st = running ∧
        st' = apply_patch (completed_patch res) st
  | step_failed c a =>
      ∃ st, steps d !! (r, sid) = Some st ∧ status st = running ∧
        st' = apply_patch (failed_patch st c a) st
  | step_skipped =>
      ∃ st, steps d !! (r, sid) = Some st ∧
        step_terminal (status st) = false ∧
        st' = apply_patch skipped_patch st
  | _ => False
  end.
Proof.
  unfold admit_step. intros [Hstep _]%in_live_run_Ok.
  by apply step_transition_Ok.
Qed.

(** An accepted event found its run short of a terminal status. *)
Lemma admit_step_live now r sid data d d' st' :
  admit_step now r sid data d = Ok (d', st') → run_is_terminal d r = false.
Proof. unfold admit_step. by intros [_ ?]%in_live_run_Ok. Qed.

Lemma admit_other_live e d d' :
  admit_other e d = Ok d' → run_is_terminal d (runId e) = false.
Proof. unfold admit_other. by intros [_ ?]%in_live_run_Ok. Qed.

Lemma skip_in_flight_lookup run known r sid :
  skip_in_flight run known !! (r, sid)
  = (λ st, if bool_decide (r = run) && negb (step_terminal (status st))
           then apply_patch skipped_patch st else st)
    <$> known !! (r, sid).
Proof.
  unfold skip_in_flight. rewrite map_lookup_imap.
  by destruct (known !! (r, sid)).
Qed.

Lemma admit_other_Ok e d d' :
  admit_other e d = Ok d' →
  d' = apply_event d e
  ∧ steps d'
    = match eventData e with
      | run_cancelled => skip_in_flight (runId e) (steps d)
      | _ => steps d
      end.
Proof.
  unfold admit_other. intros [Hother _]%in_live_run_Ok. revert Hother.
  unfold other_transition, apply_event.
  destruct (eventData e); try done;
    repeat match goal with
           | |- context [match ?x with _ => _ end] =>
               destruct x eqn:?; try done
           end;
    by intros [= <-].
Qed.

(** What an accepted run, hook or wait event does to a step: nothing,
    unless it cancels the run of a step in flight, which is skipped. *)
Lemma admit_other_step e d d' r sid :
  admit_other e d = Ok d' →
  steps d' !! (r, sid) = steps d !! (r, sid)
  ∨ ∃ st,
      steps d !! (r, sid) = Some st
      ∧ step_terminal (status st) = false
      ∧ eventData e = run_cancelled ∧ runId e = r
      ∧ steps d' !! (r, sid) = Some (apply_patch skipped_patch st).
Proof.
  intros [_ Hsteps]%admit_other_Ok. rewrite Hsteps.
  destruct (eventData e) eqn:Hdata; try by left.
  rewrite skip_in_flight_lookup.
  destruct (steps d !! (r, sid)) as [st|] eqn:Hl; [|by left]. cbn.
  case_bool_decide as Hrun; cbn; [|by left].
  destruct (step_terminal (status st)) eqn:Hterm; cbn; [by left|].
  right. by exists st.
Qed.

Lemma alter_as_insert {K A} `{Countable K} (f : A → A) (m : gmap K A) k x :
  m !! k = Some x → alter f k m = <[k := f x]> m.
Proof.
  intros Hk. apply map_eq. intros j. destruct (decide (k = j)) as [<-|Hne].
  - by rewrite lookup_alter_eq, lookup_insert_eq, Hk.
  - by rewrite lookup_alter_ne, lookup_insert_ne.
Qed.

Lemma admit_step_apply now r sid data d d' st' w :
  admit_step now r sid data d = Ok (d', st') →
  d' = apply_event d (event_of now r (Some sid) data w).
Proof.
  intros Hadm. apply admit_step_Ok in Hadm as [-> Hdata].
  unfold apply_event, on_step, event_of, with_steps. cbn.
  destruct data; try done.
  - by destruct Hdata as [_ ->].
  - destruct Hdata as (st & Hl & _ & _ & ->).
    by rewrite (alter_as_insert _ _ _ _ Hl).
  - destruct Hdata as (st & Hl & _ & ->).
    by rewrite (alter_as_insert _ _ _ _ Hl).
  - destruct Hdata as (st & Hl & _ & ->).
    by rewrite (alter_as_insert _ _ _ _ Hl).
  - destruct Hdata as (st & Hl & _ & ->).
    by rewrite (alter_as_insert _ _ _ _ Hl).
Qed.

Lemma replay_snoc events e :
  replay (events ++ [e]) = apply_event (replay events) e.
Proof. unfold replay. by rewrite fold_left_app. Qed.

(** The entities the World maintains are the replay of its log. *)
Lemma reachable_replay w : reachable w → entities w = replay (log w).
Proof.
  induction 1 as [|w now run cid data w' res _ IH Hc]; [done|].
  apply events_create_Ok in Hc as (r & Hlog & _ & Hadm). cbn zeta in *.
  rewrite Hlog, replay_snoc, <- IH.
  destruct Hadm as [(sid & st & -> & _ & _ & _ & Hadm & _) | [_ Hadm]].
  - by eapply admit_step_apply.
  - by apply admit_other_Ok in Hadm as [-> _].
Qed.

Lemma same_run_refl r d : same_run r d d.
Proof. by repeat split. Qed.

Lemma same_run_sym r d d' : same_run r d d' → same_run r d' d.
Proof. intros (? & ? & ? & ?). by repeat split. Qed.

Lemma same_run_trans r d1 d2 d3 :
  same_run r d1 d2 → same_run r d2 d3 → same_run r d1 d3.
Proof.
  intros (? & ? & ? & ?) (? & ? & ? & ?).
  repeat split; intros; etrans; eauto.
Qed.

Ltac lookup_cases :=
  repeat first
    [ rewrite skip_in_flight_lookup | rewrite lookup_insert
    | rewrite lookup_alter ];
  repeat case_decide; simplify_eq; try done.

Lemma apply_event_same_run r d d' e :
  same_run r d d' → same_run r (apply_event d e) (apply_event d' e).
Proof.
  intros (Hruns & Hsteps & Hhooks & Hwaits).
  unfold apply_event, on_step.
  destruct (eventData e); destruct (correlationId e) as [c|];
    repeat split; cbn; intros; try done; lookup_cases;
    by first [ rewrite Hruns | rewrite Hsteps | rewrite Hhooks
             | rewrite Hwaits ].
Qed.

Lemma apply_event_other_run r d e :
  runId e ≠ r → same_run r (apply_event d e) d.
Proof.
  intros Hne. unfold apply_event, on_step.
  destruct (eventData e); destruct (correlationId e) as [c|];
    repeat split; cbn; intros; try done; lookup_cases;
    rewrite bool_decide_eq_false_2 by done;
    by destruct (steps d !! (r, k)).
Qed.

Lemma fold_events_of r events d d' :
  same_run r d d' →
  same_run r (fold_left apply_event events d)
    (fold_left apply_event (events_of r events) d').
Proof.
  revert d d'. induction events as [|e events IH]; intros d d' Hsame; [done|].
  unfold events_of. rewrite filter_cons. case_decide as Hrun; cbn.
  - apply IH. by apply apply_event_same_run.
  - apply IH. eapply same_run_trans; [|exact Hsame].
    by apply apply_event_other_run.
Qed.

Lemma replay_events_of r events :
  same_run r (replay events) (replay (events_of r events)).
Proof. apply fold_events_of, same_run_refl. Qed.

Lemma started_count_snoc r sid events e :
  started_count r sid (events ++ [e])
  = started_count r sid events + (if is_step_started r sid e then 1 else 0).
Proof.
  unfold started_count. rewrite filter_app, length_app, filter_cons, filter_nil.
  destruct (is_step_started r sid e); by case_decide.
Qed.

Lemma is_step_started_event_of r sid now r0 cid data w :
  is_step_started r sid (event_of now r0 cid data w)
  = bool_decide (r0 = r) && bool_decide (cid = Some sid)
    && match data with step_started => true | _ => false end.
Proof. done. Qed.

Lemma reachable_attempts_counted w : reachable w → attempts_counted w.
Proof.
  induction 1 as [|w now run cid data w' res _ IH Hc]; [by intros r sid|].
  apply events_create_Ok in Hc as (r0 & Hlog & _ & Hadm). cbn zeta in *.
  intros r sid. specialize (IH r sid).
  rewrite Hlog, started_count_snoc, is_step_started_event_of.
  destruct Hadm as [(sid0 & st' & -> & _ & _ & _ & Hadm & _) | [Hother Hadm]].
  - apply admit_step_Ok in Hadm as [Hd' Hdata]. rewrite Hd'. cbn.
    destruct (decide ((r0, sid0) = (r, sid))) as [[= -> ->]|Hne].
    + rewrite lookup_insert_eq, !bool_decide_eq_true_2 by done. cbn.
      destruct data; try done.
      * destruct Hdata as [Hl ->]. rewrite Hl in IH. cbn. lia.
      * destruct Hdata as (st & Hl & _ & _ & ->). rewrite Hl in IH. cbn. lia.
      * destruct Hdata as (st & Hl & _ & ->). rewrite Hl in IH. cbn. lia.
      * destruct Hdata as (st & Hl & _ & ->). rewrite Hl in IH. cbn. lia.
      * destruct Hdata as (st & Hl & _ & ->). rewrite Hl in IH. cbn. lia.
    + rewrite lookup_insert_ne by done.
      assert (bool_decide (r0 = r) && bool_decide (Some sid0 = Some sid)
              = false) as ->.
      { apply andb_false_iff. destruct (decide (r0 = r)) as [->|];
          [right | left]; apply bool_decide_eq_false_2; congruence. }
      cbn. destruct (steps (entities w) !! (r, sid)); lia.
  - assert (match data with step_started => true | _ => false end = false)
      as -> by (by destruct data).
    rewrite andb_false_r.
    destruct (admit_other_step _ _ _ r sid Hadm)
      as [-> | (st & Hl & _ & _ & _ & ->)].
    + destruct (steps (entities w) !! (r, sid)); lia.
    + rewrite Hl in IH. cbn. lia.
Qed.

Lemma apply_event_runs_is_Some d e r :
  is_Some (runs d !! r) → is_Some (runs (apply_event d e) !! r).
Proof.
  unfold apply_event, on_step.
  destruct (eventData e); destruct (correlationId e); cbn; try done;
    intros Hr; lookup_cases; by apply fmap_is_Some.
Qed.

Lemma failed_patch_retryAfter st c a t :
  retryAfter (apply_patch (failed_patch st c a) st) = Some t →
  status (apply_patch (failed_patch st c a) st) = retry_scheduled.
Proof.
  unfold failed_patch.
  destruct c; try destruct (retries_exhausted st); cbn; done.
Qed.

Lemma reachable_steps_consistent w : reachable w → steps_consistent w.
Proof.
  induction 1 as [|w now run cid data w' res _ IH Hc].
  { intros r sid st Hl. cbn in Hl. by rewrite lookup_empty in Hl. }
  apply events_create_Ok in Hc as (r0 & Hlog & _ & Hadm). cbn zeta in *.
  intros r sid st Hl.
  destruct Hadm as [(sid0 & st' & -> & _ & _ & Hrun & Hadm & _) | [_ Hadm]].
  - apply admit_step_Ok in Hadm as [Hd' Hdata]. rewrite Hd' in Hl |- *.
    cbn in Hl |- *.
    destruct (decide ((r0, sid0) = (r, sid))) as [[= -> ->]|Hne].
    + rewrite lookup_insert_eq in Hl. injection Hl as <-.
      split; [done|]. intros t.
      destruct data; try done.
      * by destruct Hdata as [_ ->].
      * by destruct Hdata as (st0 & _ & _ & _ & ->).
      * by destruct Hdata as (st0 & _ & _ & ->).
      * destruct Hdata as (st0 & _ & _ & ->). apply failed_patch_retryAfter.
      * by destruct Hdata as (st0 & _ & _ & ->).
    + rewrite lookup_insert_ne in Hl by done. by apply IH in Hl.
  - pose proof (admit_other_Ok _ _ _ Hadm) as [Hd' _].
    destruct (admit_other_step _ _ _ r sid Hadm)
      as [Hsame | (st0 & Hl0 & _ & _ & _ & Hskipped)].
    + rewrite Hsame in Hl. apply IH in Hl as [Hr Hafter]. split; [|done].
      rewrite Hd'. by apply apply_event_runs_is_Some.
    + rewrite Hskipped in Hl. injection Hl as <-.
      apply IH in Hl0 as [Hr _]. split; [|done].
      rewrite Hd'. by apply apply_event_runs_is_Some.
Qed.

(** [events.create] of a step event in a run that exists. *)
Lemma events_create_step now r sid data w :
  is_Some (runs (entities w) !! r) → is_step_event data = true →
  events_create now (Some r) (Some sid) data w
  = match admit_step now r sid data (entities w) with
    | Throw err => Throw err
    | Ok (d', st) =>
        let e := event_of now r (Some sid) data w in
        Ok ({| log := log w ++ [e]; entities := d' |},
            {| res_event := e; res_run := runs d' !! r; res_step := Some st;
               res_hook := None |})
    end.
Proof.
  intros [run Hrun] Hstep. unfold events_create. rewrite Hstep.
  destruct data; try done; by rewrite Hrun.
Qed.







Lemma no_error_is_gone err : http_equivalent err ≠ Some 410%Z.
Proof. by destruct err. Qed.


(** Section 3: no append to a run that has reached a terminal status is
    accepted, whatever the event. *)
Lemma terminal_run_rejects now r cid data w :
  run_is_terminal (entities w) r = true →
  ∃ err, events_create now (Some r) cid data w = Throw err.
Proof.
  intros Hterm. unfold events_create.
  assert (∃ run, runs (entities w) !! r = Some run) as [run Hrun].
  { unfold run_is_terminal in Hterm.
    destruct (runs (entities w) !! r) as [run|]; [by exists run | done]. }
  assert (∀ A (admitted : Result WorldError A),
            ∃ err, in_live_run (entities w) r admitted = Throw err)
    as Hrefused.
  { intros A admitted. rewrite in_live_run_terminal by done.
    destruct admitted as [a|err]; by eexists. }
  destruct data; try (by eexists); rewrite Hrun; cbn [is_step_event];
    try (destruct cid as [sid|]; [|by eexists]);
    unfold admit_step, admit_other; cbn [runId];
    match goal with
    | |- context [in_live_run _ _ ?admitted] =>
        destruct (Hrefused _ admitted) as [err ->]
    end;
    by eexists.
Qed.

(** C1. In every state the World can be observed in, the attempt of a
    step equals the number of [step_started] events appended for it. The
    worker keeps to it: in every run of its handler, the arguments are
    hydrated only after the append of [step_started] was acknowledged, and
    with the attempt that append produced, one more than the number of
    starts logged before. *)
Theorem attempt_equals_started_count w :
  reachable w →
  (∀ r sid st, steps (entities w) !! (r, sid) = Some st →
     attempt st = started_count r sid (log w))
  ∧ (∀ body backoff now finished msg meanwhile w' trace,
       step_handler body backoff now finished msg meanwhile w = (w', trace) →
       ∀ i a args, trace !! i = Some (Hydrate a args) →
         trace !! 1 = Some (Acknowledged a) ∧ 1 < i
         ∧ a = S (started_count (inv_runId msg) (inv_stepId msg) (log w))).
Proof.
  intros Hreach. split.
  - intros r sid st Hl.
    pose proof (reachable_attempts_counted w Hreach r sid) as Hinv.
    by rewrite Hl in Hinv.
  - intros body backoff now finished msg meanwhile w' trace Hrun i a args Hi.
    unfold step_handler in Hrun.
    destruct (events_create now _ _ step_started w) as [[w1 res]|err] eqn:Hc.
    2: { injection Hrun as <- <-.
         by destruct i as [|[|[|]]]. }
    apply events_create_Ok in Hc as (r0 & _ & _ & Hadm).
    destruct Hadm as [(sid0 & st' & [= <-] & _ & [= <-] & _ & Hadm & Hres) | [? _]];
      [|done].
    rewrite Hres in Hrun.
    apply admit_step_Ok in Hadm as [_ (st0 & Hl & _ & _ & ->)].
    pose proof (reachable_attempts_counted w Hreach (inv_runId msg)
                  (inv_stepId msg)) as Hinv.
    rewrite Hl in Hinv.
    cbn zeta in Hrun.
    destruct (events_create finished _ _ _ _) as [[w2 ?]|err];
      injection Hrun as <- <-;
      destruct i as [|[|[|[|[|]]]]]; try done;
      injection Hi as <- <-; cbn; (split_and!; [done | lia | by rewrite Hinv]).
Qed.

Lemma reachable_then_create now run cid data w :
  reachable w → reachable (then_create now run cid data w).
Proof.
  intros Hreach. unfold then_create.
  destruct (events_create now run cid data w) as [[w' res]|] eqn:Hc; [|done].
  by eapply reachable_append.
Qed.


(** C3. Replay is a function of the ordered events of the run alone: two
    event sequences with the same events for a run replay to the same run,
    step, hook and wait state for that run, and the entities a World shows,
    whenever it is observed, are the replay of its log. *)
Theorem replay_deterministic r events1 events2 :
  events_of r events1 = events_of r events2 →
  same_run r (replay events1) (replay events2)
  ∧ (∀ w, reachable w → log w = events1 →
       entities w = replay events1
       ∧ same_run r (entities w) (replay events2)).
Proof.
  intros Hsame.
  assert (same_run r (replay events1) (replay events2)) as Hreplay.
  { eapply same_run_trans; [apply replay_events_of|].
    rewrite Hsame. apply same_run_sym, replay_events_of. }
  split; [done|]. intros w Hreach <-.
  by rewrite (reachable_replay w Hreach).
Qed.


(** C5. Starting a step that has succeeded or has finally failed is
    rejected with [Conflict] (409); no failure of the contract is a 410. *)
Theorem terminal_step_conflict w r sid st now :
  reachable w → steps (entities w) !! (r, sid) = Some st →
  status st = succeeded ∨ status st = failed →
  events_create now (Some r) (Some sid) step_started w = Throw Conflict
  ∧ http_equivalent Conflict = Some 409%Z
  ∧ (∀ err, http_equivalent err ≠ Some 410%Z)
  ∧ ∀ body backoff finished msg meanwhile,
      inv_runId msg = r → inv_stepId msg = sid →
      step_handler body backoff now finished msg meanwhile w
      = (w, [AppendStepStarted; Rejected Conflict]).
Proof.
  intros Hreach Hl Hst.
  destruct (reachable_steps_consistent w Hreach r sid st Hl) as [Hrun _].
  assert (step_terminal (status st) = true) as Hterm
    by (by destruct Hst as [-> | ->]).
  assert (events_create now (Some r) (Some sid) step_started w
          = Throw Conflict) as Hconflict.
  { rewrite events_create_step by done.
    unfold admit_step. cbn [step_transition].
    by rewrite Hl, Hterm. }
  split_and!; [done | done | apply no_error_is_gone |].
  intros body backoff finished msg meanwhile <- <-. unfold step_handler.
  by rewrite Hconflict.
Qed.

Lemma demo_world_reachable : reachable demo_world.
Proof.
  unfold demo_world. do 5 apply reachable_then_create. apply reachable_empty.
Qed.

Lemma demo_done_reachable : reachable demo_done.
Proof.
  unfold demo_done. do 2 apply reachable_then_create.
  apply demo_world_reachable.
Qed.

Example demo_world_step :
  steps (entities demo_world) !! (demo_run, "s1") = Some demo_step.
Proof. vm_compute. reflexivity. Qed.

Lemma attempt_equals_started_count_witness :
  attempt demo_step = started_count demo_run "s1" (log demo_world).
Proof.
  exact (proj1 (attempt_equals_started_count demo_world demo_world_reachable)
           demo_run "s1" demo_step demo_world_step).
Defined.










Lemma replay_deterministic_witness :
  same_run demo_run (replay (log demo_world)) (replay (log demo_two_runs)).
Proof.
  refine (proj1 (replay_deterministic demo_run (log demo_world)
                   (log demo_two_runs) _)).
  vm_compute. reflexivity.
Defined.

Lemma terminal_step_conflict_witness :
  events_create 40 (Some demo_run) (Some "s1") step_started demo_done
  = Throw Conflict.
Proof.
  refine (proj1 (terminal_step_conflict demo_done demo_run "s1"
                   demo_done_step 40 demo_done_reachable _ (or_introl eq_refl))).
  vm_compute. reflexivity.
Defined.

(** The slower of two racing workers is told [Conflict] and its result
    is not recorded. *)
Example race_discards_second_result :
  (step_handler (λ _, Ok (JsNum 2)) (λ _, 10%Z) 3 6 demo_invocation
     second_worker demo_created).2
  = [AppendStepStarted; Acknowledged 1; Hydrate 1 JsNull;
     AppendOutcome (step_completed (JsNum 2)); Rejected Conflict].
Proof. vm_compute. reflexivity. Qed.

(** The scenario of the specification, end to end. *)
Example scenario_retry :
  steps_get demo_world demo_run "s1" = Ok demo_step
  ∧ steps_get demo_running demo_run "s1" = Ok demo_running_step
  ∧ steps_get demo_done demo_run "s1" = Ok demo_done_step
  ∧ started_count demo_run "s1" (log demo_done) = 2.
Proof. by vm_compute. Qed.

(** Cancellation skips the attempt in flight, and the cancelled run takes
    no further event: not the late result of the attempt, not a new step,
    not a hook. *)
Example cancelled_run_is_closed :
  steps_get demo_cancelled demo_run "s1" = Ok demo_skipped_step
  ∧ started_count demo_run "s1" (log demo_cancelled) = 2
  ∧ events_create 30 (Some demo_run) (Some "s1") (step_completed (JsNum 7))
      demo_cancelled
    = Throw Conflict
  ∧ events_create 30 (Some demo_run) (Some "s2") (step_created 0 JsNull)
      demo_cancelled
    = Throw Conflict
  ∧ events_create 30 (Some demo_run) (Some "h1") (hook_created "tok")
      demo_cancelled
    = Throw Conflict
  ∧ events_create 30 (Some demo_run) None run_cancelled demo_cancelled
    = Throw Conflict.
Proof. by vm_compute. Qed.

End WorldFacts.

(** ** The discover-entries plugin *)

Section DiscoverPluginFacts.
Import Discover DiscoverPlugin.

Lemma slashes_length s : String.length (JsString.slashes s) = String.length s.
Proof. induction s as [|c s IH]; cbn; [done | by rewrite IH]. Qed.

Lemma slashes_chars s :
  "\"%char ∉ String.list_ascii_of_string (JsString.slashes s).
Proof.
  induction s as [|c s IH]; cbn; [apply not_elem_of_nil|].
  apply not_elem_of_cons. split; [|done]. by case_bool_decide.
Qed.

Lemma slashes_fixed s :
  "\"%char ∉ String.list_ascii_of_string s → JsString.slashes s = s.
Proof.
  induction s as [|c s IH]; cbn; [done|].
  intros [Hc Hs]%not_elem_of_cons. rewrite IH by done.
  by rewrite bool_decide_eq_false_2.
Qed.

Lemma parentHasChild_edges importParents parent childToFind :
  parentHasChild importParents parent childToFind = true
  ↔ tc (edge importParents) parent childToFind.
Proof.
  unfold parentHasChild. split.
  - intros Hrun. apply loop_true in Hrun as (q & Hq & Hreach).
    by apply list_elem_of_singleton in Hq as ->.
  - intros Hreach.
    destruct (parentHasChild_loop importParents childToFind ∅ [parent])
      eqn:Hrun; [done|].
    exfalso. eapply (loop_false _ _ _ _ Hrun); [| | exact Hreach].
    + intros v child Hv. by apply elem_of_empty in Hv.
    + left. apply list_elem_of_here.
Qed.

Lemma set_add_elem child child' children :
  child' ∈ JsSet.add child children ↔ child' = child ∨ child' ∈ children.
Proof.
  unfold JsSet.add. case_bool_decide as Hin.
  - split; [by right|]. by intros [->|?].
  - rewrite elem_of_app, list_elem_of_singleton. tauto.
Qed.

Lemma set_add_NoDup child children :
  NoDup children → NoDup (JsSet.add child children).
Proof.
  intros Hnd. unfold JsSet.add. case_bool_decide as Hin; [done|].
  apply NoDup_app. split_and!; [done | | apply NoDup_singleton].
  intros x Hx ->%list_elem_of_singleton. done.
Qed.

Lemma record_import_lookup importer resolved g u :
  record_import importer resolved g !! u
  = if bool_decide (u = JsString.slashes importer)
    then Some (JsSet.add (JsString.slashes resolved)
                 (default [] (g !! JsString.slashes importer)))
    else g !! u.
Proof.
  unfold record_import. case_bool_decide as Hu.
  - subst u. destruct (g !! JsString.slashes importer);
      by rewrite lookup_insert_eq.
  - destruct (g !! JsString.slashes importer);
      by rewrite lookup_insert_ne.
Qed.

Lemma record_import_edge importer resolved g u v :
  edge (record_import importer resolved g) u v
  ↔ edge g u v
    ∨ (u = JsString.slashes importer ∧ v = JsString.slashes resolved).
Proof.
  unfold edge. setoid_rewrite record_import_lookup. split.
  - intros (children & Hl & Hv). case_bool_decide as Hu.
    + injection Hl as <-. apply set_add_elem in Hv as [->|Hv]; [by right|].
      left. destruct (g !! JsString.slashes importer) as [cs|] eqn:Hg.
      * exists cs. by subst u.
      * by apply elem_of_nil in Hv.
    + left. by exists children.
  - intros [(children & Hl & Hv) | [-> ->]].
    + case_bool_decide as Hu.
      * eexists. split; [done|]. apply set_add_elem. right.
        subst u. by rewrite Hl.
      * by exists children.
    + rewrite bool_decide_eq_true_2 by done.
      eexists. split; [done|]. apply set_add_elem. by left.
Qed.

Lemma onResolve_edge {Err} (resolved : Result Err (option string))
    importer g u v :
  edge g u v → edge (onResolve resolved importer g) u v.
Proof.
  intros Hedge. unfold onResolve.
  destruct resolved as [[file|]|]; try done.
  case_bool_decide; [done|]. apply record_import_edge. by left.
Qed.

(** X1. Once [onResolve] has seen a file import another, [parentHasChild]
    finds the imported file under the importer, both named with forward
    slashes. *)
Theorem onResolve_records_import {Err} importer file g :
  file ≠ "" →
  parentHasChild (onResolve (Err := Err) (Ok (Some file)) importer g)
    (JsString.slashes importer) (JsString.slashes file) = true.
Proof.
  intros Hfile. apply parentHasChild_edges, tc_once.
  unfold onResolve. rewrite bool_decide_eq_false_2 by done.
  apply record_import_edge. by right.
Qed.

(** X2. Whatever [onResolve] is told, it never removes an import: a child
    that [parentHasChild] found before is found afterwards. *)
Theorem onResolve_keeps_reachable {Err} (resolved : Result Err (option string))
    importer g parent child :
  parentHasChild g parent child = true →
  parentHasChild (onResolve resolved importer g) parent child = true.
Proof.
  rewrite !parentHasChild_edges. intros Hreach.
  induction Hreach as [u v Hedge | u v w Hedge _ IH].
  - apply tc_once. by apply onResolve_edge.
  - eapply tc_l; [|exact IH]. by apply onResolve_edge.
Qed.


Lemma set_add_again child children :
  JsSet.add child (JsSet.add child children) = JsSet.add child children.
Proof.
  unfold JsSet.add at 1. rewrite bool_decide_eq_true_2; [done|].
  apply set_add_elem. by left.
Qed.

(** X3. The children recorded for a file stay a set: no file is listed twice,
    and resolving the same import again changes nothing. *)
Theorem onResolve_children_are_sets {Err}
    (resolved : Result Err (option string)) importer g :
  (children_are_sets g → children_are_sets (onResolve resolved importer g))
  ∧ onResolve resolved importer (onResolve resolved importer g)
    = onResolve resolved importer g.
Proof.
  unfold onResolve. destruct resolved as [[file|]|]; try done.
  case_bool_decide; [done|]. split.
  - intros Hsets parent children. rewrite record_import_lookup.
    case_bool_decide; [|apply Hsets]. intros [= <-].
    apply set_add_NoDup.
    destruct (g !! JsString.slashes importer) as [cs|] eqn:Hg; cbn.
    + by eapply Hsets.
    + apply NoDup_nil_2.
  - apply map_eq. intros u. rewrite !record_import_lookup.
    case_bool_decide; [|done].
    rewrite bool_decide_eq_true_2 by done. cbn. by rewrite set_add_again.
Qed.

(** X4. [onResolve] keeps the import graph free of backslashes: if every
    path in it is written with forward slashes, so is every path in it
    afterwards, whatever separators the importer and the resolved file
    came with. *)
Theorem onResolve_normalized {Err} (resolved : Result Err (option string))
    importer g :
  normalized g → normalized (onResolve resolved importer g).
Proof.
  intros Hg. unfold onResolve.
  destruct resolved as [[file|]|]; [|done..].
  case_bool_decide; [done|].
  intros parent children. rewrite record_import_lookup.
  case_bool_decide as Hparent; [|apply Hg].
  intros [= <-]. subst parent. split; [apply slashes_chars|].
  apply Forall_forall. intros child [->|Hchild]%set_add_elem.
  - apply slashes_chars.
  - destruct (g !! JsString.slashes importer) as [children|] eqn:Himporter;
      cbn in Hchild.
    + destruct (Hg _ _ Himporter) as [_ Hchildren].
      by apply (proj1 (Forall_forall _ _) Hchildren).
    + by apply elem_of_nil in Hchild.
Qed.

Lemma endsWith_last s suffix c :
  JsString.endsWith s suffix = true →
  last (String.list_ascii_of_string suffix) = Some c →
  last (String.list_ascii_of_string s) = Some c.
Proof.
  unfold JsString.endsWith. intros [k Hs]%bool_decide_eq_true_1 Hlast.
  rewrite Hs.
  destruct (String.list_ascii_of_string suffix) as [|a l] using rev_ind;
    [done|].
  rewrite last_snoc in Hlast. injection Hlast as ->.
  by rewrite app_assoc, last_snoc.
Qed.

Lemma endsWith_jsx_not_typescript path :
  JsString.endsWith path ".jsx" = true →
  JsString.endsWith path ".ts" || JsString.endsWith path ".tsx"
  || JsString.endsWith path ".mts" || JsString.endsWith path ".cts" = false.
Proof.
  intros Hjsx.
  pose proof (endsWith_last path ".jsx" "x"%char Hjsx eq_refl) as Hx.
  assert (∀ suffix, last (String.list_ascii_of_string suffix) = Some "s"%char
            → JsString.endsWith path suffix = false) as Hs.
  { intros suffix Hlast.
    destruct (JsString.endsWith path suffix) eqn:Hends; [|done].
    pose proof (endsWith_last path suffix _ Hends Hlast). congruence. }
  rewrite (Hs ".ts"), (Hs ".mts"), (Hs ".cts") by done. cbn.
  rewrite !orb_false_r.
  destruct (JsString.endsWith path ".tsx") eqn:Htsx; [|done].
  unfold JsString.endsWith in *.
  apply bool_decide_eq_true_1 in Hjsx as [k1 H1].
  apply bool_decide_eq_true_1 in Htsx as [k2 H2].
  rewrite H1 in H2. cbn in H2.
  apply (f_equal reverse) in H2. rewrite !reverse_app in H2. cbn in H2.
  discriminate.
Qed.

Section OnLoadFacts.
Context {Err : Type}.
Variable isGeneratedWorkflowFile : string → bool.
Variable isWorkflowSdkFile : string → bool.
Variable detectWorkflowPatterns : string → Patterns.
Variable readFile : string → Result Err string.
Variable applySwcTransform : string → string → bool → Result Err string.

Let load :=
  onLoad isGeneratedWorkflowFile isWorkflowSdkFile detectWorkflowPatterns
    readFile applySwcTransform.

Lemma discover_grows normalizedPath patterns isSdkFile state :
  let state' := discover normalizedPath patterns isSdkFile state in
  discoveredSteps state `prefix_of` discoveredSteps state'
  ∧ discoveredWorkflows state `prefix_of` discoveredWorkflows state'
  ∧ discoveredSerdeFiles state `prefix_of` discoveredSerdeFiles state'
  ∧ (NoDup (discoveredSerdeFiles state) →
     NoDup (discoveredSerdeFiles state')).
Proof.
  unfold discover. cbn. split_and!.
  - destruct (hasUseStep patterns); [by apply prefix_app_r | done].
  - destruct (hasUseWorkflow patterns); [by apply prefix_app_r | done].
  - destruct (hasSerde patterns && negb isSdkFile); [|done].
    case_bool_decide; [done | by apply prefix_app_r].
  - intros Hnd. destruct (hasSerde patterns && negb isSdkFile); [|done].
    case_bool_decide as Hin; [done|].
    apply NoDup_app. split_and!; [done | | apply NoDup_singleton].
    intros x Hx ->%list_elem_of_singleton. done.
Qed.

Lemma discover_adds normalizedPath patterns isSdkFile state recorded :
  let state' := discover normalizedPath patterns isSdkFile state in
  recorded ∈ discoveredSteps state' ++ discoveredWorkflows state'
             ++ discoveredSerdeFiles state' →
  recorded ∈ discoveredSteps state ++ discoveredWorkflows state
             ++ discoveredSerdeFiles state
  ∨ recorded = normalizedPath.
Proof.
  unfold discover. cbn. rewrite !elem_of_app.
  destruct (hasUseStep patterns), (hasUseWorkflow patterns),
    (hasSerde patterns && negb isSdkFile);
    try case_bool_decide; rewrite ?elem_of_app, ?list_elem_of_singleton;
    tauto.
Qed.

(** X5. [onLoad] only ever appends to the three lists, whether it succeeds or
    ends in its [catch]; what it appends is the path of the file written
    with forward slashes, and it keeps the list of serde files free of
    duplicates. *)
Theorem onLoad_only_appends path state :
  let state' := (load path state).1 in
  discoveredSteps state `prefix_of` discoveredSteps state'
  ∧ discoveredWorkflows state `prefix_of` discoveredWorkflows state'
  ∧ discoveredSerdeFiles state `prefix_of` discoveredSerdeFiles state'
  ∧ (NoDup (discoveredSerdeFiles state) →
     NoDup (discoveredSerdeFiles state'))
  ∧ ∀ recorded,
      recorded ∈ discoveredSteps state' ++ discoveredWorkflows state'
                 ++ discoveredSerdeFiles state' →
      recorded ∈ discoveredSteps state ++ discoveredWorkflows state
                 ++ discoveredSerdeFiles state
      ∨ recorded = JsString.slashes path.
Proof.
  unfold load, onLoad.
  destruct (isGeneratedWorkflowFile path).
  - destruct (readFile path); cbn; split_and!; try done; by left.
  - destruct (readFile path) as [source|];
      [|cbn; split_and!; try done; by left].
    destruct (applySwcTransform path source false); cbn [fst];
      (split_and!; [apply discover_grows.. | apply discover_adds]).
Qed.

(** X6. The loader handed to esbuild is [jsx] exactly when the path ends in
    [.jsx] and nothing was thrown; the TypeScript test of the handler can
    never change that. *)
Theorem onLoad_loader path state :
  loader (load path state).2 = jsx
  ↔ JsString.endsWith path ".jsx" = true
    ∧ ∃ source,
        readFile path = Ok source
        ∧ (isGeneratedWorkflowFile path = true
           ∨ ∃ code, applySwcTransform path source false = Ok code).
Proof.
  unfold load, onLoad.
  destruct (isGeneratedWorkflowFile path).
  - destruct (readFile path) as [source|]; cbn.
    + destruct (JsString.endsWith path ".jsx"); split; try done.
      * intros _. split; [done|]. exists source. split; [done | by left].
      * by intros [? _].
    + split; [done|]. by intros (_ & source & ? & _).
  - destruct (readFile path) as [source|]; cbn.
    2: { split; [done|]. by intros (_ & source & ? & _). }
    destruct (applySwcTransform path source false) as [code|] eqn:Hswc; cbn.
    + destruct (JsString.endsWith path ".jsx") eqn:Hjsx.
      * rewrite (endsWith_jsx_not_typescript path Hjsx). cbn.
        split; [|done]. intros _. split; [done|]. exists source.
        split; [done|]. right. by exists code.
      * rewrite andb_false_r. split; [done|]. by intros [? _].
    + split; [done|]. intros (_ & source' & [= <-] & [? | [code Hcode]]);
        [done | congruence].
Qed.

(** X7. A file of the workflow SDK is never added to the serde files, and a
    generated workflow file is never discovered at all. *)
Theorem onLoad_skips path state :
  (isWorkflowSdkFile path = true →
   discoveredSerdeFiles (load path state).1 = discoveredSerdeFiles state)
  ∧ (isGeneratedWorkflowFile path = true → (load path state).1 = state).
Proof.
  unfold load, onLoad. split.
  - intros Hsdk. destruct (isGeneratedWorkflowFile path).
    + by destruct (readFile path).
    + destruct (readFile path) as [source|]; [|done].
      destruct (applySwcTransform path source false); cbn;
        by rewrite Hsdk, andb_false_r.
  - intros ->. by destruct (readFile path).
Qed.

End OnLoadFacts.

Lemma onResolve_records_import_witness :
  parentHasChild
    (onResolve (Err := unit) (Ok (Some "C:\app\flows\order.ts"))
       "C:\app\index.ts" ∅)
    (JsString.slashes "C:\app\index.ts")
    (JsString.slashes "C:\app\flows\order.ts")
  = true.
Proof.
  apply (onResolve_records_import (Err := unit) "C:\app\index.ts"
           "C:\app\flows\order.ts" ∅).
  done.
Defined.

Lemma onResolve_keeps_reachable_witness :
  parentHasChild (onResolve (Err := unit) (Ok (Some "e")) "d" cyclic_graph)
    "a" "d"
  = true.
Proof.
  apply (onResolve_keeps_reachable (Err := unit) (Ok (Some "e")) "d"
           cyclic_graph "a" "d").
  vm_compute. reflexivity.
Defined.

Lemma onResolve_normalized_witness :
  normalized
    (onResolve (Err := unit) (Ok (Some "C:\app\flows\order.ts"))
       "C:\app\index.ts" ∅).
Proof.
  apply (onResolve_normalized (Err := unit)
           (Ok (Some "C:\app\flows\order.ts")) "C:\app\index.ts" ∅).
  intros parent children. by rewrite lookup_empty.
Defined.

End DiscoverPluginFacts.

(** ** Module specifiers *)

Section ModuleSpecifierFacts.
Import ModuleSpecifier.

Lemma startsWith_app s prefix :
  JsString.startsWith s prefix = true →
  s = prefix +:+ JsString.substring_from (String.length prefix) s.
Proof.
  unfold JsString.startsWith. revert s.
  induction prefix as [|c prefix IH]; intros s; cbn.
  - by destruct s.
  - destruct s as [|c' s]; [done|]. cbn.
    destruct (Ascii.ascii_dec c c') as [->|]; [|done].
    intros Hp.
    change (String c' s
            = String c' (prefix +:+ JsString.substring_from
                                      (String.length prefix) s)).
    f_equal. by apply IH.
Qed.

Lemma startsWith_prefixed s prefix :
  JsString.startsWith (prefix +:+ s) prefix = true.
Proof.
  unfold JsString.startsWith.
  induction prefix as [|c prefix IH]; [by destruct s|].
  change (String.prefix (String c prefix) (String c (prefix +:+ s)) = true).
  cbn. by destruct (Ascii.ascii_dec c c).
Qed.

(** X8. [normalizeExportPath] returns the path itself or the path after
    [./]; either way the result starts with [./], and normalizing it
    again changes nothing. *)
Theorem normalizeExportPath_normal path :
  JsString.startsWith (normalizeExportPath path) "./" = true
  ∧ normalizeExportPath (normalizeExportPath path) = normalizeExportPath path
  ∧ (normalizeExportPath path = path
     ∨ normalizeExportPath path = "./" +:+ path).
Proof.
  assert (JsString.startsWith (normalizeExportPath path) "./" = true)
    as Hstarts.
  { unfold normalizeExportPath.
    destruct (JsString.startsWith path "./") eqn:Hp; cbn; [done|].
    apply (startsWith_prefixed path "./"). }
  split_and!; [done | |].
  - unfold normalizeExportPath at 1. by rewrite Hstarts.
  - unfold normalizeExportPath.
    destruct (JsString.startsWith path "./"); cbn; auto.
Qed.

(** Induction on a value that reaches into its arrays and objects. *)
Lemma JsValue_nested_ind (P : JsValue → Prop) :
  P JsUndefined → P JsNull → (∀ b, P (JsBool b)) → (∀ n, P (JsNum n)) →
  (∀ s, P (JsStr s)) → (∀ t, P (JsDate t)) →
  (∀ items, Forall P items → P (JsArr items)) →
  (∀ fields, Forall (λ kv, P kv.2) fields → P (JsObj fields)) →
  ∀ v, P v.
Proof.
  intros Hu Hn Hb Hz Hs Hd Ha Ho. fix IH 1.
  intros [| |b|n|s|t|items|fields];
    [exact Hu | exact Hn | apply Hb | apply Hz | apply Hs | apply Hd | |].
  - apply Ha. induction items as [|item items IHitems]; constructor;
      [apply IH | exact IHitems].
  - apply Ho. induction fields as [|[k v] fields IHfields]; constructor;
      [apply IH | exact IHfields].
Qed.

Lemma first_condition_picks conds
    (fields : list (string * (JsValue * option string))) s :
  first_condition conds fields = Some s →
  ∃ condition value resolved,
    condition ∈ conds ∧ assoc condition fields = Some (value, resolved)
    ∧ (value = JsStr s ∨ (resolved = Some s ∧ is_object value = true)).
Proof.
  induction conds as [|c conds IH]; cbn; [done|].
  intros Hfirst.
  assert (first_condition conds fields = Some s →
          ∃ condition value resolved,
            condition ∈ c :: conds
            ∧ assoc condition fields = Some (value, resolved)
            ∧ (value = JsStr s ∨ (resolved = Some s ∧ is_object value = true)))
    as Hrest.
  { intros (c' & v & r & Hc' & Hassoc & Hv)%IH.
    exists c', v, r. split_and!; [by apply list_elem_of_further | done..]. }
  destruct (assoc c fields) as [[value resolved]|] eqn:Hassoc; [|auto].
  destruct value; auto.
  - injection Hfirst as ->. exists c, (JsStr s), resolved.
    split_and!; [apply list_elem_of_here | done | by left].
  - destruct resolved as [nested|]; [|auto].
    case_bool_decide; [auto|]. injection Hfirst as ->.
    eexists c, _, _. split_and!; [apply list_elem_of_here | done |].
    by right.
  - destruct resolved as [nested|]; [|auto].
    case_bool_decide; [auto|]. injection Hfirst as ->.
    eexists c, _, _. split_and!; [apply list_elem_of_here | done |].
    by right.
  - destruct resolved as [nested|]; [|auto].
    case_bool_decide; [auto|]. injection Hfirst as ->.
    eexists c, _, _. split_and!; [apply list_elem_of_here | done |].
    by right.
Qed.

Lemma assoc_resolved (f : JsValue → option string)
    (fields : list (string * JsValue)) k :
  assoc k
    ((fix each (fields : list (string * JsValue)) :=
        match fields with
        | [] => []
        | (k, v) :: rest => (k, (v, f v)) :: each rest
        end) fields)
  = (λ v, (v, f v)) <$> assoc k fields.
Proof.
  induction fields as [|[k' v] fields IH]; cbn; [done|].
  by case_bool_decide.
Qed.

Lemma assoc_elem {A} k (l : list (string * A)) a :
  assoc k l = Some a → (k, a) ∈ l.
Proof.
  induction l as [|[k' a'] l IH]; cbn; [done|].
  case_bool_decide as Hk.
  - intros [= ->]. subst. apply list_elem_of_here.
  - intros Ha. by apply list_elem_of_further, IH.
Qed.

Lemma first_item_picks (f : JsValue → option string) items s :
  (fix first (items : list JsValue) : option string :=
     match items with
     | [] => None
     | item :: rest =>
         match f item with
         | Some resolved =>
             if bool_decide (resolved = "") then first rest else Some resolved
         | None => first rest
         end
     end) items = Some s →
  s ≠ "" ∧ ∃ item, item ∈ items ∧ f item = Some s.
Proof.
  induction items as [|item items IH]; [done|].
  assert (∀ P : Prop, (s ≠ "" ∧ ∃ item', item' ∈ items ∧ f item' = Some s) →
            s ≠ "" ∧ ∃ item', item' ∈ item :: items ∧ f item' = Some s)
    as Hrest.
  { intros _ (Hs & item' & Hin & Hf). split; [done|]. exists item'.
    split; [by apply list_elem_of_further | done]. }
  cbn. destruct (f item) as [resolved|] eqn:Hitem.
  - case_bool_decide as Hempty.
    + intros H. apply (Hrest True), IH, H.
    + intros [= ->]. split; [done|]. exists item.
      split; [apply list_elem_of_here | done].
  - intros H. apply (Hrest True), IH, H.
Qed.

(** X9. What [resolveExportTarget] returns is a string the target holds: the
    target itself, or what an item of the array or a known condition
    resolves to, and from inside an array or a nested condition never the
    empty string. A string under [workflow] wins over every other
    condition. *)
Theorem resolveExportTarget_picks target :
  (∀ s, resolveExportTarget target = Some s →
     picks s target ∧ (s = "" → ¬ ∃ items, target = JsArr items))
  ∧ (∀ fields s,
       target = JsObj fields → assoc "workflow" fields = Some (JsStr s) →
       resolveExportTarget target = Some s).
Proof.
  split.
  - induction target as [| |b|n|s'|t|items IH|fields IH]
      using JsValue_nested_ind; intros s; cbn [resolveExportTarget];
      try done.
    + intros [= ->]. split; [constructor|]. by intros _ [items ?].
    + intros [Hs (item & Hin & Hitem)]%first_item_picks.
      split; [|done]. rewrite Forall_forall in IH.
      apply (picks_item s items item Hin), (IH item Hin s Hitem).
    + intros (c & v & r & Hc & Hassoc & Hv)%first_condition_picks.
      rewrite assoc_resolved in Hassoc.
      destruct (assoc c fields) as [v'|] eqn:Hfield; [|done].
      injection Hassoc as <- <-.
      split; [|by intros _ [items ?]].
      apply (picks_condition s fields c v' Hc Hfield).
      destruct Hv as [-> | [Hres _]]; [constructor|].
      rewrite Forall_forall in IH.
      apply (IH (c, v') (assoc_elem _ _ _ Hfield) s Hres).
  - intros fields s -> Hassoc. cbn [resolveExportTarget].
    unfold conditions. cbn [first_condition].
    by rewrite assoc_resolved, Hassoc.
Qed.


Example resolveExportTarget_examples :
  resolveExportTarget
    (JsObj [("import", JsStr "./dist/a.mjs"); ("default", JsStr "./dist/a.js")])
  = Some "./dist/a.js"
  ∧ resolveExportTarget (JsArr [JsStr ""; JsNull; JsStr "./dist/b.js"])
    = Some "./dist/b.js"
  ∧ resolveExportTarget (JsObj [("workflow", JsStr "")]) = Some ""
  ∧ resolveExportTarget
      (JsObj [("node", JsObj [("types", JsStr "./a.d.ts")]);
              ("browser", JsStr "./a.js")])
    = None.
Proof. by vm_compute. Qed.

Lemma append_assoc (a b c : string) : (a +:+ b) +:+ c = a +:+ (b +:+ c).
Proof.
  induction a as [|x a IH]; [done|].
  change (String x ((a +:+ b) +:+ c) = String x (a +:+ (b +:+ c))).
  by rewrite IH.
Qed.

Lemma append_length (a b : string) :
  String.length (a +:+ b) = String.length a + String.length b.
Proof.
  induction a as [|x a IH]; [done|].
  change (S (String.length (a +:+ b)) = S (String.length a + String.length b)).
  by rewrite IH.
Qed.

Lemma match_export_sound relativePath entries s :
  match_export relativePath entries = s → s ≠ "" →
  ∃ subpath target resolved,
    (subpath, target) ∈ entries ∧ subpath ≠ "."
    ∧ s = JsString.substring_from 1 subpath
    ∧ resolveExportTarget target = Some resolved
    ∧ normalizeExportPath resolved = relativePath.
Proof.
  intros <-. induction entries as [|[subpath target] entries IH]; cbn;
    [done|].
  assert (match_export relativePath entries ≠ "" →
          ∃ subpath' target' resolved,
            (subpath', target') ∈ (subpath, target) :: entries
            ∧ subpath' ≠ "."
            ∧ match_export relativePath entries
              = JsString.substring_from 1 subpath'
            ∧ resolveExportTarget target' = Some resolved
            ∧ normalizeExportPath resolved = relativePath) as Hrest.
  { intros (sp & tg & r & Hin & ?)%IH. exists sp, tg, r.
    split; [by apply list_elem_of_further | done]. }
  destruct (resolveExportTarget target) as [resolved|] eqn:Htarget; [|done].
  destruct (negb (bool_decide (resolved = ""))
            && bool_decide (normalizeExportPath resolved = relativePath))
    eqn:Hmatch; [|done].
  apply andb_true_iff in Hmatch as [_ Hpath%bool_decide_eq_true_1].
  case_bool_decide as Hroot; [done|]. intros _.
  exists subpath, target, resolved.
  split_and!; [apply list_elem_of_here | done..].
Qed.

(** X10. A subpath that [resolveExportSubpath] returns comes from the exports
    of the package: it is a key other than [.], less its first character,
    whose target resolves to the file's path relative to the package
    directory. Without exports, and for a file outside the package
    directory, the subpath is empty. *)
Theorem resolveExportSubpath_sound filePath pkg :
  (resolveExportSubpath filePath pkg ≠ "" →
   ∃ subpath target resolved inside,
     (subpath, target) ∈ object_entries (exports pkg) ∧ subpath ≠ "."
     ∧ resolveExportSubpath filePath pkg = JsString.substring_from 1 subpath
     ∧ resolveExportTarget target = Some resolved
     ∧ JsString.slashes filePath
       = JsString.slashes (dir pkg) +:+ "/" +:+ inside
     ∧ normalizeExportPath resolved = "./" +:+ inside)
  ∧ (truthy (exports pkg) = false → resolveExportSubpath filePath pkg = "")
  ∧ (JsString.startsWith (JsString.slashes filePath)
       (JsString.slashes (dir pkg) +:+ "/") = false →
     resolveExportSubpath filePath pkg = "").
Proof.
  unfold resolveExportSubpath. split_and!.
  - destruct (negb (truthy (exports pkg)) || negb (is_object (exports pkg)));
      [done|].
    destruct (JsString.startsWith _ _) eqn:Hinside; [|done].
    intros Hsub.
    destruct (match_export_sound _ _ _ eq_refl Hsub)
      as (subpath & target & resolved & Hin & Hroot & Hs & Htarget & Hpath).
    exists subpath, target, resolved. eexists.
    split_and!; [done | done | done | done | | exact Hpath].
    apply startsWith_app in Hinside. rewrite Hinside at 1.
    rewrite append_assoc, append_length. done.
  - by intros ->.
  - intros ->. by destruct (negb _ || negb _).
Qed.


Lemma add_all_elem keys deps x :
  x ∈ fold_left (λ deps name, JsSet.add name deps) keys deps
  ↔ x ∈ deps ∨ x ∈ keys.
Proof.
  revert deps. induction keys as [|k keys IH]; intros deps; cbn.
  - rewrite elem_of_nil. tauto.
  - rewrite IH, set_add_elem, elem_of_cons. tauto.
Qed.

Lemma add_all_NoDup keys deps :
  NoDup deps → NoDup (fold_left (λ deps name, JsSet.add name deps) keys deps).
Proof.
  revert deps. induction keys as [|k keys IH]; intros deps Hdeps; cbn;
    [done|].
  by apply IH, set_add_NoDup.
Qed.

(** X11. The names [getProjectDependencies] collects from a package.json are
    the keys of its four dependency fields that hold objects, each name
    once. *)
Theorem collect_dependencies_keys parsed :
  NoDup (collect_dependencies parsed)
  ∧ ∀ name,
      name ∈ collect_dependencies parsed
      ↔ ∃ depType,
          depType ∈ dependency_types
          ∧ truthy (prop parsed depType) = true
          ∧ is_object (prop parsed depType) = true
          ∧ name ∈ object_keys (prop parsed depType).
Proof.
  unfold collect_dependencies.
  assert (∀ depTypes deps,
            let collected :=
              fold_left
                (λ deps depType,
                   let depObj := prop parsed depType in
                   if truthy depObj && is_object depObj
                   then fold_left (λ deps name, JsSet.add name deps)
                          (object_keys depObj) deps
                   else deps)
                depTypes deps in
            (NoDup deps → NoDup collected)
            ∧ ∀ name,
                name ∈ collected
                ↔ name ∈ deps
                  ∨ ∃ depType,
                      depType ∈ depTypes
                      ∧ truthy (prop parsed depType) = true
                      ∧ is_object (prop parsed depType) = true
                      ∧ name ∈ object_keys (prop parsed depType)) as Hfold.
  { induction depTypes as [|depType depTypes IH]; intros deps; cbn.
    - split; [done|]. intros name. split; [by left|].
      intros [?|(? & []%elem_of_nil & _)]. done.
    - destruct (IH (if truthy (prop parsed depType)
                       && is_object (prop parsed depType)
                    then fold_left (λ deps name, JsSet.add name deps)
                           (object_keys (prop parsed depType)) deps
                    else deps)) as [Hnd Hin].
      split.
      + intros Hdeps. apply Hnd.
        destruct (truthy _ && is_object _); [|done].
        by apply add_all_NoDup.
      + intros name. rewrite Hin.
        destruct (truthy (prop parsed depType)
                  && is_object (prop parsed depType)) eqn:Hobj.
        * apply andb_true_iff in Hobj as [Htruthy Hobject].
          rewrite add_all_elem. split.
          -- intros [[?|?]|(t & ? & ?)]; [by left | |].
             ++ right. exists depType. split; [apply list_elem_of_here|done].
             ++ right. exists t. split; [by apply list_elem_of_further|done].
          -- intros [?|(t & [->|?]%elem_of_cons & ? & ? & ?)];
               [by left; left | by left; right |].
             right. by exists t.
        * split.
          -- intros [?|(t & ? & ?)]; [by left|].
             right. exists t. split; [by apply list_elem_of_further|done].
          -- intros [?|(t & [->|?]%elem_of_cons & Ht & Ho & ?)]; [by left | |].
             ++ rewrite Ht, Ho in Hobj. done.
             ++ right. by exists t. }
  destruct (Hfold dependency_types []) as [Hnd Hin]. split.
  - apply Hnd, NoDup_nil_2.
  - intros name. rewrite Hin, elem_of_nil. tauto.
Qed.

Section FileSystemFacts.
Context {Err : Type}.
Variable dirname : string → string.
Variable join : string → string → string.
Variable resolve : string → string.
Variable relative : string → string → string.
Variable sep : ascii.
Variable depth : string → nat.
Variable existsSync : string → bool.
Variable readFileSync : string → Result Err string.
Variable JSON_parse : string → Result Err JsValue.
Variable js_to_string : JsValue → string.

Local Abbreviation read_package :=
  (read_package join existsSync readFileSync JSON_parse).
Local Abbreviation nearest :=
  (nearest dirname join existsSync readFileSync JSON_parse).
Local Abbreviation coherent :=
  (coherent dirname join existsSync readFileSync JSON_parse).
Local Abbreviation findPackageJson_loop :=
  (findPackageJson_loop dirname join existsSync readFileSync JSON_parse).
Local Abbreviation findPackageJson :=
  (findPackageJson dirname join depth existsSync readFileSync JSON_parse).
Local Abbreviation find_package :=
  (find_package dirname join depth existsSync readFileSync JSON_parse).
Local Abbreviation project_dependencies :=
  (project_dependencies join existsSync readFileSync JSON_parse).
Local Abbreviation isWorkspacePackage :=
  (isWorkspacePackage dirname join resolve sep depth existsSync readFileSync
     JSON_parse).
Local Abbreviation resolveModuleSpecifier :=
  (resolveModuleSpecifier dirname join resolve sep depth existsSync
     readFileSync JSON_parse js_to_string).
Local Abbreviation getImportPath :=
  (getImportPath dirname join resolve relative sep depth existsSync
     readFileSync JSON_parse).
Local Abbreviation template := (template js_to_string).

Lemma backfill_lookup visitedDirs result cache dir :
  backfill visitedDirs result cache !! dir
  = if bool_decide (dir ∈ visitedDirs) then Some result else cache !! dir.
Proof.
  unfold backfill. revert cache.
  induction visitedDirs as [|v visitedDirs IH]; intros cache; cbn; [done|].
  rewrite IH. destruct (decide (dir = v)) as [->|Hne].
  - rewrite lookup_insert_eq.
    rewrite (bool_decide_eq_true_2 (v ∈ v :: visitedDirs))
      by apply list_elem_of_here.
    by case_bool_decide.
  - rewrite lookup_insert_ne by done.
    rewrite (bool_decide_ext (dir ∈ v :: visitedDirs) (dir ∈ visitedDirs));
      [done|].
    rewrite elem_of_cons. split; [by intros [?|?] | by right].
Qed.

Lemma read_package_valid dir pkg :
  read_package dir = Some pkg →
  ModuleSpecifier.dir pkg = dir ∧ truthy (name pkg) = true
  ∧ truthy (version pkg) = true.
Proof.
  unfold ModuleSpecifier.read_package. intros Hread.
  destruct (existsSync _); [|done].
  destruct (readFileSync _) as [content|]; [|done].
  destruct (JSON_parse content) as [parsed|]; [|done].
  destruct (truthy (prop parsed "name") && truthy (prop parsed "version"))
    eqn:Hvalid;
    [|by destruct parsed].
  apply andb_true_iff in Hvalid as [? ?].
  by destruct parsed; simplify_eq.
Qed.

Lemma nearest_functional dir r1 r2 :
  nearest dir r1 → nearest dir r2 → r1 = r2.
Proof.
  intros H1. revert r2.
  induction H1 as [dir Hroot|dir pkg Hdir Hread|dir r Hdir Hread H1 IH];
    intros r2 H2; inversion H2; subst; try congruence.
  by apply IH.
Qed.

Lemma findPackageJson_loop_records fuel dir visitedDirs cache result cache' :
  findPackageJson_loop fuel dir visitedDirs cache = Some (result, cache') →
  (∀ v, v ∈ visitedDirs → cache' !! v = Some result)
  ∧ (dir ≠ dirname dir → cache' !! dir = Some result)
  ∧ (dir = dirname dir →
     result = None ∧ cache' = backfill visitedDirs None cache).
Proof.
  revert dir visitedDirs.
  induction fuel as [|fuel IH]; intros dir visitedDirs; [done|].
  cbn [ModuleSpecifier.findPackageJson_loop].
  case_bool_decide as Hroot.
  - intros [= <- <-]. split_and!; [|done..].
    intros v Hv. by rewrite backfill_lookup, bool_decide_eq_true_2.
  - destruct (cache !! dir) as [cached|] eqn:Hdir.
    + intros [= <- <-]. split_and!; [| |done].
      * intros v Hv. by rewrite backfill_lookup, bool_decide_eq_true_2.
      * intros _. rewrite backfill_lookup. by case_bool_decide.
    + destruct (read_package dir) as [pkg|].
      * intros [= <- <-]. split_and!; [| |done].
        -- intros v Hv. rewrite backfill_lookup, bool_decide_eq_true_2; [done|].
           apply elem_of_app. by left.
        -- intros _. rewrite backfill_lookup, bool_decide_eq_true_2; [done|].
           apply elem_of_app. right. by apply list_elem_of_singleton.
      * intros (Hvis & _ & _)%IH. split_and!; [| |done].
        -- intros v Hv. apply Hvis, elem_of_app. by left.
        -- intros _. apply Hvis, elem_of_app. right.
           by apply list_elem_of_singleton.
Qed.

Lemma findPackageJson_again filePath cache result cache' :
  findPackageJson filePath cache = Some (result, cache') →
  ∀ join' existsSync' readFileSync' JSON_parse',
    ModuleSpecifier.findPackageJson (Err:=Err) dirname join' depth existsSync'
      readFileSync' JSON_parse' filePath cache'
    = Some (result, cache').
Proof.
  unfold ModuleSpecifier.findPackageJson.
  intros (_ & Hdir & Hroot)%findPackageJson_loop_records. intros.
  cbn [ModuleSpecifier.findPackageJson_loop].
  case_bool_decide as Hd.
  - by destruct (Hroot Hd) as [-> ->].
  - by rewrite (Hdir Hd).
Qed.

Lemma getProjectDependencies_again projectRoot cache deps cache' :
  getProjectDependencies join existsSync readFileSync JSON_parse projectRoot
    cache = (deps, cache') →
  ∀ join' existsSync' readFileSync' JSON_parse',
    getProjectDependencies (Err:=Err) join' existsSync' readFileSync'
      JSON_parse' projectRoot cache'
    = (deps, cache').
Proof.
  unfold getProjectDependencies.
  destruct (cache !! projectRoot) as [cached|] eqn:Hroot.
  - intros [= <- <-]. intros. by rewrite Hroot.
  - intros [= <- <-]. intros. by rewrite lookup_insert_eq.
Qed.

Lemma find_package_again filePath caches result caches' :
  find_package filePath caches = Some (result, caches') →
  projectDepsCache caches' = projectDepsCache caches
  ∧ ∀ join' existsSync' readFileSync' JSON_parse' deps,
      ModuleSpecifier.find_package (Err:=Err) dirname join' depth existsSync'
        readFileSync' JSON_parse' filePath
        {| packageJsonCache := packageJsonCache caches';
           projectDepsCache := deps |}
      = Some (result, {| packageJsonCache := packageJsonCache caches';
                         projectDepsCache := deps |}).
Proof.
  unfold ModuleSpecifier.find_package.
  destruct (findPackageJson filePath (packageJsonCache caches))
    as [[result' cache']|] eqn:Hfind; [|done].
  intros [= <- <-]. split; [done|]. intros.
  cbn [packageJsonCache projectDepsCache].
  by rewrite (findPackageJson_again _ _ _ _ Hfind).
Qed.

Lemma project_dependencies_again projectRoot caches deps caches' :
  project_dependencies projectRoot caches = Some (deps, caches') →
  packageJsonCache caches' = packageJsonCache caches
  ∧ ∀ join' existsSync' readFileSync' JSON_parse' packages,
      ModuleSpecifier.project_dependencies (Err:=Err) join' existsSync'
        readFileSync' JSON_parse' projectRoot
        {| packageJsonCache := packages;
           projectDepsCache := projectDepsCache caches' |}
      = Some (deps, {| packageJsonCache := packages;
                       projectDepsCache := projectDepsCache caches' |}).
Proof.
  unfold ModuleSpecifier.project_dependencies.
  destruct (getProjectDependencies _ _ _ _ projectRoot (projectDepsCache caches))
    as [deps' cache'] eqn:Hdeps.
  intros [= <- <-]. split; [done|]. intros.
  cbn [packageJsonCache projectDepsCache].
  by rewrite (getProjectDependencies_again _ _ _ _ Hdeps).
Qed.

(** What [isWorkspacePackage] leaves behind: asked again of the caches it
    returns, under any contents of the file system, it answers the same
    and so does the package lookup that follows it. *)
Lemma isWorkspacePackage_again filePath projectRoot caches inWorkspace caches' :
  isWorkspacePackage filePath projectRoot caches = Some (inWorkspace, caches') →
  isInNodeModules sep filePath = false →
  ∃ result,
    ∀ join' existsSync' readFileSync' JSON_parse',
      ModuleSpecifier.find_package (Err:=Err) dirname join' depth existsSync'
        readFileSync' JSON_parse' filePath caches'
      = Some (result, caches')
      ∧ ModuleSpecifier.isWorkspacePackage (Err:=Err) dirname join' resolve sep
          depth existsSync' readFileSync' JSON_parse' filePath projectRoot
          caches'
        = Some (inWorkspace, caches')
      ∧ (inWorkspace = true → is_Some result).
Proof.
  unfold ModuleSpecifier.isWorkspacePackage. intros Hworkspace Hlocal.
  rewrite Hlocal in Hworkspace |- *.
  destruct (find_package filePath caches) as [[result caches1]|] eqn:Hfind;
    [|done].
  destruct (find_package_again _ _ _ _ Hfind) as [Hdeps1 Hagain1].
  destruct caches1 as [packages1 deps1]. cbn in Hdeps1, Hagain1.
  destruct result as [pkg|].
  - case_bool_decide as Hrootpkg.
    + injection Hworkspace as <- <-. exists (Some pkg). intros.
      rewrite Hagain1. rewrite bool_decide_eq_true_2 by done. done.
    + destruct (project_dependencies projectRoot _)
        as [[projectDeps caches2]|] eqn:Hproject; [|done].
      destruct (project_dependencies_again _ _ _ _ Hproject)
        as [Hpackages2 Hagain2].
      destruct caches2 as [packages2 deps2]. cbn in Hpackages2, Hagain2.
      subst packages2.
      injection Hworkspace as <- <-. exists (Some pkg). intros.
      rewrite Hagain1. rewrite bool_decide_eq_false_2 by done.
      rewrite Hagain2. done.
  - injection Hworkspace as <- <-. exists None. intros.
    rewrite Hagain1. done.
Qed.

(** X14. [resolveModuleSpecifier] asked again, with the caches it left,
    answers from them alone: it gives the same specifier and leaves the
    caches as they are, whatever the file system holds by then. *)
Theorem resolveModuleSpecifier_cached filePath projectRoot caches specifier
    caches' :
  resolveModuleSpecifier filePath projectRoot caches
  = Some (specifier, caches') →
  ∀ join' existsSync' readFileSync' JSON_parse',
    ModuleSpecifier.resolveModuleSpecifier (Err:=Err) dirname join' resolve sep
      depth existsSync' readFileSync' JSON_parse' js_to_string filePath
      projectRoot caches'
    = Some (specifier, caches').
Proof.
  unfold ModuleSpecifier.resolveModuleSpecifier.
  destruct (isInNodeModules sep filePath) eqn:HnodeModules; cbn [negb andb].
  - destruct (find_package filePath caches) as [[result caches1]|] eqn:Hfind;
      [|done].
    destruct (find_package_again _ _ _ _ Hfind) as [_ Hagain].
    destruct caches1 as [packages1 deps1]. cbn in Hagain.
    intros Hspecifier. intros. 
    destruct result as [pkg|]; injection Hspecifier as <- <-;
      by rewrite Hagain.
  - destruct (isWorkspacePackage filePath projectRoot caches)
      as [[inWorkspace caches1]|] eqn:Hworkspace; [|done].
    destruct (isWorkspacePackage_again _ _ _ _ _ Hworkspace HnodeModules)
      as [result Hagain].
    destruct inWorkspace; cbn [negb].
    + destruct (Hagain join existsSync readFileSync JSON_parse)
        as (-> & _ & _).
      intros Hspecifier. intros.
      destruct result as [pkg|]; injection Hspecifier as <- <-.
      * destruct (Hagain join' existsSync' readFileSync' JSON_parse')
          as (Hfind' & -> & _).
        cbn [negb]. by rewrite Hfind'.
      * destruct (Hagain join' existsSync' readFileSync' JSON_parse')
          as (Hfind' & -> & _).
        cbn [negb]. by rewrite Hfind'.
    + intros [= <- <-]. intros.
      by destruct (Hagain join' existsSync' readFileSync' JSON_parse')
        as (_ & -> & _).
Qed.

(** X16. [getImportPath] and [resolveModuleSpecifier] decide alike: the file is
    imported as a package exactly when it has a module specifier, and the
    two leave the same caches. *)
Theorem getImportPath_agrees filePath projectRoot caches :
  (λ '(result, caches'), (isPackage result, caches'))
    <$> getImportPath filePath projectRoot caches
  = (λ '(specifier, caches'), (bool_decide (is_Some specifier), caches'))
      <$> resolveModuleSpecifier filePath projectRoot caches.
Proof.
  unfold ModuleSpecifier.getImportPath, ModuleSpecifier.resolveModuleSpecifier.
  destruct (isInNodeModules sep filePath); cbn [negb andb orb].
  - by destruct (find_package filePath caches) as [[[pkg|] caches1]|].
  - destruct (isWorkspacePackage filePath projectRoot caches)
      as [[[] caches1]|]; cbn [negb]; [|done..].
    by destruct (find_package filePath caches1) as [[[pkg|] caches2]|].
Qed.

(** X17. The import path of a file that is not imported as a package is a
    string that starts with a dot; for a file below the project root it is
    the path from the root, with [./] before it unless it starts with a
    dot already. *)
Theorem getImportPath_local filePath projectRoot caches result caches' :
  getImportPath filePath projectRoot caches = Some (result, caches') →
  isPackage result = false →
  ∃ path,
    importPath result = JsStr path
    ∧ JsString.startsWith path "." = true
    ∧ (JsString.startsWith (JsString.slashes filePath)
         (JsString.slashes projectRoot +:+ "/") = true →
       ∃ below,
         JsString.slashes filePath
         = JsString.slashes projectRoot +:+ "/" +:+ below
         ∧ path = if JsString.startsWith below "." then below
                  else "./" +:+ below).
Proof.
  assert (∃ path,
            JsStr (local_path relative filePath projectRoot) = JsStr path
            ∧ JsString.startsWith path "." = true
            ∧ (JsString.startsWith (JsString.slashes filePath)
                 (JsString.slashes projectRoot +:+ "/") = true →
               ∃ below,
                 JsString.slashes filePath
                 = JsString.slashes projectRoot +:+ "/" +:+ below
                 ∧ path = if JsString.startsWith below "." then below
                          else "./" +:+ below)) as Hlocal.
  { eexists. split; [done|]. unfold local_path. split.
    - by destruct (JsString.startsWith
                     (if JsString.startsWith _ _ then _ else _) ".") eqn:Hdot.
    - intros Hbelow. rewrite Hbelow.
      eexists. split.
      + apply startsWith_app in Hbelow. rewrite Hbelow at 1.
        rewrite append_assoc, append_length. done.
      + by destruct (JsString.startsWith _ "."). }
  unfold ModuleSpecifier.getImportPath. cbv zeta.
  intros Hresult Hpackage.
  destruct (if negb (isInNodeModules sep filePath) then _ else _)
    as [[inWorkspace caches1]|]; [|done].
  destruct (isInNodeModules sep filePath || inWorkspace).
  - destruct (find_package filePath caches1) as [[[pkg|] caches2]|];
      [| |done]; injection Hresult as <- <-; done.
  - injection Hresult as <- <-. done.
Qed.

Lemma getProjectDependencies_cache projectRoot cache deps cache' :
  getProjectDependencies join existsSync readFileSync JSON_parse projectRoot
    cache = (deps, cache') →
  cache' !! projectRoot = Some deps.
Proof.
  unfold getProjectDependencies.
  destruct (cache !! projectRoot) as [cached|] eqn:Hroot.
  - by intros [= <- <-].
  - intros [= <- <-]. by rewrite lookup_insert_eq.
Qed.

(** X13. [isWorkspacePackage] says yes only of a file outside node_modules
    whose package, as [findPackageJson] finds it, lies elsewhere than the
    project root and is named among the dependencies of the project. *)
Theorem isWorkspacePackage_only_dependencies filePath projectRoot caches
    caches' :
  isWorkspacePackage filePath projectRoot caches = Some (true, caches') →
  isInNodeModules sep filePath = false
  ∧ ∃ pkg packageName projectDeps,
      findPackageJson filePath (packageJsonCache caches)
      = Some (Some pkg, packageJsonCache caches')
      ∧ resolve (dir pkg) ≠ resolve projectRoot
      ∧ name pkg = JsStr packageName
      ∧ projectDepsCache caches' !! projectRoot = Some projectDeps
      ∧ packageName ∈ projectDeps.
Proof.
  unfold ModuleSpecifier.isWorkspacePackage.
  destruct (isInNodeModules sep filePath); [done|].
  unfold ModuleSpecifier.find_package.
  destruct (findPackageJson filePath (packageJsonCache caches))
    as [[[pkg|] cache1]|]; [|done..].
  case_bool_decide as Hroot; [done|].
  unfold ModuleSpecifier.project_dependencies.
  cbn [packageJsonCache projectDepsCache].
  destruct (getProjectDependencies _ _ _ _ projectRoot (projectDepsCache caches))
    as [projectDeps cache2] eqn:Hdeps.
  intros [= Hname <-]. split; [done|].
  unfold has_name in Hname.
  destruct (name pkg) as [| | | |packageName| | |] eqn:Hpkg; try done.
  apply bool_decide_eq_true_1 in Hname.
  exists pkg, packageName, projectDeps. split_and!; try done.
  cbn [projectDepsCache]. by eapply getProjectDependencies_cache.
Qed.

Hypothesis dirname_depth :
  ∀ dir, dir ≠ dirname dir → depth (dirname dir) < depth dir.

Lemma findPackageJson_loop_spec fuel dir visitedDirs cache :
  depth dir < fuel → coherent cache →
  (∀ v, v ∈ visitedDirs → cache !! v = None) →
  (∀ result v, nearest dir result → v ∈ visitedDirs → nearest v result) →
  ∃ result cache',
    findPackageJson_loop fuel dir visitedDirs cache = Some (result, cache')
    ∧ nearest dir result ∧ coherent cache' ∧ cache ⊆ cache'
    ∧ (∀ v, v ∈ visitedDirs → cache' !! v = Some result)
    ∧ (dir ≠ dirname dir → cache' !! dir = Some result)
    ∧ (∀ d, cache' !! d = None ∨ cache' !! d = cache !! d
            ∨ cache' !! d = Some result).
Proof.
  revert dir visitedDirs.
  induction fuel as [|fuel IH]; intros dir visitedDirs Hfuel Hcache Hmiss Hup;
    [lia|].
  cbn [ModuleSpecifier.findPackageJson_loop].
  assert (∀ result cache0,
            coherent cache0 → cache ⊆ cache0 →
            (∀ v, v ∈ visitedDirs → cache0 !! v = None) →
            nearest dir result →
            coherent (backfill visitedDirs result cache0)
            ∧ cache ⊆ backfill visitedDirs result cache0
            ∧ (∀ v, v ∈ visitedDirs →
                    backfill visitedDirs result cache0 !! v = Some result))
    as Hfill.
  { intros result cache0 Hcache0 Hsub Hmiss0 Hnear. split_and!.
    - intros d r. rewrite backfill_lookup. case_bool_decide as Hd.
      + intros [= <-]. by apply (Hup result d).
      + apply Hcache0.
    - apply map_subseteq_spec. intros d r Hd.
      rewrite backfill_lookup. case_bool_decide as Hv.
      + by rewrite (Hmiss d Hv) in Hd.
      + by apply (lookup_weaken cache).
    - intros v Hv. by rewrite backfill_lookup, bool_decide_eq_true_2. }
  case_bool_decide as Hroot.
  - destruct (Hfill None cache) as (? & ? & ?);
      [done | done | done | by apply nearest_root |].
    eexists _, _. split_and!; [done | by apply nearest_root | done..|].
    intros d. rewrite backfill_lookup. case_bool_decide; auto.
  - destruct (cache !! dir) as [cached|] eqn:Hdir.
    + destruct (Hfill cached cache) as (? & ? & ?);
        [done | done | done | by apply Hcache |].
      eexists _, _. split_and!; [done | by apply Hcache | done.. | |].
      * intros _. rewrite backfill_lookup. case_bool_decide; [done|].
        exact Hdir.
      * intros d. rewrite backfill_lookup. case_bool_decide; auto.
    + destruct (read_package dir) as [pkg|] eqn:Hread.
      * assert (nearest dir (Some pkg)) as Hnear by by apply nearest_here.
        eexists _, _. split_and!; [done | done | | | | |].
        -- intros d r. rewrite backfill_lookup. case_bool_decide as Hd.
           ++ intros [= <-]. apply elem_of_app in Hd as [Hd|Hd].
              ** by apply (Hup (Some pkg) d).
              ** apply list_elem_of_singleton in Hd. by subst.
           ++ destruct (decide (d = dir)) as [->|Hne].
              ** rewrite lookup_insert_eq. by intros [= <-].
              ** rewrite lookup_insert_ne by done. apply Hcache.
        -- apply map_subseteq_spec. intros d r Hd.
           rewrite backfill_lookup. case_bool_decide as Hv.
           ++ apply elem_of_app in Hv as [Hv|Hv].
              ** by rewrite (Hmiss d Hv) in Hd.
              ** apply list_elem_of_singleton in Hv. subst. congruence.
           ++ rewrite lookup_insert_ne; [done|]. intros <-. congruence.
        -- intros v Hv. rewrite backfill_lookup, bool_decide_eq_true_2; [done|].
           apply elem_of_app. by left.
        -- intros _. rewrite backfill_lookup, bool_decide_eq_true_2; [done|].
           apply elem_of_app. right. by apply list_elem_of_singleton.
        -- intros d. rewrite backfill_lookup. case_bool_decide; [auto|].
           destruct (decide (d = dir)) as [->|Hne].
           ++ rewrite lookup_insert_eq. auto.
           ++ rewrite lookup_insert_ne by done. auto.
      * destruct (IH (dirname dir) (visitedDirs ++ [dir]))
          as (result & cache' & Hloop & Hnear & Hcoh & Hsub & Hvis & _ & Hnew).
        -- specialize (dirname_depth dir Hroot). lia.
        -- done.
        -- intros v [Hv|Hv%list_elem_of_singleton]%elem_of_app;
             [by apply Hmiss | by subst].
        -- intros result v Hr [Hv|Hv%list_elem_of_singleton]%elem_of_app.
           ++ apply (Hup result v); [|done]. by apply nearest_up.
           ++ subst. by apply nearest_up.
        -- exists result, cache'.
           split_and!; [done | by apply nearest_up | done.. | | |done].
           ++ intros v Hv. apply Hvis, elem_of_app. by left.
           ++ intros _. apply Hvis, elem_of_app. right.
              by apply list_elem_of_singleton.
Qed.

(** X12. [findPackageJson] returns, when each step up the directories comes
    nearer to the root: its result is the package of the nearest directory
    above the file that holds a valid package.json, or none if there is no
    such directory; a coherent cache stays coherent and keeps its
    entries, and every entry added holds the result; and the same lookup
    made again is answered the same, with the cache unchanged, whatever
    the file system holds by then. *)
Theorem findPackageJson_nearest filePath cache :
  coherent cache →
  ∃ result cache',
    findPackageJson filePath cache = Some (result, cache')
    ∧ nearest (dirname filePath) result
    ∧ coherent cache' ∧ cache ⊆ cache'
    ∧ (∀ dir, cache' !! dir = cache !! dir ∨ cache' !! dir = Some result)
    ∧ ∀ join' existsSync' readFileSync' JSON_parse',
        ModuleSpecifier.findPackageJson (Err:=Err) dirname join' depth
          existsSync' readFileSync' JSON_parse' filePath cache'
        = Some (result, cache').
Proof.
  intros Hcache.
  destruct (findPackageJson_loop_spec (S (depth (dirname filePath)))
              (dirname filePath) [] cache)
    as (result & cache' & Hloop & Hnear & Hcoh & Hsub & _ & _ & Hnew);
    [lia | done | by intros v ?%elem_of_nil | by intros r v _ ?%elem_of_nil |].
  exists result, cache'. split_and!; [done..| |].
  - intros dir. destruct (Hnew dir) as [Hnone|[?|?]]; [|by left | by right].
    left. rewrite Hnone. symmetry.
    destruct (cache !! dir) as [old|] eqn:Hold; [|done].
    by rewrite (lookup_weaken _ _ _ _ Hold Hsub) in Hnone.
  - by apply (findPackageJson_again filePath cache).
Qed.

(** X21. After [clearModuleSpecifierCache] a lookup is made afresh: whatever
    the caches held before, [findPackageJson] then returns the nearest
    package as the file system has it now. *)
Theorem clearModuleSpecifierCache_fresh caches filePath :
  projectDepsCache (clearModuleSpecifierCache caches) = ∅
  ∧ ∃ result cache',
      findPackageJson filePath
        (packageJsonCache (clearModuleSpecifierCache caches))
      = Some (result, cache')
      ∧ nearest (dirname filePath) result.
Proof.
  split; [done|].
  destruct (findPackageJson_loop_spec (S (depth (dirname filePath)))
              (dirname filePath) []
              (packageJsonCache (clearModuleSpecifierCache caches)))
    as (result & cache' & Hloop & Hnear & _);
    [lia | | by intros v ?%elem_of_nil | by intros r v _ ?%elem_of_nil |].
  - intros dir result. cbn. by rewrite lookup_empty.
  - by exists result, cache'.
Qed.

Lemma find_package_nearest filePath caches :
  coherent (packageJsonCache caches) →
  ∃ result caches',
    find_package filePath caches = Some (result, caches')
    ∧ nearest (dirname filePath) result
    ∧ coherent (packageJsonCache caches').
Proof.
  intros Hcache. unfold ModuleSpecifier.find_package.
  destruct (findPackageJson_loop_spec (S (depth (dirname filePath)))
              (dirname filePath) [] (packageJsonCache caches))
    as (result & cache' & Hloop & Hnear & Hcoh & _);
    [lia | done | by intros v ?%elem_of_nil | by intros r v _ ?%elem_of_nil |].
  unfold ModuleSpecifier.findPackageJson. rewrite Hloop.
  by eexists _, _.
Qed.

Lemma isWorkspacePackage_coherent filePath projectRoot caches :
  coherent (packageJsonCache caches) →
  ∃ inWorkspace caches',
    isWorkspacePackage filePath projectRoot caches
    = Some (inWorkspace, caches')
    ∧ coherent (packageJsonCache caches').
Proof.
  intros Hcache. unfold ModuleSpecifier.isWorkspacePackage.
  destruct (isInNodeModules sep filePath); [by eexists _, _|].
  destruct (find_package_nearest filePath caches Hcache)
    as (result & caches1 & -> & _ & Hcache1).
  destruct result as [pkg|]; [|by eexists _, _].
  case_bool_decide; [by eexists _, _|].
  unfold ModuleSpecifier.project_dependencies.
  destruct (getProjectDependencies _ _ _ _ _ _) as [deps cache2].
  by eexists _, _.
Qed.

(** X15. [resolveModuleSpecifier] returns, when each step up the directories
    comes nearer to the root, and keeps a coherent cache coherent. A
    specifier it gives is the name of the nearest package above the file,
    the export subpath of the file, an at sign and the version of the
    package; a file inside node_modules is without a specifier only when
    no directory above it holds a valid package.json. *)
Theorem resolveModuleSpecifier_names_nearest filePath projectRoot caches :
  coherent (packageJsonCache caches) →
  ∃ specifier caches',
    resolveModuleSpecifier filePath projectRoot caches
    = Some (specifier, caches')
    ∧ coherent (packageJsonCache caches')
    ∧ match specifier with
      | Some moduleSpecifier =>
          ∃ pkg,
            nearest (dirname filePath) (Some pkg)
            ∧ moduleSpecifier
              = template (name pkg) +:+ resolveExportSubpath filePath pkg
                +:+ "@" +:+ template (version pkg)
      | None =>
          isInNodeModules sep filePath = true →
          nearest (dirname filePath) None
      end.
Proof.
  intros Hcache. unfold ModuleSpecifier.resolveModuleSpecifier.
  assert (∀ pkg,
            (if negb (bool_decide (resolveExportSubpath filePath pkg = ""))
             then template (name pkg) +:+ resolveExportSubpath filePath pkg
                  +:+ "@" +:+ template (version pkg)
             else template (name pkg) +:+ "@" +:+ template (version pkg))
            = template (name pkg) +:+ resolveExportSubpath filePath pkg
              +:+ "@" +:+ template (version pkg)) as Hformat.
  { intros pkg. case_bool_decide as Hsubpath; [|done]. by rewrite Hsubpath. }
  destruct (isInNodeModules sep filePath) eqn:HnodeModules; cbn [negb andb].
  - destruct (find_package_nearest filePath caches Hcache)
      as (result & caches' & -> & Hnear & Hcache').
    destruct result as [pkg|]; eexists _, _; (split_and!; [done | done |]).
    + exists pkg. by rewrite Hformat.
    + intros _. exact Hnear.
  - destruct (isWorkspacePackage_coherent filePath projectRoot caches Hcache)
      as (inWorkspace & caches1 & -> & Hcache1).
    destruct inWorkspace; cbn [negb].
    + destruct (find_package_nearest filePath caches1 Hcache1)
        as (result & caches' & -> & Hnear & Hcache').
      destruct result as [pkg|]; eexists _, _; (split_and!; [done | done |]).
      * exists pkg. by rewrite Hformat.
      * by intros [=].
    + exists None, caches1. split_and!; [done | done |]. by intros [=].
Qed.

End FileSystemFacts.

Lemma project_dirname_depth dir :
  dir ≠ project_dirname dir →
  project_depth (project_dirname dir) < project_depth dir.
Proof.
  intros Hdir. unfold project_depth.
  change (steps_up 6 dir)
    with (if bool_decide (dir = project_dirname dir) then 0
          else S (steps_up 5 (project_dirname dir))).
  rewrite bool_decide_eq_false_2 by done.
  assert (Forall (λ parent, steps_up 6 parent < S (steps_up 5 parent))
            ("/" :: project_tree.*2)) as Hparents.
  { apply (bool_decide_unpack _). by vm_compute. }
  rewrite Forall_forall in Hparents. apply Hparents.
  unfold project_dirname.
  destruct (assoc dir project_tree) as [parent|] eqn:Hparent; cbn [default].
  - apply list_elem_of_further.
    apply assoc_elem in Hparent.
    by apply (list_elem_of_fmap_2 snd) in Hparent.
  - apply list_elem_of_here.
Qed.

Lemma empty_cache_coherent :
  coherent project_dirname project_join project_exists project_read
    project_parse ∅.
Proof. intros dir result. by rewrite lookup_empty. Qed.

Example project_specifiers :
  let resolveModuleSpecifier :=
    resolveModuleSpecifier project_dirname project_join posix_resolve "/"
      project_depth project_exists project_read project_parse to_string in
  resolveModuleSpecifier "/app/node_modules/flow/dist/runtime.js" "/app"
    no_caches
  = Some (Some "flow/runtime@4.0.0", flow_caches)
  ∧ fst <$> resolveModuleSpecifier "/app/packages/shared/index.ts" "/app"
              no_caches
    = Some (Some "shared@0.0.0")
  ∧ fst <$> resolveModuleSpecifier "/app/packages/docs/page.ts" "/app"
              no_caches
    = Some None
  ∧ fst <$> resolveModuleSpecifier "/app/src/order.ts" "/app" no_caches
    = Some None
  ∧ resolveExportSubpath "/app/node_modules/flow/dist/runtime.js" flow_pkg
    = "/runtime"
  ∧ resolveExportSubpath "/app/node_modules/flow/dist/index.js" flow_pkg
    = ""
  ∧ resolveExportSubpath "C:\app\node_modules\flow\dist\runtime.js"
      {| name := JsStr "flow"; version := JsStr "4.0.0";
         dir := "C:\app\node_modules\flow"; exports := exports flow_pkg |}
    = "/runtime".
Proof. vm_compute. by repeat split. Qed.

Lemma findPackageJson_nearest_witness :
  ∃ result cache',
    findPackageJson project_dirname project_join project_depth project_exists
      project_read project_parse "/app/node_modules/flow/dist/runtime.js" ∅
    = Some (result, cache')
    ∧ nearest project_dirname project_join project_exists project_read
        project_parse "/app/node_modules/flow/dist" result
    ∧ coherent project_dirname project_join project_exists project_read
        project_parse cache'
    ∧ ∅ ⊆ cache'
    ∧ (∀ dir,
         cache' !! dir = (∅ : gmap string (option PackageInfo)) !! dir
         ∨ cache' !! dir = Some result)
    ∧ ∀ join' existsSync' readFileSync' JSON_parse',
        findPackageJson (Err:=unit) project_dirname join' project_depth
          existsSync' readFileSync' JSON_parse'
          "/app/node_modules/flow/dist/runtime.js" cache'
        = Some (result, cache').
Proof.
  exact (findPackageJson_nearest project_dirname project_join project_depth
           project_exists project_read project_parse project_dirname_depth
           "/app/node_modules/flow/dist/runtime.js" ∅ empty_cache_coherent).
Defined.

Lemma clearModuleSpecifierCache_fresh_witness :
  projectDepsCache (clearModuleSpecifierCache shared_caches) = ∅
  ∧ ∃ result cache',
      findPackageJson project_dirname project_join project_depth
        wiped_exists wiped_read wiped_parse "/app/packages/shared/index.ts"
        (packageJsonCache (clearModuleSpecifierCache shared_caches))
      = Some (result, cache')
      ∧ nearest project_dirname project_join wiped_exists wiped_read
          wiped_parse (project_dirname "/app/packages/shared/index.ts")
          result.
Proof.
  exact (clearModuleSpecifierCache_fresh project_dirname project_join
           project_depth wiped_exists wiped_read wiped_parse
           project_dirname_depth shared_caches
           "/app/packages/shared/index.ts").
Defined.

Example wiped_disk_lookups :
  fst <$> findPackageJson project_dirname project_join project_depth
            wiped_exists wiped_read wiped_parse
            "/app/packages/shared/index.ts" (packageJsonCache shared_caches)
  = Some (Some shared_pkg)
  ∧ fst <$> findPackageJson project_dirname project_join project_depth
              wiped_exists wiped_read wiped_parse
              "/app/packages/shared/index.ts"
              (packageJsonCache (clearModuleSpecifierCache shared_caches))
    = Some None.
Proof. vm_compute. by split. Qed.

Example local_dot_path :
  fst <$> getImportPath project_dirname project_join posix_resolve
            posix_relative "/" project_depth project_exists project_read
            project_parse "/app/.config/flows.ts" "/app" no_caches
  = Some {| importPath := JsStr ".config/flows.ts"; isPackage := false |}.
Proof. vm_compute. reflexivity. Qed.

Lemma resolveModuleSpecifier_cached_witness :
  resolveModuleSpecifier project_dirname project_join posix_resolve "/"
    project_depth wiped_exists wiped_read wiped_parse to_string
    "/app/node_modules/flow/dist/runtime.js" "/app" flow_caches
  = Some (Some "flow/runtime@4.0.0", flow_caches).
Proof.
  apply (resolveModuleSpecifier_cached project_dirname project_join
           posix_resolve "/" project_depth project_exists project_read
           project_parse to_string "/app/node_modules/flow/dist/runtime.js"
           "/app" no_caches).
  vm_compute. reflexivity.
Defined.

Lemma getImportPath_local_witness :
  ∃ path,
    JsStr "./src/order.ts" = JsStr path
    ∧ JsString.startsWith path "." = true
    ∧ (JsString.startsWith (JsString.slashes "/app/src/order.ts")
         (JsString.slashes "/app" +:+ "/") = true →
       ∃ below,
         JsString.slashes "/app/src/order.ts"
         = JsString.slashes "/app" +:+ "/" +:+ below
         ∧ path = if JsString.startsWith below "." then below
                  else "./" +:+ below).
Proof.
  eapply (getImportPath_local project_dirname project_join posix_resolve
            posix_relative "/" project_depth project_exists project_read
            project_parse "/app/src/order.ts" "/app" no_caches
            {| importPath := JsStr "./src/order.ts"; isPackage := false |}).
  - vm_compute. reflexivity.
  - reflexivity.
Defined.

Lemma resolveModuleSpecifier_names_nearest_witness :
  ∃ specifier caches',
    resolveModuleSpecifier project_dirname project_join posix_resolve "/"
      project_depth project_exists project_read project_parse to_string
      "/app/packages/shared/index.ts" "/app" no_caches
    = Some (specifier, caches')
    ∧ coherent project_dirname project_join project_exists project_read
        project_parse (packageJsonCache caches')
    ∧ match specifier with
      | Some moduleSpecifier =>
          ∃ pkg,
            nearest project_dirname project_join project_exists project_read
              project_parse (project_dirname "/app/packages/shared/index.ts")
              (Some pkg)
            ∧ moduleSpecifier
              = template to_string (name pkg)
                +:+ resolveExportSubpath "/app/packages/shared/index.ts" pkg
                +:+ "@" +:+ template to_string (version pkg)
      | None =>
          isInNodeModules "/" "/app/packages/shared/index.ts" = true →
          nearest project_dirname project_join project_exists project_read
            project_parse (project_dirname "/app/packages/shared/index.ts")
            None
      end.
Proof.
  exact (resolveModuleSpecifier_names_nearest project_dirname project_join
           posix_resolve "/" project_depth project_exists project_read
           project_parse to_string project_dirname_depth
           "/app/packages/shared/index.ts" "/app" no_caches
           empty_cache_coherent).
Defined.

Lemma isWorkspacePackage_only_dependencies_witness :
  isInNodeModules "/" "/app/packages/shared/index.ts" = false
  ∧ ∃ pkg packageName projectDeps,
      findPackageJson project_dirname project_join project_depth
        project_exists project_read project_parse
        "/app/packages/shared/index.ts" (packageJsonCache no_caches)
      = Some (Some pkg, packageJsonCache shared_caches)
      ∧ posix_resolve (dir pkg) ≠ posix_resolve "/app"
      ∧ name pkg = JsStr packageName
      ∧ projectDepsCache shared_caches !! "/app" = Some projectDeps
      ∧ packageName ∈ projectDeps.
Proof.
  apply (isWorkspacePackage_only_dependencies project_dirname project_join
           posix_resolve "/" project_depth project_exists project_read
           project_parse "/app/packages/shared/index.ts" "/app" no_caches
           shared_caches).
  vm_compute. reflexivity.
Defined.

End ModuleSpecifierFacts.

(** ** The event client: listings and v1 compatibility mode *)

Section EventsClientFacts.
Import Events.
Context {Err Run StepWire Step Hook : Type}.
Variable DEFAULT_RESOLVE_DATA_OPTION : ResolveData.
Variable err_of_message : string → Err.
Variable deserializeStep : StepWire → Step.
Variable serverPage : Call → Result Err PaginatedResponse.
Variable serverEvent : Call → Result Err EventObj.
Variable serverResult : Call → Result Err (@EventResultWire Run StepWire Hook).
Variable cancelWorkflowRunV1 : Call → Result Err Run.
Variable createWorkflowRunV1 : Call → Result Err Run.

Let create :=
  createWorkflowRunEvent DEFAULT_RESOLVE_DATA_OPTION deserializeStep
    serverEvent serverResult cancelWorkflowRunV1 createWorkflowRunV1.

Let list_events :=
  getWorkflowRunEvents DEFAULT_RESOLVE_DATA_OPTION err_of_message serverPage.

(** X18. A listing that names a run or a correlation id issues exactly one
    request, a GET without a body. Its query holds each parameter at most
    once, in the order limit, cursor, sortOrder, correlationId,
    remoteRefBehavior; a limit of zero and an empty cursor are left out,
    and the correlation id is there only when the parameters have no
    [runId] key. What the server answers comes back with each event
    filtered, and what it throws is thrown on. *)
Theorem getWorkflowRunEvents_one_request params log :
  let runId := mjoin (lp_runId params) in
  let correlationId :=
    match lp_runId params with
    | Some _ => None
    | None => lp_correlationId params
    end in
  let resolveData :=
    default DEFAULT_RESOLVE_DATA_OPTION (lp_resolveData params) in
  truthy_str runId || truthy_str correlationId = true →
  ∃ req,
    (list_events params log).1 = log ++ [CallRequest req]
    ∧ req_method req = GET ∧ req_body req = None
    ∧ req_path req
      = (if truthy_str correlationId then "/v2/events"
         else "/v2/runs/" +:+ default "undefined" runId +:+ "/events")
    ∧ req_query req
      = match lp_pagination params ≫= limit with
        | Some n => if bool_decide (n = 0%Z) then [] else [("limit", QNum n)]
        | None => []
        end
        ++ match lp_pagination params ≫= cursor with
           | Some c => if bool_decide (c = "") then [] else [("cursor", QStr c)]
           | None => []
           end
        ++ match lp_pagination params ≫= sortOrder with
           | Some o => [("sortOrder", QSort o)]
           | None => []
           end
        ++ (if truthy_str correlationId
            then [("correlationId", QStr (default "" correlationId))]
            else [])
        ++ [("remoteRefBehavior",
             QRef match resolveData with RdNone => Lazy | RdAll => Resolve end)]
    ∧ NoDup (req_query req).*1
    ∧ (list_events params log).2
      = match serverPage (CallRequest req) with
        | Ok response =>
            Ok {| data := (λ event, filterEventData event resolveData)
                            <$> data response;
                  page_cursor := page_cursor response;
                  hasMore := hasMore response |}
        | Throw e => Throw e
        end.
Proof.
  cbv zeta. unfold list_events, getWorkflowRunEvents.
  destruct params as [runKey corr pagination rd].
  cbn [lp_runId lp_correlationId lp_pagination lp_resolveData].
  set (resolveData := default DEFAULT_RESOLVE_DATA_OPTION rd).
  intros Hid.
  assert (∀ runId correlationId,
            truthy_str runId || truthy_str correlationId = true →
            negb (truthy_str runId) && negb (truthy_str correlationId) = false)
    as Hgiven.
  { intros r c. by destruct (truthy_str r), (truthy_str c). }
  destruct runKey as [runId|]; cbn [mjoin option_join] in Hid |- *;
    rewrite (Hgiven _ _ Hid); clear Hgiven; unfold bind, call, ret.
  - destruct pagination as [[[n|] [c|] [o|]]|];
      cbn [mbind option_bind limit cursor sortOrder];
      cbn [truthy_num truthy_str];
      repeat case_bool_decide; cbn [negb];
      (eexists; split_and!;
       [ by destruct (serverPage _) | done | done | done
       | cbn; reflexivity
       | cbn; apply (bool_decide_unpack _); by vm_compute
       | by destruct (serverPage _) ]).
  - destruct corr as [correlationId|]; [|done].
    cbn [truthy_str orb] in Hid.
    destruct pagination as [[[n|] [c|] [o|]]|];
      cbn [mbind option_bind limit cursor sortOrder];
      cbn [truthy_num truthy_str];
      repeat case_bool_decide; try done; cbn [negb];
      (eexists; split_and!;
       [ by destruct (serverPage _) | done | done | done
       | cbn; reflexivity
       | cbn; apply (bool_decide_unpack _); by vm_compute
       | by destruct (serverPage _) ]).
Qed.



(** X19. In v1 compatibility mode, creating an event makes exactly one call,
    which says nothing about remote references: the cancellation of a run
    that is named, the creation of a run, or else a POST of the event as
    it is to the v1 route, with [null] in the path when no run is named.
    The event comes back as the server sent it, whatever [resolveData]
    says, and never with a step or a hook. *)
Theorem createWorkflowRunEvent_v1Compat id data params log :
  default false (params ≫= cp_v1Compat) = true →
  ∃ c,
    (create id data params log).1 = log ++ [c]
    ∧ requested_behavior c = None
    ∧ match c with
      | CallCancelRunV1 runId params' =>
          eventType data = "run_cancelled" ∧ id = Some runId ∧ runId ≠ ""
          ∧ params' = params
          ∧ (create id data params log).2
            = match cancelWorkflowRunV1 c with
              | Ok run => Ok {| res_event := None; res_run := Some run;
                                res_step := None; res_hook := None |}
              | Throw e => Throw e
              end
      | CallCreateRunV1 eventData' =>
          eventType data = "run_created" ∧ eventData' = eventData data
          ∧ (create id data params log).2
            = match createWorkflowRunV1 c with
              | Ok run => Ok {| res_event := None; res_run := Some run;
                                res_step := None; res_hook := None |}
              | Throw e => Throw e
              end
      | CallRequest req =>
          eventType data ≠ "run_created"
          ∧ (eventType data = "run_cancelled" → truthy_str id = false)
          ∧ req_path req = "/v1/runs/" +:+ default "null" id +:+ "/events"
          ∧ req_method req = POST ∧ req_query req = []
          ∧ req_body req
            = Some {| body_data := data; body_remoteRefBehavior := None |}
          ∧ (create id data params log).2
            = match serverEvent c with
              | Ok event => Ok {| res_event := Some event; res_run := None;
                                  res_step := None; res_hook := None |}
              | Throw e => Throw e
              end
      end.
Proof.
  intros Hv1. unfold create, createWorkflowRunEvent. rewrite Hv1.
  unfold bind, call, ret.
  destruct (bool_decide (eventType data = "run_cancelled") && truthy_str id)
    eqn:Hcancel.
  - apply andb_true_iff in Hcancel as [Htype%bool_decide_eq_true_1 Hid].
    destruct id as [runId|]; [|done]. cbn in Hid.
    eexists. split_and!; [by destruct (cancelWorkflowRunV1 _) | done |].
    change (default "" (Some runId)) with runId.
    split_and!; [done | done | | done |].
    + intros ->. done.
    + by destruct (cancelWorkflowRunV1 _).
  - destruct (decide (eventType data = "run_created")) as [Hcreated|Hcreated];
      [rewrite (bool_decide_eq_true_2 _ Hcreated)
      |rewrite (bool_decide_eq_false_2 _ Hcreated)].
    + eexists. split_and!; [by destruct (createWorkflowRunV1 _) | done |].
      split_and!; [done | done |]. by destruct (createWorkflowRunV1 _).
    + eexists. split_and!; [by destruct (serverEvent _) | done |].
      split_and!; [done | | done.. |].
      * intros Htype. rewrite bool_decide_eq_true_2 in Hcancel by done.
        done.
      * by destruct (serverEvent _).
Qed.

End EventsClientFacts.

Lemma getWorkflowRunEvents_one_request_witness :
  ∃ req,
    (Events.getWorkflowRunEvents Events.RdAll id Events.answer_page
       EventsExamples.zero_limit_listing []).1
    = [] ++ [Events.CallRequest req]
    ∧ Events.req_method req = Events.GET ∧ Events.req_body req = None
    ∧ Events.req_path req = "/v2/runs/wrun_1/events"
    ∧ Events.req_query req
      = [("sortOrder", Events.QSort Events.Desc);
         ("remoteRefBehavior", Events.QRef Events.Lazy)]
    ∧ NoDup (Events.req_query req).*1
    ∧ (Events.getWorkflowRunEvents Events.RdAll id Events.answer_page
         EventsExamples.zero_limit_listing []).2
      = match Events.answer_page (Events.CallRequest req) with
        | Ok response =>
            Ok {| Events.data :=
                    (λ event, Events.filterEventData event Events.RdNone)
                      <$> Events.data response;
                  Events.page_cursor := Events.page_cursor response;
                  Events.hasMore := Events.hasMore response |}
        | Throw e => Throw e
        end.
Proof.
  exact (getWorkflowRunEvents_one_request Events.RdAll id Events.answer_page
           EventsExamples.zero_limit_listing [] eq_refl).
Defined.

Lemma createWorkflowRunEvent_v1Compat_witness :
  ∃ c,
    (Events.createWorkflowRunEvent (Step := unit) (Run := unit)
       (StepWire := unit) (Hook := unit) Events.RdAll id
       EventsExamples.answer_event Events.offline Events.offline Events.offline
       None EventsExamples.run_cancelled_request EventsExamples.v1_none_params []).1
    = [] ++ [c]
    ∧ c = Events.CallRequest
            {| Events.req_path := "/v1/runs/null/events";
               Events.req_query := [];
               Events.req_method := Events.POST;
               Events.req_body :=
                 Some {| Events.body_data := EventsExamples.run_cancelled_request;
                         Events.body_remoteRefBehavior := None |};
               Events.req_schema := Events.EventSchema |}
    ∧ (Events.createWorkflowRunEvent (Step := unit) (Run := unit)
         (StepWire := unit) (Hook := unit) Events.RdAll id
         EventsExamples.answer_event Events.offline Events.offline Events.offline
         None EventsExamples.run_cancelled_request EventsExamples.v1_none_params []).2
      = Ok {| Events.res_event := Some Events.stored_event;
              Events.res_run := None; Events.res_step := None;
              Events.res_hook := None |}.
Proof.
  destruct (createWorkflowRunEvent_v1Compat (Step := unit) (Run := unit)
              (StepWire := unit) (Hook := unit) Events.RdAll id
              EventsExamples.answer_event Events.offline Events.offline
              Events.offline None EventsExamples.run_cancelled_request
              EventsExamples.v1_none_params [] eq_refl) as (c & Hlog & _ & Hcall).
  exists c. split; [exact Hlog|].
  injection Hlog as <-. split; reflexivity.
Defined.

(** ** Tracing with the OpenTelemetry API present *)

Section TracingFacts.
Import Telemetry.
Context {Err This : Type}.
Variable err_of_message : string → Err.
Variable message_of_err : Err → string.
Variable api : OtelApi.

(** X20. With the OpenTelemetry API present, a method wrapped by
    [instrumentObject] does what the method does when called without a
    receiver, between the start of a span and its end: the span is started
    with the kind INTERNAL, gets the four service attributes, then the
    status OK or, when the method throws, ERROR with the message of what
    was thrown, and is ended in both cases; the outcome of the method is
    the outcome of the wrapper. The span is named after the prefix and the
    key, and for [world.events.create] also after the event type of the
    second argument, if that is a non-empty string. *)
Theorem instrumented_brackets_call prefix key (f : @Method Err This) args
    ops outcome :
  (∀ log, f None args log = (log ++ ops, outcome)) →
  ∃ spanName,
    ((spanName = prefix +:+ "." +:+ key
      ∧ (prefix = "world.events" → key = "create" →
         extractEventType args = None ∨ extractEventType args = Some ""))
     ∨ (prefix = "world.events" ∧ key = "create"
        ∧ ∃ eventType,
            extractEventType args = Some eventType ∧ eventType ≠ ""
            ∧ spanName = prefix +:+ "." +:+ key +:+ " " +:+ eventType))
    ∧ ∀ this log,
        instrumented err_of_message message_of_err (Some api) prefix key f
          this args log
        = (log
           ++ [StartActiveSpan spanName
                 {| kind := Some (otel_SpanKind api INTERNAL) |};
               SetAttributes spanName
                 [("peer.service", "world-local"); ("rpc.system", "local");
                  ("rpc.service", "world-local"); ("rpc.method", spanName)]]
           ++ ops
           ++ [SetStatus spanName
                 match outcome with
                 | Ok _ => StatusOK
                 | Throw e => StatusERROR (message_of_err e)
                 end;
               EndSpan spanName],
           outcome).
Proof.
  intros Hf. unfold instrumented.
  set (spanName :=
         if bool_decide (prefix = "world.events")
            && bool_decide (key = "create")
         then
           match extractEventType args with
           | Some eventType =>
               if bool_decide (eventType = "") then prefix +:+ "." +:+ key
               else prefix +:+ "." +:+ key +:+ " " +:+ eventType
           | None => prefix +:+ "." +:+ key
           end
         else prefix +:+ "." +:+ key).
  exists spanName. split.
  - subst spanName.
    destruct (bool_decide (prefix = "world.events")
              && bool_decide (key = "create")) eqn:Hcreate.
    + apply andb_true_iff in Hcreate
        as [Hprefix%bool_decide_eq_true_1 Hkey%bool_decide_eq_true_1].
      destruct (extractEventType args) as [eventType|]; [|left; auto].
      case_bool_decide as Htype; [left; subst; auto|].
      right. split_and!; [done..|]. by exists eventType.
    + left. split; [done|]. intros Hprefix Hkey.
      by rewrite !bool_decide_eq_true_2 in Hcreate.
  - intros this log. clearbody spanName.
    unfold trace, getTracer, getOtelApi, getSpanKind, startActiveSpan, tbind,
      emit.
    rewrite Hf.
    destruct outcome as [result|e]; f_equal; by rewrite <- ?app_assoc.
Qed.

End TracingFacts.

Lemma instrumented_brackets_call_witness :
  ∃ spanName,
    ((spanName = "world.events" +:+ "." +:+ "create"
      ∧ ("world.events" = "world.events" → "create" = "create" →
         Telemetry.extractEventType
           [JsStr "wrun_1"; JsObj [("eventType", JsStr "step_started")]]
         = None
         ∨ Telemetry.extractEventType
             [JsStr "wrun_1"; JsObj [("eventType", JsStr "step_started")]]
           = Some ""))
     ∨ ("world.events" = "world.events" ∧ "create" = "create"
        ∧ ∃ eventType,
            Telemetry.extractEventType
              [JsStr "wrun_1"; JsObj [("eventType", JsStr "step_started")]]
            = Some eventType
            ∧ eventType ≠ ""
            ∧ spanName
              = "world.events" +:+ "." +:+ "create" +:+ " " +:+ eventType))
    ∧ ∀ (this : option (gmap string JsValue)) log,
        Telemetry.instrumented (Err := string) id id
          (Some Telemetry.otel_api) "world.events" "create"
          (λ _ _, Telemetry.tthrow "offline") this
          [JsStr "wrun_1"; JsObj [("eventType", JsStr "step_started")]] log
        = (log
           ++ [Telemetry.StartActiveSpan spanName
                 {| Telemetry.kind := Some 0%Z |};
               Telemetry.SetAttributes spanName
                 [("peer.service", "world-local"); ("rpc.system", "local");
                  ("rpc.service", "world-local"); ("rpc.method", spanName)]]
           ++ []
           ++ [Telemetry.SetStatus spanName (Telemetry.StatusERROR "offline");
               Telemetry.EndSpan spanName],
           Throw "offline").
Proof.
  apply (instrumented_brackets_call (Err := string)
           (This := gmap string JsValue) id id Telemetry.otel_api
           "world.events" "create" (λ _ _, Telemetry.tthrow "offline")
           [JsStr "wrun_1"; JsObj [("eventType", JsStr "step_started")]]
           [] (Throw "offline")).
  intros log. unfold Telemetry.tthrow. by rewrite app_nil_r.
Defined.

Example events_create_span :
  Telemetry.instrumented (Err := string) (This := gmap string JsValue) id id
    (Some Telemetry.otel_api) "world.events" "create"
    (λ _ _, Telemetry.tthrow "offline") None
    [JsStr "wrun_1"; JsObj [("eventType", JsStr "step_started")]] []
  = ([Telemetry.StartActiveSpan "world.events.create step_started"
        {| Telemetry.kind := Some 0%Z |};
      Telemetry.SetAttributes "world.events.create step_started"
        [("peer.service", "world-local"); ("rpc.system", "local");
         ("rpc.service", "world-local");
         ("rpc.method", "world.events.create step_started")];
      Telemetry.SetStatus "world.events.create step_started"
        (Telemetry.StatusERROR "offline");
      Telemetry.EndSpan "world.events.create step_started"],
     Throw "offline").
Proof. vm_compute. reflexivity. Qed.
